(** * go-htmx: the component rendering engine of [component.go]

    A shallow embedding of the [Component] type and of its methods, with the
    Go heap made explicit: components live at addresses, the two data maps
    of a component are references into a store of maps (Go maps are
    reference values, and [SetData] keeps the caller's map), and the
    package-level variables are fields of the state.  The template engine
    ([html/template]), [filepath.Base], [os.DirFS] and [sha256.Sum256] are
    parameters: parsing and executing a template are functions of their
    arguments, so a template function that would itself change components
    is outside the model.  A panic is an outcome of its own.  The
    recursive methods ([Render], [SetURL]) take a fuel argument, and the
    order of [range] over a map is given by an oracle. *)

From Stdlib Require Import Strings.String Strings.Ascii Strings.Byte.
From stdpp Require Import gmap strings list fin_maps sorting vector.

Local Open Scope string_scope.
Local Open Scope list_scope.

(** ** The host: what the Go standard library provides *)

Class Host := {
  Any : Type;                          (* values of type [any] *)
  Func : Type;                         (* values stored in a [template.FuncMap] *)
  URL : Type;                          (* [url.URL] *)
  FS : Type;                           (* [fs.FS] *)
  Template : Type;                     (* [template.Template] *)
  HostError : Type;                    (* errors of [html/template] *)
  DirFS : string → FS;                 (* [os.DirFS] *)
  Base : string → string;              (* [filepath.Base] *)
  Sum256 : list byte → vec byte 32     (* [sha256.Sum256], a [[32]byte] *)
}.

(** Pointers.  A [*Component] is an address; an address that is not
    allocated stands for a nil pointer. *)
Definition loc := positive.
(** A Go map value is a reference; [None] is the nil map. *)
Definition mref := positive.

Definition HTML := string.

(** [context.Context], as far as [Render] uses it: the component keys that
    [context.WithValue] has attached, innermost first. *)
Definition Context := list loc.
Definition Value (ctx : Context) (c : loc) : bool := bool_decide (c ∈ ctx).
Definition WithValue (ctx : Context) (c : loc) : Context := c :: ctx.

Inductive error `{Host} :=
  | ErrCircular        (* "circular reference detected in partials" *)
  | ErrNoTemplates     (* "no templates provided for rendering" *)
  | ErrNotTemplate     (* "template is not a *template.Template" *)
  | ErrHost (e : HostError).

Section Model.
Context `{Host}.

Record Component := mkComponent {
  templateData : option mref;
  with_ : option (gmap string loc);
  partial : option (gmap string HTML);
  globalData : option mref;
  wrappedRenderer : option loc;
  wrappedTarget : string;
  templates : list string;
  url : option URL;
  functions : option (gmap string Func);
  fs : FS
}.

Definition set_templateData (v : option mref) (c : Component) : Component :=
  mkComponent v (with_ c) (partial c) (globalData c) (wrappedRenderer c)
    (wrappedTarget c) (templates c) (url c) (functions c) (fs c).
Definition set_with (v : option (gmap string loc)) (c : Component) : Component :=
  mkComponent (templateData c) v (partial c) (globalData c) (wrappedRenderer c)
    (wrappedTarget c) (templates c) (url c) (functions c) (fs c).
Definition set_partial (v : option (gmap string HTML)) (c : Component) : Component :=
  mkComponent (templateData c) (with_ c) v (globalData c) (wrappedRenderer c)
    (wrappedTarget c) (templates c) (url c) (functions c) (fs c).
Definition set_globalData (v : option mref) (c : Component) : Component :=
  mkComponent (templateData c) (with_ c) (partial c) v (wrappedRenderer c)
    (wrappedTarget c) (templates c) (url c) (functions c) (fs c).
Definition set_wrapped (r : option loc) (t : string) (c : Component) : Component :=
  mkComponent (templateData c) (with_ c) (partial c) (globalData c) r
    t (templates c) (url c) (functions c) (fs c).
Definition set_templates (v : list string) (c : Component) : Component :=
  mkComponent (templateData c) (with_ c) (partial c) (globalData c) (wrappedRenderer c)
    (wrappedTarget c) v (url c) (functions c) (fs c).
Definition set_url (v : option URL) (c : Component) : Component :=
  mkComponent (templateData c) (with_ c) (partial c) (globalData c) (wrappedRenderer c)
    (wrappedTarget c) (templates c) v (functions c) (fs c).
Definition set_functions (v : option (gmap string Func)) (c : Component) : Component :=
  mkComponent (templateData c) (with_ c) (partial c) (globalData c) (wrappedRenderer c)
    (wrappedTarget c) (templates c) (url c) v (fs c).
Definition set_fs (v : FS) (c : Component) : Component :=
  mkComponent (templateData c) (with_ c) (partial c) (globalData c) (wrappedRenderer c)
    (wrappedTarget c) (templates c) (url c) (functions c) v.

(** The anonymous struct that [renderNamed] hands to [Execute].  The two
    data maps are given by their contents at that moment. *)
Record Envelope := mkEnvelope {
  Ctx : Context;
  Data : option (gmap string Any);
  Global : option (gmap string Any);
  Partials : option (gmap string HTML);
  EnvURL : option URL
}.

(** What [templateCache] (a [sync.Map], values of type [any]) can hold. *)
Inductive CacheEntry :=
  | CacheTemplate (t : Template)
  | CacheOther.

Record State := mkState {
  comps : gmap loc Component;               (* the allocated components *)
  maps : gmap mref (gmap string Any);       (* the allocated data maps *)
  templateCache : gmap string CacheEntry;
  DefaultTemplateFuncs : gmap string Func;
  UseTemplateCache : bool;
  seed : nat                                (* state of the map iterator's randomness *)
}.

Definition set_comps (v : gmap loc Component) (σ : State) : State :=
  mkState v (maps σ) (templateCache σ) (DefaultTemplateFuncs σ) (UseTemplateCache σ) (seed σ).
Definition set_maps (v : gmap mref (gmap string Any)) (σ : State) : State :=
  mkState (comps σ) v (templateCache σ) (DefaultTemplateFuncs σ) (UseTemplateCache σ) (seed σ).
Definition set_templateCache (v : gmap string CacheEntry) (σ : State) : State :=
  mkState (comps σ) (maps σ) v (DefaultTemplateFuncs σ) (UseTemplateCache σ) (seed σ).
Definition set_seed (v : nat) (σ : State) : State :=
  mkState (comps σ) (maps σ) (templateCache σ) (DefaultTemplateFuncs σ) (UseTemplateCache σ) v.

(** ** Computations: state passing, with panics and a fuel bound *)

Inductive Res (A : Type) :=
  | Ok (a : A) (σ : State)     (* the call returned [a] *)
  | Panic                      (* a run-time panic *)
  | OutOfFuel.                 (* the recursion bound of the model was hit *)
Global Arguments Ok {A} a σ.
Global Arguments Panic {A}.
Global Arguments OutOfFuel {A}.

Definition M (A : Type) : Type := State → Res A.

Definition ret {A} (a : A) : M A := λ σ, Ok a σ.
Definition bind {A B} (m : M A) (k : A → M B) : M B :=
  λ σ, match m σ with
       | Ok a σ' => k a σ'
       | Panic => Panic
       | OutOfFuel => OutOfFuel
       end.
Definition panic {A} : M A := λ _, Panic.
Definition outOfFuel {A} : M A := λ _, OutOfFuel.
Definition get : M State := λ σ, Ok σ σ.
Definition modify (f : State → State) : M unit := λ σ, Ok tt (f σ).

End Model.

Notation "x <~ m ;; k" := (bind m (λ x, k))
  (at level 100, m at next level, right associativity).

(** The order in which [range] walks a map is unspecified and changes from
    one loop to the next: it is given by an oracle, indexed by a counter
    that every [range] statement advances. *)
Class RangeOrder := {
  ord : nat → ∀ V : Type, gmap string V → list (string * V);
  ord_perm : ∀ n V (m : gmap string V), ord n V m ≡ₚ map_to_list m
}.

Section Ops.
Context `{Host} `{RangeOrder}.

(** [for key, value := range m] yields the entries of [m] in some order. *)
Definition rangeMap {V} (m : gmap string V) : M (list (string * V)) :=
  λ σ, Ok (ord (seed σ) V m) (set_seed (S (seed σ)) σ).

Fixpoint forEach {A} (l : list A) (body : A → M unit) : M unit :=
  match l with
  | [] => ret tt
  | x :: l' => _ <~ body x ;; forEach l' body
  end.

(** A loop whose body may [return] from the enclosing function: [Some r]
    leaves the loop with [r]. *)
Fixpoint forEachRet {A R} (l : list A) (body : A → M (option R)) : M (option R) :=
  match l with
  | [] => ret None
  | x :: l' =>
      r <~ body x ;;
      match r with
      | Some v => ret (Some v)
      | None => forEachRet l' body
      end
  end.

(** Dereferencing [c]; a nil pointer panics. *)
Definition getComp (c : loc) : M Component :=
  λ σ, match comps σ !! c with
       | Some x => Ok x σ
       | None => Panic
       end.

(** Assigning to fields of [*c]. *)
Definition modComp (c : loc) (f : Component → Component) : M unit :=
  λ σ, match comps σ !! c with
       | Some x => Ok tt (set_comps (<[c := f x]> (comps σ)) σ)
       | None => Panic
       end.

(** The contents of a data map; reading a nil map finds nothing. *)
Definition deref (σ : State) (r : option mref) : gmap string Any :=
  match r with
  | Some r => default ∅ (maps σ !! r)
  | None => ∅
  end.
Definition readMap (r : option mref) : M (gmap string Any) :=
  λ σ, Ok (deref σ r) σ.

(** [m[key] = value]; assignment to an entry of a nil map panics. *)
Definition mapAssign (r : option mref) (key : string) (value : Any) : M unit :=
  match r with
  | Some a => λ σ, Ok tt (set_maps (<[a := <[key := value]> (deref σ r)]> (maps σ)) σ)
  | None => panic
  end.

(** [make(map[string]any)]: a new, empty map. *)
Definition makeMap : M (option mref) :=
  λ σ, let a := fresh (dom (maps σ)) in
       Ok (Some a) (set_maps (<[a := ∅]> (maps σ)) σ).

(** A map literal: a new map with the given contents. *)
Definition mapLit (m : gmap string Any) : M (option mref) :=
  λ σ, let a := fresh (dom (maps σ)) in
       Ok (Some a) (set_maps (<[a := m]> (maps σ)) σ).

(** [if _, ok := m[key]; !ok { m[key] = value }] *)
Definition assignIfAbsent (r : option mref) (kv : string * Any) : M unit :=
  cur <~ readMap r ;;
  match cur !! kv.1 with
  | Some _ => ret tt
  | None => mapAssign r kv.1 kv.2
  end.

(** [injectData]: copy the entries of [input] that [c] does not have. *)
Definition injectData (c : loc) (input : option mref) : M unit :=
  m <~ readMap input ;;
  kvs <~ rangeMap m ;;
  forEach kvs (λ kv,
    self <~ getComp c ;;
    assignIfAbsent (templateData self) kv).

Definition injectGlobalData (c : loc) (input : option mref) : M unit :=
  self <~ getComp c ;;
  _ <~ match globalData self with
       | None => r <~ makeMap ;; modComp c (set_globalData r)
       | Some _ => ret tt
       end ;;
  m <~ readMap input ;;
  kvs <~ rangeMap m ;;
  forEach kvs (λ kv,
    self <~ getComp c ;;
    assignIfAbsent (globalData self) kv).

(** [addPartial]: [c.partial[key] = value]. *)
Definition addPartial (c : loc) (key : string) (value : HTML) : M unit :=
  self <~ getComp c ;;
  match partial self with
  | Some pm => modComp c (set_partial (Some (<[key := value]> pm)))
  | None => panic
  end.

(** [partials]: the [with] map; ranging over a nil map yields nothing. *)
Definition partials (self : Component) : gmap string loc :=
  default ∅ (with_ self).

End Ops.

(** ** The cache key *)

(** [sort.Strings] orders strings bytewise; [String.le] is that order. *)
Definition sort_Strings (l : list string) : list string := merge_sort String.le l.

(** [strings.Join]. *)
Fixpoint Join (elems : list string) (sep : string) : string :=
  match elems with
  | [] => ""
  | [x] => x
  | x :: rest => x +:+ sep +:+ Join rest sep
  end.

(** [hex.EncodeToString]: two lower-case digits per byte. *)
Definition hextable : string := "0123456789abcdef".
Definition hexDigit (n : N) : ascii :=
  default "0"%char (String.get (N.to_nat n) hextable).
Definition EncodeToString (src : list byte) : string :=
  foldr (λ b s, String (hexDigit (Byte.to_N b / 16))
                  (String (hexDigit (Byte.to_N b mod 16)) s)) "" src.

(** The template engine. [Funcs] tells whether [template.Funcs] accepts a
    function map; it panics on one it does not accept. *)
Class Engine `{Host} := {
  Funcs : gmap string Func → bool;
  ParseFS : string → gmap string Func → FS → list string → Template + HostError;
  Execute : Template → Envelope → string * option HostError
}.

Section Render.
Context `{Host} `{RangeOrder} `{!Engine}.

Definition generateCacheKey (templates : list string) (funcs : gmap string Func) : M string :=
  kvs <~ rangeMap funcs ;;
  let funcNames := foldl (λ names kv, (names ++ [kv.1])%list) [] kvs in
  let funcNames := sort_Strings funcNames in
  let hash := Sum256 (list_byte_of_string (Join funcNames ",")) in
  match templates with
  | t0 :: _ => ret (t0 +:+ ":" +:+ EncodeToString (vec_to_list hash))
  | [] => panic                    (* templates[0]: index out of range *)
  end.

(** [for key, value := range src { dst[key] = value }] *)
Definition copyInto {V} (src dst : gmap string V) : M (gmap string V) :=
  kvs <~ rangeMap src ;;
  ret (foldl (λ acc kv, <[kv.1 := kv.2]> acc) dst kvs).

(** The contents of a data map as the template sees them. *)
Definition snapshot (σ : State) (r : option mref) : option (gmap string Any) :=
  match r with
  | Some _ => Some (deref σ r)
  | None => None
  end.

(** [template.New(name).Funcs(functions).ParseFS(c.fs, templates...)]
    followed by [templateCache.Store]; [inr err] stands for
    [return "", err]. *)
Definition parseAndStore (c : loc) (name : string) (templates : list string)
    (funcMap : gmap string Func) (cacheKey : string) : M (CacheEntry + error) :=
  if Funcs funcMap then
    self <~ getComp c ;;
    match ParseFS name funcMap (fs self) templates with
    | inr err => ret (inr (ErrHost err))
    | inl t =>
        _ <~ modify (λ σ, set_templateCache
                            (<[cacheKey := CacheTemplate t]> (templateCache σ)) σ) ;;
        ret (inl (CacheTemplate t))
    end
  else panic.

(** The end of [renderNamed]: the data handed to the template, the type
    assertion on the cached value, and [Execute]. *)
Definition executeTemplate (ctx : Context) (c : loc) (input : option mref)
    (tmpl : CacheEntry) : M (HTML * option error) :=
  σ <~ get ;;
  self <~ getComp c ;;
  let data := mkEnvelope ctx (snapshot σ input) (snapshot σ (globalData self))
                (partial self) (url self) in
  match tmpl with
  | CacheTemplate t =>
      match Execute t data with
      | (_, Some err) => ret ("", Some (ErrHost err))
      | (buf, None) => ret (buf, None)
      end
  | CacheOther => ret ("", Some ErrNotTemplate)
  end.

Definition renderNamed (ctx : Context) (c : loc) (name : string)
    (templates : list string) (input : option mref) : M (HTML * option error) :=
  match templates with
  | [] => ret ("", None)
  | _ :: _ =>
    σ0 <~ get ;;
    funcMap <~ copyInto (DefaultTemplateFuncs σ0) ∅ ;;
    self <~ getComp c ;;
    funcMap <~ match functions self with
               | Some fm => copyInto fm funcMap
               | None => ret funcMap
               end ;;
    cacheKey <~ generateCacheKey templates funcMap ;;
    σ1 <~ get ;;
    tmpl <~ match templateCache σ1 !! cacheKey with
            | Some tmpl =>
                if UseTemplateCache σ1 then ret (inl tmpl)
                else parseAndStore c name templates funcMap cacheKey
            | None => parseAndStore c name templates funcMap cacheKey
            end ;;
    match tmpl with
    | inr err => ret ("", Some err)
    | inl tmpl => executeTemplate ctx c input tmpl
    end
  end.

(** The head of the body of the loop of [Render]: the local and the
    global data of [c] are injected into the partial [value]. *)
Definition injectInto (c : loc) (value : loc) : M unit :=
  self <~ getComp c ;;
  _ <~ injectData value (templateData self) ;;
  self <~ getComp c ;;
  injectGlobalData value (globalData self).

(** The body of the loop of [Render] over the partials, for the entry
    [kv] of [c.partials()]; [render] is the recursive call.  [Some err]
    stands for [return "", err]. *)
Definition renderPartial (render : loc → M (HTML * option error))
    (c : loc) (kv : string * loc) : M (option error) :=
  _ <~ injectInto c kv.2 ;;
  res <~ render kv.2 ;;
  match res.2 with
  | Some err => ret (Some err)
  | None => _ <~ addPartial c kv.1 res.1 ;; ret None
  end.

(** [Render].  [fuel] bounds the depth of the recursion through the
    partials. *)
Fixpoint Render (fuel : nat) (ctx : Context) (c : loc) {struct fuel}
    : M (HTML * option error) :=
  match fuel with
  | 0 => outOfFuel
  | S fuel' =>
    if Value ctx c then ret ("", Some ErrCircular)
    else
      let ctx := WithValue ctx c in
      self <~ getComp c ;;
      kids <~ rangeMap (partials self) ;;
      r <~ forEachRet kids (renderPartial (Render fuel' ctx) c) ;;
      match r with
      | Some err => ret ("", Some err)
      | None =>
          self <~ getComp c ;;
          match templates self with
          | [] => ret ("", Some ErrNoTemplates)
          | t0 :: _ => renderNamed ctx c (Base t0) (templates self) (templateData self)
          end
      end
  end.

(** ** The composition and data API *)

Definition NewComponent (ts : list string) : M loc :=
  td <~ makeMap ;;
  λ σ, let c := fresh (dom (comps σ)) in
       Ok c (set_comps (<[c := mkComponent td (Some ∅) (Some ∅) None None "" ts
                                 None (Some ∅) (DirFS "./")]> (comps σ)) σ).

(** The method [FS], which sets the file system of the templates. *)
Definition SetFS (c : loc) (fsys : FS) : M loc :=
  _ <~ modComp c (set_fs fsys) ;; ret c.

(** [Wrap]; the renderer may be nil. *)
Definition Wrap (c : loc) (renderer : option loc) (target : string) : M loc :=
  _ <~ modComp c (set_wrapped renderer target) ;; ret c.

(** [SetURL]; [fuel] bounds the depth of the recursion through the
    partials, which does not end when they form a cycle. *)
Fixpoint SetURL (fuel : nat) (c : loc) (u : option URL) {struct fuel} : M unit :=
  match fuel with
  | 0 => outOfFuel
  | S fuel' =>
      _ <~ modComp c (set_url u) ;;
      self <~ getComp c ;;
      kids <~ rangeMap (default ∅ (with_ self)) ;;
      forEach kids (λ kv, SetURL fuel' kv.2 u)
  end.

(** [With]; [fuel] is for its call of [SetURL]. *)
Definition With (fuel : nat) (c : loc) (r : loc) (target : string) : M loc :=
  self <~ getComp c ;;
  _ <~ match with_ self with
       | None => modComp c (set_with (Some ∅))
       | Some _ => ret tt
       end ;;
  self <~ getComp c ;;
  _ <~ match url self with
       | Some u => SetURL fuel r (Some u)
       | None => ret tt
       end ;;
  self <~ getComp c ;;
  match with_ self with
  | Some wm => _ <~ modComp c (set_with (Some (<[target := r]> wm))) ;; ret c
  | None => panic
  end.

Definition Attach (c : loc) (target : string) : M loc :=
  _ <~ modComp c (λ self, set_templates (templates self ++ [target])%list self) ;; ret c.

Definition AddTemplateFunction (c : loc) (name : string) (function : Func) : M loc :=
  _ <~ modComp c (λ self,
         set_functions (Some (<[name := function]> (default ∅ (functions self)))) self) ;;
  ret c.

Definition AddTemplateFunctions (c : loc) (funcs : gmap string Func) : M loc :=
  self <~ getComp c ;;
  fm <~ copyInto funcs (default ∅ (functions self)) ;;
  _ <~ modComp c (set_functions (Some fm)) ;;
  ret c.

Definition SetGlobalData (c : loc) (input : option mref) : M loc :=
  self <~ getComp c ;;
  _ <~ match globalData self with
       | None => r <~ makeMap ;; modComp c (set_globalData r)
       | Some _ => ret tt
       end ;;
  _ <~ modComp c (set_globalData input) ;;
  ret c.

Definition AddGlobalData (c : loc) (key : string) (value : Any) : M loc :=
  self <~ getComp c ;;
  _ <~ match globalData self with
       | None => r <~ makeMap ;; modComp c (set_globalData r)
       | Some _ => ret tt
       end ;;
  self <~ getComp c ;;
  _ <~ mapAssign (globalData self) key value ;;
  ret c.

Definition SetData (c : loc) (input : option mref) : M loc :=
  self <~ getComp c ;;
  _ <~ match templateData self with
       | None => r <~ makeMap ;; modComp c (set_templateData r)
       | Some _ => ret tt
       end ;;
  _ <~ modComp c (set_templateData input) ;;
  ret c.

Definition AddData (c : loc) (key : string) (value : Any) : M loc :=
  self <~ getComp c ;;
  _ <~ match templateData self with
       | None => r <~ makeMap ;; modComp c (set_templateData r)
       | Some _ => ret tt
       end ;;
  self <~ getComp c ;;
  _ <~ mapAssign (templateData self) key value ;;
  ret c.

(** The accessors [isWrapped], [wrapper], [target] and [data], on the
    component that the receiver points to. *)
Definition isWrapped (self : Component) : bool :=
  match wrappedRenderer self with
  | Some _ => true
  | None => false
  end.

Definition wrapper (self : Component) : option loc := wrappedRenderer self.

Definition target (self : Component) : string := wrappedTarget self.

Definition data (self : Component) : option mref := templateData self.

Definition Reset (c : loc) : M loc :=
  td <~ makeMap ;;
  _ <~ modComp c (set_templateData td) ;;
  gd <~ makeMap ;;
  _ <~ modComp c (set_globalData gd) ;;
  _ <~ modComp c (set_partial (Some ∅)) ;;
  _ <~ modComp c (set_with (Some ∅)) ;;
  _ <~ modComp c (set_url None) ;;
  ret c.

End Render.

(** ** The vocabulary of the statements *)

Section Vocabulary.
Context {host : Host} {order : RangeOrder} {engine : Engine}.

(** [comp_ext a b]: [b] is [a] but for the partial results and for a
    global-data map created where [a] had nil. *)
Record comp_ext (a b : Component) : Prop := {
  ce_templateData : templateData b = templateData a;
  ce_with : with_ b = with_ a;
  ce_templates : templates b = templates a;
  ce_url : url b = url a;
  ce_functions : functions b = functions a;
  ce_fs : fs b = fs a;
  ce_wrappedRenderer : wrappedRenderer b = wrappedRenderer a;
  ce_wrappedTarget : wrappedTarget b = wrappedTarget a;
  ce_globalData : ∀ r, globalData a = Some r → globalData b = Some r;
  ce_partial : is_Some (partial a) → is_Some (partial b)
}.

(** [ext σ σ']: [σ'] is [σ] after some steps of a render.  The same
    components are allocated, related by [comp_ext]; the data maps have
    only gained entries; the package variables but the cache are the
    same. *)
Record ext (σ σ' : State) : Prop := {
  ext_comps : ∀ c a, comps σ !! c = Some a → ∃ b, comps σ' !! c = Some b ∧ comp_ext a b;
  ext_nil : ∀ c, comps σ !! c = None → comps σ' !! c = None;
  ext_maps : ∀ r k v, deref σ (Some r) !! k = Some v → deref σ' (Some r) !! k = Some v;
  ext_funcs : DefaultTemplateFuncs σ' = DefaultTemplateFuncs σ;
  ext_use : UseTemplateCache σ' = UseTemplateCache σ
}.

(** [preserves m]: every return of [m] extends the state. *)
Definition preserves {A} (m : M A) : Prop := ∀ σ a σ', m σ = Ok a σ' → ext σ σ'.

(** Where an error that [Render] returns comes from: the check of the
    context, the render of a partial, the check of the template list, or
    [renderNamed] (parsing, the cached value, execution). *)
Inductive error_source (fuel : nat) (ctx : Context) (c : loc) (σ : State)
    (err : error) (σ' : State) : Prop :=
  | from_context :
      Value ctx c = true → err = ErrCircular → σ' = σ →
      error_source fuel ctx c σ err σ'
  | from_partial fuel' self pre kv rest σ1 σ2 h :
      fuel = S fuel' → Value ctx c = false → comps σ !! c = Some self →
      ord (seed σ) loc (partials self) = pre ++ kv :: rest →
      forEachRet pre (renderPartial (Render fuel' (WithValue ctx c)) c)
        (set_seed (S (seed σ)) σ) = Ok None σ1 →
      injectInto c kv.2 σ1 = Ok tt σ2 →
      Render fuel' (WithValue ctx c) kv.2 σ2 = Ok (h, Some err) σ' →
      error_source fuel ctx c σ err σ'
  | from_no_templates fuel' self self' :
      fuel = S fuel' → Value ctx c = false → comps σ !! c = Some self →
      forEachRet (ord (seed σ) loc (partials self))
        (renderPartial (Render fuel' (WithValue ctx c)) c)
        (set_seed (S (seed σ)) σ) = Ok None σ' →
      comps σ' !! c = Some self' → templates self' = [] →
      err = ErrNoTemplates →
      error_source fuel ctx c σ err σ'
  | from_renderNamed fuel' self self' σ1 t0 ts :
      fuel = S fuel' → Value ctx c = false → comps σ !! c = Some self →
      forEachRet (ord (seed σ) loc (partials self))
        (renderPartial (Render fuel' (WithValue ctx c)) c)
        (set_seed (S (seed σ)) σ) = Ok None σ1 →
      comps σ1 !! c = Some self' → templates self' = t0 :: ts →
      renderNamed (WithValue ctx c) c (Base t0) (t0 :: ts) (templateData self') σ1
        = Ok ("", Some err) σ' →
      error_source fuel ctx c σ err σ'.

(** The state after [assignIfAbsent] on the map at [r]. *)
Definition addEntry (r : mref) (σ : State) (kv : string * Any) : State :=
  match deref σ (Some r) !! kv.1 with
  | Some _ => σ
  | None => set_maps (<[r := <[kv.1 := kv.2]> (deref σ (Some r))]> (maps σ)) σ
  end.

(** [only_map r σ σ']: the two states differ at most in the map at [r]. *)
Record only_map (r : mref) (σ σ' : State) : Prop := {
  om_comps : comps σ' = comps σ;
  om_cache : templateCache σ' = templateCache σ;
  om_funcs : DefaultTemplateFuncs σ' = DefaultTemplateFuncs σ;
  om_use : UseTemplateCache σ' = UseTemplateCache σ;
  om_seed : seed σ' = seed σ;
  om_maps : ∀ r', r' ≠ r → maps σ' !! r' = maps σ !! r'
}.

(** [keeps R m]: every return of [m] relates the state before to the state
    after by [R]. *)
Definition keeps {A} (R : relation State) (m : M A) : Prop :=
  ∀ σ a σ', m σ = Ok a σ' → R σ σ'.

(** The components and the data maps are the same. *)
Definition same_heap (σ σ' : State) : Prop :=
  comps σ' = comps σ ∧ maps σ' = maps σ.

(** The components are the same. *)
Definition same_comps : relation State := λ σ σ', comps σ' = comps σ.

(** The component at [p] is the same. *)
Definition same_comp (p : loc) : relation State := λ σ σ', comps σ' !! p = comps σ !! p.

(** The partial results of [P] hold [h] under the slot [s]. *)
Definition has_slot (P : loc) (s : string) (h : HTML) (σ : State) : Prop :=
  ∃ self pm, comps σ !! P = Some self ∧ partial self = Some pm ∧ pm !! s = Some h.

(** A step that keeps what the slot [s] of [P] holds. *)
Definition slot_kept (P : loc) (s : string) (h : HTML) : relation State :=
  λ σ σ', has_slot P s h σ → has_slot P s h σ'.

(** [refines m1 m2]: wherever [m1] does not run out of fuel, [m2] does the
    same. *)
Definition refines {A} (m1 m2 : M A) : Prop :=
  ∀ σ, m1 σ = OutOfFuel ∨ m2 σ = m1 σ.

(** [enters (ctx, c, σ) (ctx', d, σ')]: the call [c.Render(ctx)] in state
    [σ] calls [d.Render(ctx')] in state [σ'].  That is, [c] is not marked
    in [ctx], [d] is one of its partials, the partials before [d] in the
    order of the loop rendered, the data of [c] was injected into [d], and
    [ctx'] is the context derived from [ctx] by marking [c]. *)
Inductive enters : Context * loc * State → Context * loc * State → Prop :=
  | enters_partial fuel ctx c σ self pre kv rest σ1 σ2 :
      Value ctx c = false →
      comps σ !! c = Some self →
      ord (seed σ) loc (partials self) = pre ++ kv :: rest →
      forEachRet pre (renderPartial (Render fuel (WithValue ctx c)) c)
        (set_seed (S (seed σ)) σ) = Ok None σ1 →
      injectInto c kv.2 σ1 = Ok tt σ2 →
      enters (ctx, c, σ) (WithValue ctx c, kv.2, σ2).

(** Every key of [m1] is a key of [m2]. *)
Definition keys_in (m1 m2 : gmap string Any) : Prop :=
  ∀ k, is_Some (m1 !! k) → is_Some (m2 !! k).

(** A component, and a state, with the two fields of [Wrap] blanked. *)
Definition unwrapped (a : Component) : Component := set_wrapped None "" a.

Definition unwrap (σ : State) : State := set_comps (unwrapped <$> comps σ) σ.

(** A result, with [f] applied to the state it carries. *)
Definition mapRes {A} (f : State → State) (r : Res A) : Res A :=
  match r with
  | Ok a σ => Ok a (f σ)
  | Panic => Panic
  | OutOfFuel => OutOfFuel
  end.

(** What a call did, apart from the state it left. *)
Inductive Outcome (A : Type) :=
  | Returns (a : A)
  | Panics
  | Unfinished.
Global Arguments Returns {A} a.
Global Arguments Panics {A}.
Global Arguments Unfinished {A}.

(** The outcome of a result. *)
Definition outcome {A} (r : Res A) : Outcome A :=
  match r with
  | Ok a _ => Returns a
  | Panic => Panics
  | OutOfFuel => Unfinished
  end.

(** [blind m]: [m] runs the same whatever the two fields hold. *)
Definition blind {A} (m : M A) : Prop :=
  ∀ σ, m (unwrap σ) = mapRes unwrap (m σ).

(** The digest of a set of function names, and the key built from it. *)
Definition namesDigest (names : gset string) : vec byte 32 :=
  Sum256 (list_byte_of_string (Join (sort_Strings (elements names)) ",")).

(** The key for a first template identifier and a set of names. *)
Definition keyOf (t0 : string) (names : gset string) : string :=
  t0 +:+ ":" +:+ EncodeToString (vec_to_list (namesDigest names)).

(** The value of a hexadecimal digit. *)
Definition hexValue (c : ascii) : N :=
  match String.index 0 (String c "") hextable with
  | Some n => N.of_nat n
  | None => 0
  end.

(** [d] is registered as a partial of [c]. *)
Definition child (σ : State) (c d : loc) : Prop :=
  ∃ self k, comps σ !! c = Some self ∧ partials self !! k = Some d.

(** The [url] field of the component at [c]. *)
Definition urlOf (σ : State) (c : loc) : option (option URL) := url <$> comps σ !! c.

(** The partials form no cycle and none is nil: every registered partial
    is allocated and has a smaller rank than its parent. *)
Definition ranked (σ : State) (rank : loc → nat) : Prop :=
  map_Forall (λ c self,
    map_Forall (λ _ d, is_Some (comps σ !! d) ∧ rank d < rank c) (partials self))
    (comps σ).

(** [ustep u σ σ']: the same components are allocated, with the same
    partials, and each [url] is as before or is [u]. *)
Definition ustep (u : option URL) (σ σ' : State) : Prop :=
  ∀ d, match comps σ !! d, comps σ' !! d with
       | Some a, Some b => with_ b = with_ a ∧ (url b = url a ∨ url b = u)
       | None, None => True
       | _, _ => False
       end.

(** [safe m]: [m] never hits the recursion bound of the model. *)
Definition safe {A} (m : M A) : Prop := ∀ σ, m σ ≠ OutOfFuel.

(** The state a computation leaves. *)
Definition stateAfter {A} (m : M A) (σ : State) : State :=
  match m σ with
  | Ok _ σ' => σ'
  | _ => σ
  end.

(** The function map that [renderNamed] builds for the component [self]:
    the package defaults, overridden by the functions of the component. *)
Definition effectiveFuncs (σ : State) (self : Component) : gmap string Func :=
  default ∅ (functions self) ∪ DefaultTemplateFuncs σ.

(** The cache key of the component [self] with the entry template [t0]. *)
Definition cacheKeyOf (σ : State) (self : Component) (t0 : string) : string :=
  keyOf t0 (dom (effectiveFuncs σ self)).

(** The state when [renderNamed] has computed the cache key: the loops
    over the function maps have advanced the iteration counter. *)
Definition afterKey (σ : State) (self : Component) : State :=
  set_seed (match functions self with
            | Some _ => S (S (S (seed σ)))
            | None => S (S (seed σ))
            end) σ.

(** The data that [renderNamed] hands to the template of [self]. *)
Definition envelopeOf (ctx : Context) (σ : State) (self : Component)
    (input : option mref) : Envelope :=
  mkEnvelope ctx (snapshot σ input) (snapshot σ (globalData self))
    (partial self) (url self).

(** What [renderNamed] returns for a cached value and the data: the type
    assertion, then [Execute], whose output is dropped on an error. *)
Definition executed (tmpl : CacheEntry) (data : Envelope) : HTML * option error :=
  match tmpl with
  | CacheTemplate t =>
      match Execute t data with
      | (_, Some err) => ("", Some (ErrHost err))
      | (buf, None) => (buf, None)
      end
  | CacheOther => ("", Some ErrNotTemplate)
  end.

(** [cache_grows σ σ']: the cache has kept its keys, and its values too
    when it is in use; the switch is the same. *)
Definition cache_grows : relation State := λ σ σ',
  UseTemplateCache σ' = UseTemplateCache σ ∧
  dom (templateCache σ) ⊆ dom (templateCache σ') ∧
  (UseTemplateCache σ = true → templateCache σ ⊆ templateCache σ').

End Vocabulary.

(** ** A small instance, to run the model on concrete component trees *)

Module Toy.

(** Data values are integers, a template is the list of its files, and
    executing one prints the entry file, the data under ["title"] and the
    partials.  A file named ["bad.html"] does not parse, and executing
    ["fail.html"] fails after some output was written. *)
#[export] Instance host : Host := {|
  Any := Z;
  Func := nat;
  URL := string;
  FS := unit;
  Template := list string;
  HostError := string;
  DirFS := λ _, tt;
  Base := λ s, s;
  Sum256 := λ bs, vreplicate 32 (default Byte.x00 (head bs))
|}.

#[export] Instance engine : Engine := {|
  Funcs := λ _, true;
  ParseFS := λ name fm fsys ts,
    if bool_decide ("bad.html" ∈ ts) then inr "parse error" else inl ts;
  Execute := λ t env,
    let out := foldr (λ kv acc, kv.2 +:+ acc) ""
                 (map_to_list (default ∅ (Partials env))) in
    if bool_decide (head t = Some "fail.html") then ("<partial", Some "execute error")
    else (default "" (head t) +:+ "[" +:+ out +:+ "]", None)
|}.

(** Two iteration orders: the order of the map's own enumeration, and
    its reverse. *)
#[export] Instance forward : RangeOrder := {|
  ord := λ _ V m, map_to_list m;
  ord_perm := λ _ V m, reflexivity (map_to_list m)
|}.

Definition backward : RangeOrder := {|
  ord := λ _ V m, reverse (map_to_list m);
  ord_perm := λ _ V m, reverse_Permutation (map_to_list m)
|}.

Definition σ0 : State := mkState ∅ ∅ ∅ ∅ true 0.

End Toy.

Module Scenes.
Import Toy.

(** A page [1] with the title 1 and a partial [2] under ["nav"]. *)
Definition page : State :=
  stateAfter (p <~ NewComponent ["page.html"] ;;
              c <~ NewComponent ["nav.html"] ;;
              _ <~ AddData p "title" 1%Z ;;
              With 1 p c "nav") Toy.σ0.

(** A component [1] registered as its own partial. *)
Definition selfRef : State :=
  stateAfter (p <~ NewComponent ["page.html"] ;; With 1 p p "self") Toy.σ0.

(** Two components, [1] and [2], each a partial of the other. *)
Definition mutual : State :=
  stateAfter (a <~ NewComponent ["a.html"] ;;
              b <~ NewComponent ["b.html"] ;;
              _ <~ With 1 a b "b" ;;
              With 1 b a "a") Toy.σ0.

(** A partial [1] with [{x: 1}] and a parent [2] with [{x: 2, y: 3}]. *)
Definition xy : State :=
  stateAfter (c <~ NewComponent ["c.html"] ;;
              p <~ NewComponent ["p.html"] ;;
              _ <~ AddData c "x" 1%Z ;;
              _ <~ AddData p "x" 2%Z ;;
              AddData p "y" 3%Z) Toy.σ0.

(** A component [1] without templates, with a partial [2]. *)
Definition bare : State :=
  stateAfter (p <~ NewComponent [] ;;
              c <~ NewComponent ["c.html"] ;;
              With 1 p c "s") Toy.σ0.

(** A component [1] whose template fails in [Execute]. *)
Definition failing : State :=
  stateAfter (NewComponent ["fail.html"]) Toy.σ0.

(** A parent [1] with [{k: 1}] and two partials: [2], which has no
    template, under ["a"], and [3] under ["b"]. *)
Definition twoPartials : State :=
  stateAfter (p <~ NewComponent ["p.html"] ;;
              a <~ NewComponent [] ;;
              b <~ NewComponent ["b.html"] ;;
              _ <~ AddData p "k" 1%Z ;;
              _ <~ With 1 p a "a" ;;
              With 1 p b "b") Toy.σ0.

(** A parent [1] with a partial [2], and a component [3] on its own. *)
Definition family : State :=
  stateAfter (p <~ NewComponent ["p.html"] ;;
              a <~ NewComponent ["a.html"] ;;
              c <~ NewComponent ["c.html"] ;;
              With 1 p a "a") Toy.σ0.

(** A page [1] with one component [2] under two slots. *)
Definition shared : State :=
  stateAfter (p <~ NewComponent ["page.html"] ;;
              c <~ NewComponent ["nav.html"] ;;
              _ <~ With 1 p c "top" ;;
              With 1 p c "bottom") Toy.σ0.

(** A request URL. *)
Definition home : @URL Toy.host := "/home".

(** The component at an address. *)
Definition at_ (σ : State) (c : loc) : Component :=
  default (mkComponent None None None None None "" [] None None tt) (comps σ !! c).

(** [mutual] when the render of [1] enters that of [2], and when that
    one enters the render of [1] again. *)
Definition mutualIn2 : State :=
  stateAfter (injectInto 1%positive 2%positive) (set_seed (S (seed mutual)) mutual).

Definition mutualIn1 : State :=
  stateAfter (injectInto 2%positive 1%positive) (set_seed (S (seed mutualIn2)) mutualIn2).

(** [family] after [SetURL] on the parent, and after the registration
    of [3] that follows. *)
Definition familyURL : State :=
  stateAfter (SetURL 2 1%positive (Some home)) family.

Definition familyWith : State :=
  stateAfter (With 2 1%positive 3%positive "c") familyURL.

(** [page] after a render of [1]: the cache holds its template. *)
Definition pageRendered : State :=
  stateAfter (Render 2 [] 1%positive) page.

(** A component [1] whose template does not parse. *)
Definition bad : State :=
  stateAfter (NewComponent ["bad.html"]) Toy.σ0.

(** A component [1] registered as its own partial, and a component [2]
    with a URL. *)
Definition loopAndRoot : State :=
  stateAfter (a <~ NewComponent ["a.html"] ;;
              _ <~ With 1 a a "self" ;;
              p <~ NewComponent ["p.html"] ;;
              SetURL 1 p (Some home)) Toy.σ0.

(** A compiled template, a parse error, a data value and a function of
    the toy engine. *)
Definition compiled (ts : list string) : @Template Toy.host := ts.
Definition parseError : @HostError Toy.host := "parse error".
Definition num (z : Z) : @Any Toy.host := z.
Definition fn (n : nat) : @Func Toy.host := n.

End Scenes.

(** ** Reasoning about computations *)

Section Facts.
Context {host : Host} {order : RangeOrder} {engine : Engine}.

Lemma bind_Ok {A B} (m : M A) (k : A → M B) σ b σ' :
  bind m k σ = Ok b σ' ↔ ∃ a σ1, m σ = Ok a σ1 ∧ k a σ1 = Ok b σ'.
Proof.
  unfold bind. split.
  - destruct (m σ) as [a σ1| |]; [|done..]. intros Hk. by exists a, σ1.
  - intros (a & σ1 & -> & Hk). done.
Qed.

Lemma bind_eq {A B} (m : M A) (k : A → M B) σ a σ1 :
  m σ = Ok a σ1 → bind m k σ = k a σ1.
Proof. unfold bind. by intros ->. Qed.

Lemma getComp_Ok c σ self σ' :
  getComp c σ = Ok self σ' ↔ comps σ !! c = Some self ∧ σ' = σ.
Proof.
  unfold getComp. destruct (comps σ !! c); split.
  - by intros [= -> ->].
  - by intros [[= ->] ->].
  - done.
  - by intros [? _].
Qed.

Lemma modComp_Ok c f σ u σ' :
  modComp c f σ = Ok u σ' ↔
  ∃ self, comps σ !! c = Some self ∧ σ' = set_comps (<[c := f self]> (comps σ)) σ.
Proof.
  unfold modComp. destruct (comps σ !! c) as [self|]; split.
  - intros [= _ <-]. by exists self.
  - intros (? & [= <-] & ->). by destruct u.
  - done.
  - by intros (? & ? & _).
Qed.

(** Loops. *)
Lemma forEachRet_app {A R} (l1 l2 : list A) (body : A → M (option R)) σ σ1 :
  forEachRet l1 body σ = Ok None σ1 →
  forEachRet (l1 ++ l2) body σ = forEachRet l2 body σ1.
Proof.
  revert σ. induction l1 as [|x l1 IH]; intros σ; simpl.
  - unfold ret. by intros [= ->].
  - intros (o & σ2 & Hx & Hk)%bind_Ok.
    rewrite (bind_eq _ _ _ _ _ Hx). destruct o; [done|]. by apply IH.
Qed.

Lemma forEachRet_Some {A R} (l : list A) (body : A → M (option R)) σ r σ' :
  forEachRet l body σ = Ok (Some r) σ' →
  ∃ pre x rest σ1,
    l = pre ++ x :: rest ∧
    forEachRet pre body σ = Ok None σ1 ∧
    body x σ1 = Ok (Some r) σ'.
Proof.
  revert σ. induction l as [|x l IH]; intros σ; simpl; [done|].
  intros (o & σ1 & Hx & Hk)%bind_Ok. destruct o as [r'|].
  - injection Hk as -> ->. by exists [], x, l, σ.
  - destruct (IH _ Hk) as (pre & y & rest & σ2 & -> & Hd & Hy).
    exists (x :: pre), y, rest, σ2. split_and!; [done| |done].
    simpl. by rewrite (bind_eq _ _ _ _ _ Hx).
Qed.

Lemma forEachRet_stop {A R} (l1 l2 : list A) x (body : A → M (option R)) σ σ1 r σ' :
  forEachRet l1 body σ = Ok None σ1 →
  body x σ1 = Ok (Some r) σ' →
  forEachRet (l1 ++ x :: l2) body σ = Ok (Some r) σ'.
Proof.
  intros H1 Hx. rewrite (forEachRet_app _ _ _ _ _ H1). simpl.
  by rewrite (bind_eq _ _ _ _ _ Hx).
Qed.

(** ** What a render leaves alone

    [ext σ σ'] holds when [σ'] is [σ] after some steps of a render: the
    same components are allocated, their fields are the same except for
    the partial results and a global-data map created on demand, and the
    data maps have only gained entries. *)

Lemma comp_ext_refl a : comp_ext a a.
Proof. by split. Qed.

Lemma comp_ext_trans a b c : comp_ext a b → comp_ext b c → comp_ext a c.
Proof.
  intros [] []. split; try congruence; auto.
Qed.

Global Instance ext_preorder : PreOrder ext.
Proof.
  split.
  - intros σ. split; eauto using comp_ext_refl.
  - intros σ1 σ2 σ3 [] []. split; try congruence; auto.
    intros c a Ha. destruct (ext_comps0 _ _ Ha) as (b & Hb & Hab).
    destruct (ext_comps1 _ _ Hb) as (d & Hd & Hbd).
    eauto using comp_ext_trans.
Qed.

Lemma preserves_ret {A} (a : A) : preserves (ret a).
Proof. intros σ b σ' [= _ ->]. reflexivity. Qed.

Lemma preserves_bind {A B} (m : M A) (k : A → M B) :
  preserves m → (∀ a, preserves (k a)) → preserves (bind m k).
Proof.
  intros Hm Hk σ b σ' (a & σ1 & H1 & H2)%bind_Ok.
  etrans; [by eapply Hm | by eapply Hk].
Qed.

Lemma preserves_forEach {A} (l : list A) (body : A → M unit) :
  (∀ x, preserves (body x)) → preserves (forEach l body).
Proof.
  intros Hb. induction l; simpl; auto using preserves_ret, preserves_bind.
Qed.

Lemma preserves_forEachRet {A R} (l : list A) (body : A → M (option R)) :
  (∀ x, preserves (body x)) → preserves (forEachRet l body).
Proof.
  intros Hb. induction l; simpl; [apply preserves_ret|].
  apply preserves_bind; [done|]. intros [r|]; [apply preserves_ret|done].
Qed.

Lemma preserves_getComp c : preserves (getComp c).
Proof. intros σ a σ' [_ ->]%getComp_Ok. reflexivity. Qed.

Lemma preserves_get : preserves get.
Proof. intros σ a σ' [= _ ->]. reflexivity. Qed.

Lemma preserves_readMap r : preserves (readMap r).
Proof. intros σ a σ' [= _ ->]. reflexivity. Qed.

Lemma preserves_rangeMap {V} (m : gmap string V) : preserves (rangeMap m).
Proof. intros σ a σ' [= _ <-]. split; eauto using comp_ext_refl. Qed.

Lemma ext_modComp c f σ u σ' :
  (∀ a, comps σ !! c = Some a → comp_ext a (f a)) →
  modComp c f σ = Ok u σ' → ext σ σ'.
Proof.
  intros Hf (self & Hc & ->)%modComp_Ok. split; simpl; try done.
  - intros d a Ha. destruct (decide (c = d)) as [->|Hne].
    + rewrite lookup_insert_eq. simplify_eq. eauto.
    + rewrite lookup_insert_ne by done. eauto using comp_ext_refl.
  - intros d Hd. rewrite lookup_insert_ne; [done|]. congruence.
Qed.

Lemma deref_fresh σ : deref σ (Some (fresh (dom (maps σ)))) = ∅.
Proof.
  simpl. rewrite (not_elem_of_dom_1 (maps σ)); [done|]. apply is_fresh.
Qed.

Lemma preserves_makeMap : preserves makeMap.
Proof.
  intros σ a σ' [= _ <-]. split; simpl; eauto using comp_ext_refl.
  intros r k v. destruct (decide (fresh (dom (maps σ)) = r)) as [<-|Hne].
  - pose proof (deref_fresh σ) as Hf. simpl in Hf. rewrite Hf. done.
  - by rewrite lookup_insert_ne.
Qed.

(** An assignment to a key the map does not have yet. *)
Lemma preserves_mapAssign_new r k v σ u σ' :
  deref σ r !! k = None → mapAssign r k v σ = Ok u σ' → ext σ σ'.
Proof.
  destruct r as [a|]; [|done]. intros Hk [= _ <-].
  split; simpl; eauto using comp_ext_refl.
  intros r k' v'. destruct (decide (a = r)) as [<-|Hne].
  - rewrite lookup_insert_eq. simpl. intros Hk'.
    rewrite lookup_insert_ne; [done|]. simpl in Hk. congruence.
  - by rewrite lookup_insert_ne.
Qed.

Lemma preserves_assignIfAbsent r kv : preserves (assignIfAbsent r kv).
Proof.
  intros σ u σ' (cur & σ1 & [= <- <-] & Hk)%bind_Ok.
  destruct (deref σ r !! kv.1) eqn:E.
  - by apply preserves_ret in Hk.
  - by eapply preserves_mapAssign_new.
Qed.

Lemma preserves_injectData c input : preserves (injectData c input).
Proof.
  unfold injectData. apply preserves_bind; [apply preserves_readMap|]. intros m.
  apply preserves_bind; [apply preserves_rangeMap|]. intros kvs.
  apply preserves_forEach. intros kv.
  apply preserves_bind; [apply preserves_getComp|]. intros self.
  apply preserves_assignIfAbsent.
Qed.

Lemma comp_ext_set_globalData a r :
  globalData a = None → comp_ext a (set_globalData r a).
Proof. intros Hg. split; simpl; try done. congruence. Qed.

Lemma preserves_injectGlobalData c input : preserves (injectGlobalData c input).
Proof.
  unfold injectGlobalData.
  intros σ u σ' (self & σ1 & [Hc ->]%getComp_Ok & (u1 & σ2 & H1 & H2)%bind_Ok)%bind_Ok.
  assert (ext σ σ2) as Hext.
  { destruct (globalData self) eqn:Hg; [by apply preserves_ret in H1|].
    apply bind_Ok in H1 as (r & σ3 & Hr & Hm).
    etrans; [by eapply preserves_makeMap|].
    eapply ext_modComp; [|exact Hm].
    intros a Ha. apply comp_ext_set_globalData.
    injection Hr as _ <-. simpl in Ha. congruence. }
  etrans; [done|]. revert H2. generalize σ2 u σ'.
  apply preserves_bind; [apply preserves_readMap|]. intros m.
  apply preserves_bind; [apply preserves_rangeMap|]. intros kvs.
  apply preserves_forEach. intros kv.
  apply preserves_bind; [apply preserves_getComp|]. intros self2.
  apply preserves_assignIfAbsent.
Qed.

Lemma preserves_addPartial c key value : preserves (addPartial c key value).
Proof.
  unfold addPartial.
  intros σ u σ' (self & σ1 & [Hc ->]%getComp_Ok & Hk)%bind_Ok.
  destruct (partial self) as [pm|] eqn:Hp; [|done].
  eapply ext_modComp; [|exact Hk]. intros a _. by split.
Qed.

Lemma preserves_injectInto c value : preserves (injectInto c value).
Proof.
  unfold injectInto.
  apply preserves_bind; [apply preserves_getComp|]. intros self.
  apply preserves_bind; [apply preserves_injectData|]. intros _.
  apply preserves_bind; [apply preserves_getComp|]. intros self'.
  apply preserves_injectGlobalData.
Qed.

Lemma preserves_renderPartial render c kv :
  (∀ d, preserves (render d)) → preserves (renderPartial render c kv).
Proof.
  intros Hr. unfold renderPartial.
  apply preserves_bind; [apply preserves_injectInto|]. intros _.
  apply preserves_bind; [apply Hr|]. intros [h [err|]]; simpl.
  - apply preserves_ret.
  - apply preserves_bind; [apply preserves_addPartial|]. intros _. apply preserves_ret.
Qed.

Lemma preserves_copyInto {V} (src dst : gmap string V) : preserves (copyInto src dst).
Proof.
  unfold copyInto. apply preserves_bind; [apply preserves_rangeMap|].
  intros kvs. apply preserves_ret.
Qed.

Lemma preserves_generateCacheKey ts funcs : preserves (generateCacheKey ts funcs).
Proof.
  unfold generateCacheKey. apply preserves_bind; [apply preserves_rangeMap|].
  intros kvs. destruct ts; [done|apply preserves_ret].
Qed.

Lemma preserves_executeTemplate ctx c input tmpl :
  preserves (executeTemplate ctx c input tmpl).
Proof.
  unfold executeTemplate.
  apply preserves_bind; [apply preserves_get|]. intros σ2.
  apply preserves_bind; [apply preserves_getComp|]. intros self.
  destruct tmpl as [t|]; [|apply preserves_ret].
  destruct (Execute t _) as [buf [err|]]; apply preserves_ret.
Qed.

Lemma preserves_parseAndStore c name ts fm key :
  preserves (parseAndStore c name ts fm key).
Proof.
  unfold parseAndStore. destruct (Funcs fm); [|done].
  apply preserves_bind; [apply preserves_getComp|]. intros self.
  destruct (ParseFS _ _ _ _) as [t|err]; [|apply preserves_ret].
  apply preserves_bind; [|intros _; apply preserves_ret].
  intros σ u σ' [= _ <-]. split; simpl; eauto using comp_ext_refl.
Qed.

Lemma preserves_renderNamed ctx c name ts input :
  preserves (renderNamed ctx c name ts input).
Proof.
  unfold renderNamed. destruct ts as [|t0 ts]; [apply preserves_ret|].
  apply preserves_bind; [apply preserves_get|]. intros σ0.
  apply preserves_bind; [apply preserves_copyInto|]. intros fm0.
  apply preserves_bind; [apply preserves_getComp|]. intros self.
  apply preserves_bind.
  { destruct (functions self); [apply preserves_copyInto|apply preserves_ret]. }
  intros fm.
  apply preserves_bind; [apply preserves_generateCacheKey|]. intros key.
  apply preserves_bind; [apply preserves_get|]. intros σ1.
  apply preserves_bind.
  { destruct (templateCache σ1 !! key) as [tmpl|]; [|apply preserves_parseAndStore].
    destruct (UseTemplateCache σ1); [apply preserves_ret|apply preserves_parseAndStore]. }
  intros [tmpl|err]; [apply preserves_executeTemplate|apply preserves_ret].
Qed.

Theorem preserves_Render fuel ctx c : preserves (Render fuel ctx c).
Proof.
  revert ctx c. induction fuel as [|fuel IH]; intros ctx c; simpl; [done|].
  destruct (Value ctx c); [apply preserves_ret|].
  apply preserves_bind; [apply preserves_getComp|]. intros self.
  apply preserves_bind; [apply preserves_rangeMap|]. intros kids.
  apply preserves_bind.
  { apply preserves_forEachRet. intros kv. apply preserves_renderPartial. intros d. apply IH. }
  intros [err|]; [apply preserves_ret|].
  apply preserves_bind; [apply preserves_getComp|]. intros self'.
  destruct (templates self'); [apply preserves_ret|apply preserves_renderNamed].
Qed.

(** ** Errors of [Render] *)

Lemma executeTemplate_error ctx c input tmpl σ h err σ' :
  executeTemplate ctx c input tmpl σ = Ok (h, Some err) σ' → h = "".
Proof.
  unfold executeTemplate.
  intros (σ2 & ? & _ & (self & ? & _ & Hk)%bind_Ok)%bind_Ok. revert Hk.
  destruct tmpl as [t|]; [|by intros [= <- _ _]].
  destruct (Execute t _) as [buf [e|]]; by intros [= <- _ _].
Qed.

Lemma renderNamed_error ctx c name ts input σ h err σ' :
  renderNamed ctx c name ts input σ = Ok (h, Some err) σ' → h = "".
Proof.
  unfold renderNamed. destruct ts as [|t0 ts]; [done|].
  intros (? & ? & _ & (? & ? & _ & (? & ? & _ & (? & ? & _ & (? & ? & _ &
    (? & ? & _ & (tmpl & ? & _ & Hk)%bind_Ok)%bind_Ok)%bind_Ok)%bind_Ok)%bind_Ok)%bind_Ok)%bind_Ok.
  destruct tmpl as [tmpl|e].
  - by eapply executeTemplate_error.
  - by injection Hk as <- _ _.
Qed.

Lemma renderPartial_Some render c kv σ err σ' :
  renderPartial render c kv σ = Ok (Some err) σ' →
  ∃ σ2 h, injectInto c kv.2 σ = Ok tt σ2 ∧ render kv.2 σ2 = Ok (h, Some err) σ'.
Proof.
  unfold renderPartial.
  intros ([] & σ2 & Hi & ([h [e|]] & σ3 & Hr & Hk)%bind_Ok)%bind_Ok; simpl in Hk.
  - injection Hk as -> ->. eauto.
  - apply bind_Ok in Hk as (? & ? & _ & [=]).
Qed.

(** The error of a partial is returned as it is, with no markup, and
    nothing runs after it. *)
Lemma Render_partial_error fuel ctx c σ self pre kv rest σ1 σ2 h err σ' :
  Value ctx c = false → comps σ !! c = Some self →
  ord (seed σ) loc (partials self) = pre ++ kv :: rest →
  forEachRet pre (renderPartial (Render fuel (WithValue ctx c)) c)
    (set_seed (S (seed σ)) σ) = Ok None σ1 →
  injectInto c kv.2 σ1 = Ok tt σ2 →
  Render fuel (WithValue ctx c) kv.2 σ2 = Ok (h, Some err) σ' →
  Render (S fuel) ctx c σ = Ok ("", Some err) σ'.
Proof.
  intros Hv Hc Hkids Hpre Hinj Hr. simpl. rewrite Hv.
  rewrite (bind_eq _ _ σ self σ) by (by apply getComp_Ok).
  rewrite (bind_eq _ _ σ (pre ++ kv :: rest) (set_seed (S (seed σ)) σ))
    by (unfold rangeMap; by rewrite Hkids).
  rewrite (bind_eq _ _ _ (Some err) σ'); [done|].
  eapply forEachRet_stop; [done|].
  unfold renderPartial. rewrite (bind_eq _ _ _ _ _ Hinj), (bind_eq _ _ _ _ _ Hr). done.
Qed.

(** C7: [Render] has no partial success.  If it returns an error, the
    markup it returns is empty, and the error is the first one met: that
    of the context check, or that of the first partial whose render
    fails (returned as it is, with nothing run after it), or, when all
    partials rendered, that of the template-list check or of
    [renderNamed]. *)
Theorem Render_error_no_markup fuel ctx c σ h err σ' :
  Render fuel ctx c σ = Ok (h, Some err) σ' →
  h = "" ∧ error_source fuel ctx c σ err σ'.
Proof.
  destruct fuel as [|fuel]; [done|]. simpl.
  destruct (Value ctx c) eqn:Hv.
  { intros [= <- <- <-]. split; [done|]. by apply from_context. }
  intros (self & ? & [Hc ->]%getComp_Ok & (kids & σk & Hkids &
    (r & σ1 & Hloop & Hk)%bind_Ok)%bind_Ok)%bind_Ok.
  injection Hkids as <- <-.
  destruct r as [e|].
  - injection Hk as <- <- <-. split; [done|].
    apply forEachRet_Some in Hloop as (pre & kv & rest & σ2 & Hl & Hpre & Hkv).
    apply renderPartial_Some in Hkv as (σ3 & h' & Hinj & Hr).
    by eapply from_partial.
  - apply bind_Ok in Hk as (self' & ? & [Hc' ->]%getComp_Ok & Hk).
    destruct (templates self') as [|t0 ts] eqn:Hts.
    + injection Hk as <- <- <-. split; [done|]. by eapply from_no_templates.
    + pose proof (renderNamed_error _ _ _ _ _ _ _ _ _ Hk) as ->.
      split; [done|]. by eapply from_renderNamed.
Qed.

(** C6: a component that is not in the context, whose partials all render
    and that has no template, gets the no-templates error and no markup. *)
Theorem Render_no_templates fuel ctx c σ self σ1 :
  Value ctx c = false →
  comps σ !! c = Some self →
  templates self = [] →
  forEachRet (ord (seed σ) loc (partials self))
    (renderPartial (Render fuel (WithValue ctx c)) c)
    (set_seed (S (seed σ)) σ) = Ok None σ1 →
  Render (S fuel) ctx c σ = Ok ("", Some ErrNoTemplates) σ1.
Proof.
  intros Hv Hc Hts Hloop. simpl. rewrite Hv.
  rewrite (bind_eq _ _ σ self σ) by (by apply getComp_Ok).
  rewrite (bind_eq _ _ σ (ord (seed σ) loc (partials self)) (set_seed (S (seed σ)) σ))
    by done.
  rewrite (bind_eq _ _ _ _ _ Hloop).
  assert (ext σ σ1) as Hext.
  { etrans; [by eapply (preserves_rangeMap (partials self))|].
    revert Hloop. apply preserves_forEachRet. intros kv.
    apply preserves_renderPartial. intros d. apply preserves_Render. }
  destruct (ext_comps _ _ Hext _ _ Hc) as (self' & Hc' & Hce).
  rewrite (bind_eq _ _ σ1 self' σ1) by (by apply getComp_Ok).
  by rewrite (ce_templates _ _ Hce), Hts.
Qed.

(** ** Injection of the parent's data *)

Lemma assignIfAbsent_Some r kv σ :
  assignIfAbsent (Some r) kv σ = Ok tt (addEntry r σ kv).
Proof.
  unfold assignIfAbsent, addEntry, bind, readMap.
  by destruct (deref σ (Some r) !! kv.1).
Qed.

Lemma only_map_refl r σ : only_map r σ σ.
Proof. by split. Qed.

Lemma only_map_trans r σ1 σ2 σ3 : only_map r σ1 σ2 → only_map r σ2 σ3 → only_map r σ1 σ3.
Proof.
  intros [] []. split; try congruence. intros r' Hr'. rewrite om_maps1, om_maps0; done.
Qed.

Lemma addEntry_only_map r σ kv : only_map r σ (addEntry r σ kv).
Proof.
  unfold addEntry. destruct (deref σ (Some r) !! kv.1); [apply only_map_refl|].
  split; simpl; try done. intros r' Hr'. by rewrite lookup_insert_ne.
Qed.

Lemma addEntry_deref r σ kv :
  deref (addEntry r σ kv) (Some r) = deref σ (Some r) ∪ {[kv.1 := kv.2]}.
Proof.
  unfold addEntry. destruct (deref σ (Some r) !! kv.1) as [v|] eqn:E.
  - apply map_eq. intros i. rewrite lookup_union.
    destruct (decide (kv.1 = i)) as [<-|Hne].
    + rewrite E, lookup_singleton_eq. done.
    + rewrite lookup_singleton_ne by done. by destruct (deref σ (Some r) !! i).
  - cbn [deref maps set_maps]. rewrite lookup_insert_eq. cbn [default from_option id].
    apply map_eq. intros i. rewrite lookup_union.
    destruct (decide (kv.1 = i)) as [<-|Hne].
    + rewrite lookup_insert_eq. cbn [deref] in E. rewrite E, lookup_singleton_eq. done.
    + rewrite lookup_insert_ne, lookup_singleton_ne by done.
      by destruct (default ∅ (maps σ !! r) !! i).
Qed.

Lemma addEntries_only_map r kvs σ : only_map r σ (foldl (addEntry r) σ kvs).
Proof.
  revert σ. induction kvs as [|kv kvs IH]; intros σ; simpl; [apply only_map_refl|].
  eapply only_map_trans; [apply addEntry_only_map|apply IH].
Qed.

Lemma addEntries_deref r kvs σ :
  deref (foldl (addEntry r) σ kvs) (Some r) = deref σ (Some r) ∪ list_to_map kvs.
Proof.
  revert σ. induction kvs as [|kv kvs IH]; intros σ; cbn [foldl list_to_map foldr].
  - by rewrite (right_id_L ∅ (∪)).
  - rewrite IH, addEntry_deref, <-(assoc_L (∪)). f_equal.
    by rewrite insert_union_singleton_l.
Qed.

Lemma inject_loop (f : Component → option mref) c self r kvs σ :
  comps σ !! c = Some self → f self = Some r →
  forEach kvs (λ kv, self <~ getComp c ;; assignIfAbsent (f self) kv) σ
    = Ok tt (foldl (addEntry r) σ kvs).
Proof.
  intros Hc Hr. revert σ Hc. induction kvs as [|kv kvs IH]; intros σ Hc; simpl; [done|].
  rewrite (bind_eq _ _ σ tt (addEntry r σ kv)).
  - apply IH. by rewrite (om_comps _ _ _ (addEntry_only_map r σ kv)).
  - rewrite (bind_eq _ _ σ self σ) by (by apply getComp_Ok).
    rewrite Hr. apply assignIfAbsent_Some.
Qed.

Lemma ord_to_map {V} n (m : gmap string V) : list_to_map (ord n V m) = m.
Proof.
  rewrite <-(list_to_map_to_list m) at 2.
  apply list_to_map_proper; [|apply ord_perm].
  rewrite (ord_perm n V m). apply NoDup_fst_map_to_list.
Qed.

(** The effect of [injectData] on a component whose map is not nil. *)
Lemma injectData_spec c child r input σ :
  comps σ !! c = Some child → templateData child = Some r →
  ∃ σ', injectData c input σ = Ok tt σ' ∧
        comps σ' = comps σ ∧
        (∀ r', r' ≠ r → maps σ' !! r' = maps σ !! r') ∧
        deref σ' (Some r) = deref σ (Some r) ∪ deref σ input.
Proof.
  intros Hc Hr. unfold injectData.
  set (σ1 := set_seed (S (seed σ)) σ).
  set (kvs := ord (seed σ) Any (deref σ input)).
  exists (foldl (addEntry r) σ1 kvs). split_and!.
  - rewrite (bind_eq _ _ σ (deref σ input) σ) by done.
    rewrite (bind_eq _ _ σ kvs σ1) by done.
    by apply (inject_loop templateData c child).
  - by rewrite (om_comps _ _ _ (addEntries_only_map r kvs σ1)).
  - intros r' Hr'. by rewrite (om_maps _ _ _ (addEntries_only_map r kvs σ1)).
  - rewrite addEntries_deref. unfold kvs. by rewrite ord_to_map.
Qed.

(** [injectData] into a component whose map is nil panics as soon as there
    is an entry to copy. *)
Lemma injectData_nil_panics c child input σ :
  comps σ !! c = Some child → templateData child = None →
  deref σ input ≠ ∅ →
  injectData c input σ = Panic.
Proof.
  intros Hc Hr Hne. unfold injectData.
  rewrite (bind_eq _ _ σ (deref σ input) σ) by done.
  rewrite (bind_eq _ _ σ (ord (seed σ) Any (deref σ input)) (set_seed (S (seed σ)) σ)) by done.
  destruct (ord (seed σ) Any (deref σ input)) as [|kv kvs] eqn:Hkvs.
  - destruct Hne. by rewrite <-(ord_to_map (seed σ) (deref σ input)), Hkvs.
  - simpl. unfold bind at 1.
    rewrite (bind_eq _ _ _ child (set_seed (S (seed σ)) σ)) by (by apply getComp_Ok).
    rewrite Hr. done.
Qed.

Lemma deref_after_makeMap σ input :
  let a := fresh (dom (maps σ)) in
  default ∅ (<[a := ∅]> (maps σ) !! a) = ∅ ∧
  match input with
  | Some r => default ∅ (<[a := ∅]> (maps σ) !! r)
  | None => ∅
  end = deref σ input.
Proof.
  intros a. split; [by rewrite lookup_insert_eq|].
  destruct input as [r|]; [|done]. cbn [deref].
  destruct (decide (a = r)) as [<-|Hne].
  - rewrite lookup_insert_eq. exact (eq_sym (deref_fresh σ)).
  - by rewrite lookup_insert_ne.
Qed.

(** The effect of [injectGlobalData]: the map is created when it is nil. *)
Lemma injectGlobalData_spec c child input σ :
  comps σ !! c = Some child →
  ∃ σ' child', injectGlobalData c input σ = Ok tt σ' ∧
        comps σ' !! c = Some child' ∧
        (∀ d, d ≠ c → comps σ' !! d = comps σ !! d) ∧
        is_Some (globalData child') ∧
        (∀ r, globalData child = Some r → child' = child) ∧
        partial child' = partial child ∧
        deref σ' (globalData child') = deref σ (globalData child) ∪ deref σ input.
Proof.
  intros Hc. unfold injectGlobalData.
  rewrite (bind_eq _ _ σ child σ) by (by apply getComp_Ok).
  destruct (globalData child) as [r|] eqn:Hg.
  - set (σ1 := set_seed (S (seed σ)) σ).
    set (kvs := ord (seed σ) Any (deref σ input)).
    exists (foldl (addEntry r) σ1 kvs), child.
    pose proof (addEntries_only_map r kvs σ1) as Hom.
    split_and!.
    + rewrite (bind_eq _ _ σ tt σ) by done.
      rewrite (bind_eq _ _ σ (deref σ input) σ) by done.
      rewrite (bind_eq _ _ σ kvs σ1) by done.
      by apply (inject_loop globalData c child).
    + by rewrite (om_comps _ _ _ Hom).
    + intros d _. by rewrite (om_comps _ _ _ Hom).
    + by rewrite Hg.
    + done.
    + done.
    + rewrite Hg, addEntries_deref. unfold kvs. by rewrite ord_to_map.
  - set (a := fresh (dom (maps σ))).
    set (child' := set_globalData (Some a) child).
    set (σa := set_maps (<[a := ∅]> (maps σ)) σ).
    set (σb := set_comps (<[c := child']> (comps σ)) σa).
    set (σ1 := set_seed (S (seed σb)) σb).
    set (kvs := ord (seed σb) Any (deref σb input)).
    destruct (deref_after_makeMap σ input) as [Ha Hin].
    assert (deref σb input = deref σ input) as Hin' by (by destruct input).
    exists (foldl (addEntry a) σ1 kvs), child'.
    pose proof (addEntries_only_map a kvs σ1) as Hom.
    assert (comps σ1 !! c = Some child') as Hc1 by apply lookup_insert_eq.
    split_and!.
    + rewrite (bind_eq _ _ σ tt σb).
      2:{ rewrite (bind_eq _ _ σ (Some a) σa) by done.
          unfold modComp. cbn [comps σa set_maps]. by rewrite Hc. }
      rewrite (bind_eq _ _ σb (deref σb input) σb) by done.
      rewrite (bind_eq _ _ σb kvs σ1) by done.
      by apply (inject_loop globalData c child').
    + by rewrite (om_comps _ _ _ Hom).
    + intros d Hd. rewrite (om_comps _ _ _ Hom). by apply lookup_insert_ne.
    + by eexists.
    + done.
    + done.
    + cbn [child' set_globalData globalData].
      rewrite addEntries_deref. unfold kvs. rewrite ord_to_map, Hin'.
      f_equal. exact Ha.
Qed.

Lemma ord_empty {V} n : ord n V (∅ : gmap string V) = [].
Proof. apply Permutation_nil_r. by rewrite (ord_perm n V ∅), map_to_list_empty. Qed.

(** C2: injection is first-writer-wins.  Injecting a map [input] into a
    component keeps every entry that the map of the component already
    has, and adds the entries of [input] under the other keys, for the
    local data and for the global data alike.  (The local injection has
    one more outcome: into a nil map, it panics when there is an entry to
    copy.)  With [{x: v1}] in the component and [{x: v2, y: v3}] injected,
    the component ends with [{x: v1, y: v3}]. *)
Theorem injection_first_writer_wins c child input σ :
  comps σ !! c = Some child →
  ((templateData child = None ∧ deref σ input ≠ ∅ ∧ injectData c input σ = Panic) ∨
   ∃ σ', injectData c input σ = Ok tt σ' ∧
         comps σ' !! c = Some child ∧
         (∀ k v, deref σ (templateData child) !! k = Some v →
                 deref σ' (templateData child) !! k = Some v) ∧
         (∀ k, deref σ (templateData child) !! k = None →
               deref σ' (templateData child) !! k = deref σ input !! k) ∧
         (∀ v1 v2 v3,
            deref σ (templateData child) = {["x" := v1]} →
            deref σ input = {["x" := v2; "y" := v3]} →
            deref σ' (templateData child) = {["x" := v1; "y" := v3]})) ∧
  (∃ σ' child', injectGlobalData c input σ = Ok tt σ' ∧
         comps σ' !! c = Some child' ∧
         (∀ k v, deref σ (globalData child) !! k = Some v →
                 deref σ' (globalData child') !! k = Some v) ∧
         (∀ k, deref σ (globalData child) !! k = None →
               deref σ' (globalData child') !! k = deref σ input !! k)).
Proof.
  intros Hc. split.
  - destruct (templateData child) as [r|] eqn:Hr.
    + right.
      destruct (injectData_spec c child r input σ Hc Hr) as (σ' & Hrun & Hcs & _ & Hd).
      exists σ'. split_and!; [done|by rewrite Hcs|..].
      * intros k v Hk. rewrite Hd. by apply lookup_union_Some_l.
      * intros k Hk. rewrite Hd, lookup_union, Hk. by destruct (deref σ input !! k).
      * intros v1 v2 v3 Hb Hi. rewrite Hd, Hb, Hi.
        apply map_eq. intros k. rewrite lookup_union.
        destruct (decide (k = "x")) as [->|Hx]; [done|].
        destruct (decide (k = "y")) as [->|Hy]; [done|].
        by rewrite !lookup_insert_ne, !lookup_singleton_ne by done.
    + destruct (decide (deref σ input = ∅)) as [He|Hne].
      * right. exists (set_seed (S (seed σ)) σ). split_and!; [|done..| |].
        -- unfold injectData.
           rewrite (bind_eq _ _ σ (deref σ input) σ) by done.
           rewrite (bind_eq _ _ σ (ord (seed σ) Any (deref σ input))
                      (set_seed (S (seed σ)) σ)) by done.
           by rewrite He, ord_empty.
        -- intros k _. by rewrite He.
        -- intros v1 v2 v3 Hb. by apply (f_equal (λ m, m !! "x")) in Hb.
      * left. split_and!; [done..|]. by apply (injectData_nil_panics c child).
  - destruct (injectGlobalData_spec c child input σ Hc)
      as (σ' & child' & Hrun & Hc' & _ & _ & _ & _ & Hd).
    exists σ', child'. split_and!; [done|done|..].
    + intros k v Hk. rewrite Hd. by apply lookup_union_Some_l.
    + intros k Hk. rewrite Hd, lookup_union, Hk. by destruct (deref σ input !! k).
Qed.

(** ** What a successful render leaves alone *)

Section keeps.
Context (R : relation State) `{!PreOrder R}.

Lemma keeps_ret {A} (a : A) : keeps R (ret a).
Proof. intros σ b σ' [= _ ->]. reflexivity. Qed.

Lemma keeps_bind {A B} (m : M A) (k : A → M B) :
  keeps R m → (∀ a, keeps R (k a)) → keeps R (bind m k).
Proof.
  intros Hm Hk σ b σ' (a & σ1 & H1 & H2)%bind_Ok.
  etrans; [by eapply Hm | by eapply Hk].
Qed.

Lemma keeps_getComp c : keeps R (getComp c).
Proof. intros σ a σ' [_ ->]%getComp_Ok. reflexivity. Qed.

Lemma keeps_get : keeps R get.
Proof. intros σ a σ' [= _ ->]. reflexivity. Qed.

Lemma keeps_forEach {A} (l : list A) (body : A → M unit) :
  (∀ x, keeps R (body x)) → keeps R (forEach l body).
Proof.
  intros Hb. induction l; simpl; auto using keeps_ret, keeps_bind.
Qed.

(** A loop that ran to its end. *)
Lemma forEachRet_None_keeps {A E} (l : list A) (body : A → M (option E)) σ σ' :
  (∀ x σ1 σ2, x ∈ l → body x σ1 = Ok None σ2 → R σ1 σ2) →
  forEachRet l body σ = Ok None σ' → R σ σ'.
Proof.
  revert σ. induction l as [|x l IH]; intros σ Hb; simpl.
  - intros [= ->]. reflexivity.
  - intros ([e|] & σ1 & Hx & Hk)%bind_Ok; [done|].
    etrans; [eapply Hb; [|done]; by left|].
    apply IH; [|done]. intros y σ2 σ3 Hy. apply Hb. by right.
Qed.
End keeps.

Global Instance same_heap_preorder : PreOrder same_heap.
Proof.
  split.
  - by intros σ.
  - intros σ1 σ2 σ3 [] []. split; congruence.
Qed.

Global Instance same_comps_preorder : PreOrder same_comps.
Proof. split; [done|]. intros ???. unfold same_comps. congruence. Qed.

Global Instance same_comp_preorder p : PreOrder (same_comp p).
Proof. split; [done|]. intros ???. unfold same_comp. congruence. Qed.

Lemma keeps_rangeMap_heap {V} (m : gmap string V) : keeps same_heap (rangeMap m).
Proof. by intros σ a σ' [= _ <-]. Qed.

Lemma keeps_copyInto_heap {V} (src dst : gmap string V) : keeps same_heap (copyInto src dst).
Proof.
  unfold copyInto. apply keeps_bind; [apply _|apply keeps_rangeMap_heap|].
  intros kvs. apply keeps_ret, _.
Qed.

Lemma keeps_generateCacheKey_heap ts funcs : keeps same_heap (generateCacheKey ts funcs).
Proof.
  unfold generateCacheKey. apply keeps_bind; [apply _|apply keeps_rangeMap_heap|].
  intros kvs. destruct ts; [done|apply keeps_ret, _].
Qed.

Lemma keeps_parseAndStore_heap c name ts fm key :
  keeps same_heap (parseAndStore c name ts fm key).
Proof.
  unfold parseAndStore. destruct (Funcs fm); [|done].
  apply keeps_bind; [apply _|apply keeps_getComp, _|]. intros self.
  destruct (ParseFS _ _ _ _) as [t|err]; [|apply keeps_ret, _].
  apply keeps_bind; [apply _| |intros _; apply keeps_ret, _].
  by intros σ u σ' [= _ <-].
Qed.

(** [executeTemplate] does not change the state; on success the markup is
    what [Execute] wrote for the data built from that state. *)
Lemma executeTemplate_Ok ctx c input tmpl σ h σ' :
  executeTemplate ctx c input tmpl σ = Ok (h, None) σ' →
  σ' = σ ∧
  ∃ self t, comps σ !! c = Some self ∧ tmpl = CacheTemplate t ∧
    Execute t (mkEnvelope ctx (snapshot σ input) (snapshot σ (globalData self))
                 (partial self) (url self)) = (h, None).
Proof.
  unfold executeTemplate.
  intros (? & ? & [= <- <-] & (self & ? & [Hc ->]%getComp_Ok & Hk)%bind_Ok)%bind_Ok.
  destruct tmpl as [t|]; [|done].
  destruct (Execute t _) as [buf [e|]] eqn:He; [done|].
  injection Hk as <- <-. split; [done|]. by exists self, t.
Qed.

(** A successful [renderNamed] on a non-empty template list executed a
    template on the data of the final state. *)
Lemma renderNamed_Ok ctx c name t0 ts input σ h σ' :
  renderNamed ctx c name (t0 :: ts) input σ = Ok (h, None) σ' →
  same_heap σ σ' ∧
  ∃ self t, comps σ' !! c = Some self ∧
    Execute t (mkEnvelope ctx (snapshot σ' input) (snapshot σ' (globalData self))
                 (partial self) (url self)) = (h, None).
Proof.
  unfold renderNamed.
  intros (σ0 & ? & [= <- <-] & (fm0 & σa & Ha & (self & ? & [Hc ->]%getComp_Ok &
    (fm & σb & Hb & (key & σc & Hkey & (σ1 & ? & [= <- <-] &
    (tmpl & σd & Hd & Hk)%bind_Ok)%bind_Ok)%bind_Ok)%bind_Ok)%bind_Ok)%bind_Ok)%bind_Ok.
  destruct tmpl as [tmpl|e]; [|done].
  apply executeTemplate_Ok in Hk as (-> & self' & t & Hc' & -> & Hex).
  split; [|by exists self', t].
  etrans; [by eapply keeps_copyInto_heap|].
  etrans; [|etrans; [by eapply keeps_generateCacheKey_heap|]].
  - destruct (functions self); [by eapply keeps_copyInto_heap|].
    injection Hb as _ <-. reflexivity.
  - destruct (templateCache σc !! key) as [tm|]; [|by eapply keeps_parseAndStore_heap].
    destruct (UseTemplateCache σc); [|by eapply keeps_parseAndStore_heap].
    injection Hd as _ <-. reflexivity.
Qed.

Lemma addPartial_Ok c k h σ u σ' :
  addPartial c k h σ = Ok u σ' →
  ∃ self pm, comps σ !! c = Some self ∧ partial self = Some pm ∧
    σ' = set_comps (<[c := set_partial (Some (<[k := h]> pm)) self]> (comps σ)) σ.
Proof.
  unfold addPartial. intros (self & ? & [Hc ->]%getComp_Ok & Hk)%bind_Ok.
  destruct (partial self) as [pm|] eqn:Hp; [|done].
  apply modComp_Ok in Hk as (self' & Hc' & ->). simplify_eq. by exists self, pm.
Qed.

Lemma injectData_comps c input : keeps same_comps (injectData c input).
Proof.
  unfold injectData. apply keeps_bind; [apply _|by intros σ a σ' [= _ <-]|]. intros m.
  apply keeps_bind; [apply _|by intros σ a σ' [= _ <-]|]. intros kvs.
  apply keeps_forEach; [apply _|]. intros kv.
  apply keeps_bind; [apply _|apply keeps_getComp, _|]. intros self.
  intros σ u σ' (cur & ? & [= <- <-] & Hk)%bind_Ok.
  destruct (deref σ (templateData self) !! kv.1); [by injection Hk as _ <-|].
  destruct (templateData self); [|done]. by injection Hk as _ <-.
Qed.

(** The injections of [Render] touch the record of the partial only, and
    leave its partial results alone. *)
Lemma injectInto_frame c d σ u σ' :
  injectInto c d σ = Ok u σ' →
  (∀ p, p ≠ d → comps σ' !! p = comps σ !! p) ∧
  (∀ a, comps σ !! d = Some a → ∃ b, comps σ' !! d = Some b ∧ partial b = partial a).
Proof.
  unfold injectInto.
  intros (self & ? & [Hc ->]%getComp_Ok & ([] & σ1 & Hi &
    (self1 & ? & [Hc1 ->]%getComp_Ok & Hg)%bind_Ok)%bind_Ok)%bind_Ok.
  apply injectData_comps in Hi.
  assert (is_Some (comps σ1 !! d)) as [child Hd].
  { unfold injectGlobalData in Hg.
    apply bind_Ok in Hg as (child & ? & [Hd ->]%getComp_Ok & _). by exists child. }
  destruct (injectGlobalData_spec d child (globalData self1) σ1 Hd)
    as (σ'' & child' & Hrun & Hd' & Hother & _ & _ & Hp & _).
  rewrite Hrun in Hg. injection Hg as _ <-. split.
  - intros p Hp'. rewrite Hother by done. by rewrite Hi.
  - intros a Ha. exists child'. split; [done|]. rewrite Hp. congruence.
Qed.

Lemma renderPartial_None render c kv σ σ' :
  renderPartial render c kv σ = Ok None σ' →
  ∃ σ1 σ2 h, injectInto c kv.2 σ = Ok tt σ1 ∧ render kv.2 σ1 = Ok (h, None) σ2 ∧
             addPartial c kv.1 h σ2 = Ok tt σ'.
Proof.
  unfold renderPartial.
  intros ([] & σ1 & Hi & ([h [e|]] & σ2 & Hr & Hk)%bind_Ok)%bind_Ok; simpl in Hk; [done|].
  apply bind_Ok in Hk as ([] & σ3 & Ha & [= <-]). by exists σ1, σ2, h.
Qed.

Lemma Render_active_fails fuel ctx d σ h σ' :
  Value ctx d = true → Render fuel ctx d σ ≠ Ok (h, None) σ'.
Proof. intros Hv. destruct fuel; simpl; [done|]. by rewrite Hv. Qed.

(** A successful render does not touch the components of its context. *)
Lemma Render_success_frame fuel ctx c σ h σ' :
  Render fuel ctx c σ = Ok (h, None) σ' →
  ∀ p, p ∈ ctx → comps σ' !! p = comps σ !! p.
Proof.
  revert ctx c σ h σ'. induction fuel as [|fuel IH]; intros ctx c σ h σ'; simpl; [done|].
  destruct (Value ctx c) eqn:Hv; [done|].
  intros (self & ? & [Hc ->]%getComp_Ok & (kids & σk & [= <- <-] &
    (r & σ1 & Hloop & Hk)%bind_Ok)%bind_Ok)%bind_Ok p Hp.
  destruct r as [e|]; [done|].
  apply bind_Ok in Hk as (self' & ? & [Hc' ->]%getComp_Ok & Hk).
  assert (c ≠ p) as Hcp.
  { intros ->. apply bool_decide_eq_false in Hv. done. }
  transitivity (comps σ1 !! p).
  { destruct (templates self') as [|t0 ts]; [done|].
    apply renderNamed_Ok in Hk as [[-> _] _]. done. }
  change (comps σ !! p) with (comps (set_seed (S (seed σ)) σ) !! p).
  revert Hloop.
  apply (forEachRet_None_keeps (same_comp p)).
  intros kv σa σb _ (σ2 & σ3 & hd & Hi & Hr & Ha)%renderPartial_None.
  apply addPartial_Ok in Ha as (selfc & pm & _ & _ & ->). unfold same_comp. simpl.
  rewrite lookup_insert_ne by done.
  rewrite (IH _ _ _ _ _ Hr p) by (by right).
  apply injectInto_frame in Hi as [Hi _]. apply Hi.
  intros ->. eapply Render_active_fails; [|exact Hr].
  apply bool_decide_eq_true. by right.
Qed.

(** ** Partials reach the template *)

Global Instance slot_kept_preorder P s h : PreOrder (slot_kept P s h).
Proof. split; unfold slot_kept; [by intros ?|intros ???; auto]. Qed.

Lemma renderPartial_keeps_slot fuel ctx P kv s h σ σ' :
  renderPartial (Render fuel (WithValue ctx P)) P kv σ = Ok None σ' →
  kv.1 ≠ s → slot_kept P s h σ σ'.
Proof.
  intros (σ1 & σ2 & hd & Hi & Hr & Ha)%renderPartial_None Hne (self & pm & Hc & Hp & Hs).
  assert (kv.2 ≠ P) as HdP.
  { intros Heq. eapply Render_active_fails; [|exact Hr].
    rewrite Heq. apply bool_decide_eq_true. by left. }
  apply injectInto_frame in Hi as [Hi _].
  pose proof (Render_success_frame _ _ _ _ _ _ Hr P) as Hfr.
  apply addPartial_Ok in Ha as (self2 & pm2 & Hc2 & Hp2 & ->).
  rewrite Hfr, Hi in Hc2 by (done || by left).
  rewrite Hc in Hc2. injection Hc2 as <-. rewrite Hp in Hp2. injection Hp2 as <-.
  exists (set_partial (Some (<[kv.1 := hd]> pm)) self), (<[kv.1 := hd]> pm).
  split_and!; [apply lookup_insert_eq|done|by rewrite lookup_insert_ne].
Qed.

(** When the loop of [Render] over the partials ran to its end, every
    partial was rendered and its markup is in the partial results. *)
Lemma partials_loop fuel ctx P kids σa σb :
  forEachRet kids (renderPartial (Render fuel (WithValue ctx P)) P) σa = Ok None σb →
  NoDup kids.*1 →
  ∀ s C, (s, C) ∈ kids →
    ∃ σ1 σ2 hC,
      ext σa σ1 ∧ Render fuel (WithValue ctx P) C σ1 = Ok (hC, None) σ2 ∧ ext σ2 σb ∧
      has_slot P s hC σb.
Proof.
  revert σa. induction kids as [|kv kids IH]; intros σa Hloop Hnd s C Hin.
  { by apply elem_of_nil in Hin. }
  simpl in Hloop. apply bind_Ok in Hloop as ([e|] & σ3 & Hkv & Hrest); [done|].
  apply NoDup_cons in Hnd as [Hfresh Hnd].
  assert (∀ σ σ', forEachRet kids (renderPartial (Render fuel (WithValue ctx P)) P) σ
                    = Ok None σ' → ext σ σ') as Hext.
  { intros σ σ'. apply preserves_forEachRet. intros x.
    apply preserves_renderPartial. intros d. apply preserves_Render. }
  apply elem_of_cons in Hin as [<-|Hin].
  - pose proof Hkv as (σ1 & σ2 & hC & Hi & Hr & Ha)%renderPartial_None.
    exists σ1, σ2, hC. split_and!.
    + by eapply preserves_injectInto.
    + done.
    + etrans; [by eapply preserves_addPartial|by apply Hext].
    + assert (has_slot P s hC σ3) as Hslot.
      { apply addPartial_Ok in Ha as (self2 & pm2 & Hc2 & Hp2 & ->).
        exists (set_partial (Some (<[s := hC]> pm2)) self2), (<[s := hC]> pm2).
        split_and!; [apply lookup_insert_eq|done|apply lookup_insert_eq]. }
      revert Hslot. change (slot_kept P s hC σ3 σb). revert Hrest.
      apply (forEachRet_None_keeps (slot_kept P s hC)).
      intros x σ σ' Hx Hbody. eapply renderPartial_keeps_slot; [done|].
      intros Heq. apply Hfresh. simpl. rewrite <-Heq.
      by apply (list_elem_of_fmap_2 fst).
  - destruct (IH σ3 Hrest Hnd s C Hin) as (σ1 & σ2 & hC & H1 & Hr & H2 & Hslot).
    exists σ1, σ2, hC. split_and!; [|done..].
    etrans; [|done]. revert Hkv. apply preserves_renderPartial.
    intros d. apply preserves_Render.
Qed.

(** C3: when [Render] succeeds on [P], each partial [C] registered under
    a slot [s] was rendered (in the context that marks [P]) before the
    template of [P] ran, and the data handed to [Execute] for [P] holds
    the markup of [C] under [s] in [Partials]. *)
Theorem Render_partial_in_envelope fuel ctx P σ self s C h σ' :
  comps σ !! P = Some self →
  partials self !! s = Some C →
  Render fuel ctx P σ = Ok (h, None) σ' →
  ∃ fuel' σ1 σ2 hC self' pm t,
    fuel = S fuel' ∧
    ext σ σ1 ∧ Render fuel' (WithValue ctx P) C σ1 = Ok (hC, None) σ2 ∧ ext σ2 σ' ∧
    comps σ' !! P = Some self' ∧ partial self' = Some pm ∧ pm !! s = Some hC ∧
    Execute t (mkEnvelope (WithValue ctx P) (snapshot σ' (templateData self'))
                 (snapshot σ' (globalData self')) (Some pm) (url self')) = (h, None).
Proof.
  intros Hc Hs. destruct fuel as [|fuel]; [done|]. simpl.
  destruct (Value ctx P) eqn:Hv; [done|].
  intros (self0 & ? & [Hc0 ->]%getComp_Ok & (kids & σk & [= <- <-] &
    (r & σL & Hloop & Hk)%bind_Ok)%bind_Ok)%bind_Ok.
  simplify_eq. destruct r as [e|]; [done|].
  apply bind_Ok in Hk as (selfL & ? & [HcL ->]%getComp_Ok & Hk).
  destruct (templates selfL) as [|t0 ts] eqn:Hts; [done|].
  pose proof (preserves_renderNamed _ _ _ _ _ _ _ _ Hk) as HextL.
  apply renderNamed_Ok in Hk as ([Hcs Hms] & self' & t & Hc' & Hex).
  destruct (partials_loop _ _ _ _ _ _ Hloop) with (s := s) (C := C)
    as (σ1 & σ2 & hC & H1 & Hr & H2 & (selfs & pm & Hcs' & Hpm & Hlk)).
  { rewrite (ord_perm (seed σ) loc (partials self)). apply NoDup_fst_map_to_list. }
  { rewrite (ord_perm (seed σ) loc (partials self)). by apply elem_of_map_to_list. }
  rewrite Hcs, Hcs' in Hc'. injection Hc' as <-.
  rewrite Hcs' in HcL. injection HcL as <-.
  exists fuel, σ1, σ2, hC, selfs, pm, t. split_and!.
  - done.
  - etrans; [|done]. by eapply (preserves_rangeMap (partials self)).
  - done.
  - by etrans.
  - by rewrite Hcs.
  - done.
  - done.
  - by rewrite <-Hpm.
Qed.

(** ** More fuel changes nothing *)

Lemma refines_refl {A} (m : M A) : refines m m.
Proof. intros σ. by right. Qed.

Lemma refines_bind {A B} (m1 m2 : M A) (k1 k2 : A → M B) :
  refines m1 m2 → (∀ a, refines (k1 a) (k2 a)) → refines (bind m1 k1) (bind m2 k2).
Proof.
  intros Hm Hk σ. unfold bind. destruct (Hm σ) as [-> | ->]; [by left|].
  destruct (m1 σ) as [a σ1| |]; [apply Hk|by right|by left].
Qed.

Lemma refines_forEachRet {A E} (l : list A) (body1 body2 : A → M (option E)) :
  (∀ x, refines (body1 x) (body2 x)) →
  refines (forEachRet l body1) (forEachRet l body2).
Proof.
  intros Hb. induction l as [|x l IH]; simpl; [apply refines_refl|].
  apply refines_bind; [done|]. intros [e|]; [apply refines_refl|done].
Qed.

Lemma refines_forEach {A} (l : list A) (body1 body2 : A → M unit) :
  (∀ x, refines (body1 x) (body2 x)) →
  refines (forEach l body1) (forEach l body2).
Proof.
  intros Hb. induction l as [|x l IH]; simpl; [apply refines_refl|].
  by apply refines_bind.
Qed.

Lemma refines_renderPartial render1 render2 c kv :
  (∀ d, refines (render1 d) (render2 d)) →
  refines (renderPartial render1 c kv) (renderPartial render2 c kv).
Proof.
  intros Hr. unfold renderPartial.
  apply refines_bind; [apply refines_refl|]. intros _.
  apply refines_bind; [apply Hr|]. intros res. apply refines_refl.
Qed.

Lemma Render_fuel_S fuel ctx c : refines (Render fuel ctx c) (Render (S fuel) ctx c).
Proof.
  revert ctx c. induction fuel as [|fuel IH]; intros ctx c; [by left|].
  change (Render (S (S fuel)) ctx c) with
    (if Value ctx c then ret ("", Some ErrCircular)
     else
       self <~ getComp c ;;
       kids <~ rangeMap (partials self) ;;
       r <~ forEachRet kids (renderPartial (Render (S fuel) (WithValue ctx c)) c) ;;
       match r with
       | Some err => ret ("", Some err)
       | None =>
           self <~ getComp c ;;
           match templates self with
           | [] => ret ("", Some ErrNoTemplates)
           | t0 :: _ => renderNamed (WithValue ctx c) c (Base t0) (templates self)
                          (templateData self)
           end
       end).
  cbn [Render]. destruct (Value ctx c); [apply refines_refl|].
  apply refines_bind; [apply refines_refl|]. intros self.
  apply refines_bind; [apply refines_refl|]. intros kids.
  apply refines_bind; [|intros r; apply refines_refl].
  apply refines_forEachRet. intros kv. apply refines_renderPartial. intros d. apply IH.
Qed.

Lemma Render_fuel_le (fuel fuel' : nat) ctx c :
  (fuel ≤ fuel')%nat → refines (Render fuel ctx c) (Render fuel' ctx c).
Proof.
  induction 1 as [|fuel' _ IH]; [apply refines_refl|].
  intros σ. destruct (IH σ) as [?|Heq]; [by left|].
  destruct (Render_fuel_S fuel' ctx c σ) as [Hout|Hs].
  - left. congruence.
  - right. congruence.
Qed.

Lemma Render_fuel_mono (fuel fuel' : nat) ctx c σ a σ' :
  (fuel ≤ fuel')%nat → Render fuel ctx c σ = Ok a σ' → Render fuel' ctx c σ = Ok a σ'.
Proof.
  intros Hle Hr. destruct (Render_fuel_le _ _ ctx c Hle σ); congruence.
Qed.

(** ** Circular references *)

Lemma enters_marks x y : enters x y → x.1.2 ∈ y.1.1 ∧ ∀ p, p ∈ x.1.1 → p ∈ y.1.1.
Proof.
  destruct 1; simpl. split; [by left|]. intros p Hp. by right.
Qed.

Lemma chain_keeps_marks y z p : tc enters y z → p ∈ y.1.1 → p ∈ z.1.1.
Proof.
  induction 1 as [y z Hyz|y w z Hyw Hwz IH]; intros Hp.
  - apply enters_marks in Hyz as [_ Hyz]. by apply Hyz.
  - apply IH. apply enters_marks in Hyw as [_ Hyw]. by apply Hyw.
Qed.

Lemma chain_marks x y : tc enters x y → x.1.2 ∈ y.1.1.
Proof.
  destruct 1 as [x y Hxy|x y z Hxy Hyz].
  - by apply enters_marks.
  - apply enters_marks in Hxy as [Hx _]. by eapply chain_keeps_marks.
Qed.

Lemma enters_error x y (fuel0 : nat) err σz :
  enters x y →
  (∀ fuel, (fuel0 ≤ fuel)%nat → Render fuel y.1.1 y.1.2 y.2 = Ok ("", Some err) σz) →
  ∃ fuel1 : nat, ∀ fuel, (fuel1 ≤ fuel)%nat → Render fuel x.1.1 x.1.2 x.2 = Ok ("", Some err) σz.
Proof.
  intros Hxy Hy. destruct Hxy as [fuele ctx c σ self pre kv rest σ1 σ2 Hv Hc Hkids Hpre Hinj].
  simpl in *. exists (S (fuel0 `max` fuele)). intros [|fuel] Hle; [lia|].
  eapply Render_partial_error; [done..| |done|apply Hy; lia].
  destruct (refines_forEachRet pre
    (renderPartial (Render fuele (WithValue ctx c)) c)
    (renderPartial (Render fuel (WithValue ctx c)) c)) with (σ := set_seed (S (seed σ)) σ)
    as [Hout|Heq]; [|congruence|congruence].
  intros x. apply refines_renderPartial. intros d. apply Render_fuel_le. lia.
Qed.

Lemma chain_error x z :
  tc enters x z → Value z.1.1 z.1.2 = true →
  ∃ fuel0 : nat, ∀ fuel, (fuel0 ≤ fuel)%nat →
    Render fuel x.1.1 x.1.2 x.2 = Ok ("", Some ErrCircular) z.2.
Proof.
  intros Hxz Hv.
  assert (∀ fuel, (1 ≤ fuel)%nat →
            Render fuel z.1.1 z.1.2 z.2 = Ok ("", Some ErrCircular) z.2) as Hz.
  { intros [|fuel] Hle; [lia|]. simpl. by rewrite Hv. }
  induction Hxz as [x z Hxz|x y z Hxy Hyz IH].
  - by eapply enters_error.
  - destruct (IH Hv Hz) as [fuel0 Hy]. by eapply enters_error.
Qed.

(** C1: a component [A] that comes up again in its own chain of render
    calls (as its own partial, or as a partial of a partial, and so on)
    is found marked in the context derived along that chain, and
    [Render] on [A] returns the circular-reference error with no markup.
    The marking is in the context only: the call that finds it leaves
    the state as it is. *)
Theorem Render_circular ctx A σ ctx' σ' :
  tc enters (ctx, A, σ) (ctx', A, σ') →
  Value ctx' A = true ∧
  (∀ fuel, Render (S fuel) ctx' A σ' = Ok ("", Some ErrCircular) σ') ∧
  ∃ fuel0 : nat, ∀ fuel, (fuel0 ≤ fuel)%nat →
    Render fuel ctx A σ = Ok ("", Some ErrCircular) σ'.
Proof.
  intros Hchain.
  assert (Value ctx' A = true) as Hv.
  { apply bool_decide_eq_true. by apply chain_marks in Hchain. }
  split_and!; [done| |by apply (chain_error _ _ Hchain)].
  intros fuel. simpl. by rewrite Hv.
Qed.

(** ** The injected data stays in the partials *)

Lemma keys_in_trans m1 m2 m3 : keys_in m1 m2 → keys_in m2 m3 → keys_in m1 m3.
Proof. unfold keys_in. auto. Qed.

Lemma keys_in_union_r m1 m2 : keys_in m2 (m1 ∪ m2).
Proof.
  intros k [v Hv]. rewrite lookup_union, Hv. by destruct (m1 !! k).
Qed.

Lemma ext_keys_in σ σ' r : ext σ σ' → keys_in (deref σ r) (deref σ' r).
Proof.
  intros Hext k [v Hv]. destruct r as [r|]; [|done].
  exists v. by apply (ext_maps _ _ Hext).
Qed.

Lemma ext_dataRefs σ σ' c a :
  ext σ σ' → comps σ !! c = Some a →
  ∃ b, comps σ' !! c = Some b ∧
       keys_in (deref σ (templateData a)) (deref σ' (templateData b)) ∧
       keys_in (deref σ (globalData a)) (deref σ' (globalData b)).
Proof.
  intros Hext Ha. destruct (ext_comps _ _ Hext _ _ Ha) as (b & Hb & Hab).
  exists b. split_and!; [done|..].
  - rewrite (ce_templateData _ _ Hab). by apply ext_keys_in.
  - destruct (globalData a) as [r|] eqn:Hg; [|by intros k [v Hv]].
    rewrite (ce_globalData _ _ Hab r) by done. by apply ext_keys_in.
Qed.

(** After the injections of [Render], the partial has every key of the
    data of the parent. *)
Lemma injectInto_keys P C σ1 σ2 selfP :
  injectInto P C σ1 = Ok tt σ2 → comps σ1 !! P = Some selfP →
  ∃ child, comps σ2 !! C = Some child ∧
    keys_in (deref σ1 (templateData selfP)) (deref σ2 (templateData child)) ∧
    keys_in (deref σ1 (globalData selfP)) (deref σ2 (globalData child)).
Proof.
  unfold injectInto.
  intros (self & ? & [Hc ->]%getComp_Ok & ([] & σa & Hi &
    (selfa & ? & [Hca ->]%getComp_Ok & Hg)%bind_Ok)%bind_Ok)%bind_Ok HP.
  rewrite HP in Hc. injection Hc as <-.
  pose proof (injectData_comps _ _ _ _ _ Hi) as Hcs. unfold same_comps in Hcs.
  rewrite Hcs, HP in Hca. injection Hca as <-.
  pose proof (preserves_injectData _ _ _ _ _ Hi) as Hext1.
  pose proof (preserves_injectGlobalData _ _ _ _ _ Hg) as Hext2.
  assert (is_Some (comps σa !! C)) as [child Hd].
  { unfold injectGlobalData in Hg.
    apply bind_Ok in Hg as (child & ? & [Hd ->]%getComp_Ok & _). by exists child. }
  destruct (injectGlobalData_spec C child (globalData selfP) σa Hd)
    as (σ'' & child' & Hrun & Hd' & _ & _ & _ & _ & Hgl).
  rewrite Hrun in Hg. injection Hg as <-.
  exists child'. split_and!; [done|..].
  - destruct (ext_dataRefs _ _ _ _ Hext2 Hd) as (b & Hb & Hkeys & _).
    rewrite Hd' in Hb. injection Hb as <-.
    eapply keys_in_trans; [|exact Hkeys].
    rewrite Hcs in Hd.
    destruct (templateData child) as [r|] eqn:Hr.
    + destruct (injectData_spec C child r (templateData selfP) σ1 Hd Hr)
        as (σi & Hruni & _ & _ & Hdi).
      rewrite Hruni in Hi. injection Hi as <-. rewrite Hdi. apply keys_in_union_r.
    + intros k [v Hv]. exfalso.
      destruct (decide (deref σ1 (templateData selfP) = ∅)) as [He|Hne].
      * by rewrite He in Hv.
      * by rewrite (injectData_nil_panics C child _ σ1 Hd Hr Hne) in Hi.
  - rewrite Hgl. eapply keys_in_trans; [|apply keys_in_union_r].
    by apply ext_keys_in.
Qed.

Lemma preserves_partials_loop fuel ctx P kids :
  preserves (forEachRet kids (renderPartial (Render fuel ctx) P)).
Proof.
  apply preserves_forEachRet. intros x.
  apply preserves_renderPartial. intros d. apply preserves_Render.
Qed.

(** The partials that the loop of [Render] reached: all of them when it
    ran to its end, and otherwise those up to the one whose render
    failed.  Each of them went through the injections. *)
Lemma partials_loop_visits fuel ctx P kids σa r σb :
  forEachRet kids (renderPartial (Render fuel ctx) P) σa = Ok r σb →
  ∃ visited rest,
    kids = visited ++ rest ∧
    match r with
    | None => rest = []
    | Some e => ∃ pre kv σ1 h, visited = pre ++ [kv] ∧
                  Render fuel ctx kv.2 σ1 = Ok (h, Some e) σb
    end ∧
    ∀ kv, kv ∈ visited →
      ∃ σ1 σ2, ext σa σ1 ∧ injectInto P kv.2 σ1 = Ok tt σ2 ∧ ext σ2 σb.
Proof.
  revert σa. induction kids as [|kv kids IH]; intros σa; simpl.
  { intros [= <- <-]. exists [], []. split_and!; [done..|].
    intros kv Hkv. by apply elem_of_nil in Hkv. }
  intros ([e|] & σm & Hkv & Hrest)%bind_Ok.
  - injection Hrest as <- <-.
    apply renderPartial_Some in Hkv as (σ2 & h & Hinj & Hr).
    exists [kv], kids. split_and!; [done|by exists [], kv, σ2, h|].
    intros kv' ->%list_elem_of_singleton. exists σa, σ2.
    split_and!; [reflexivity|done|by eapply preserves_Render].
  - pose proof (preserves_renderPartial _ _ _ (λ d, preserves_Render fuel ctx d)
                  _ _ _ Hkv) as Hext.
    pose proof (preserves_partials_loop _ _ _ _ _ _ _ Hrest) as Hext'.
    destruct (IH _ Hrest) as (visited & rest & -> & Hr & Hvis).
    exists (kv :: visited), rest. split_and!; [done| |].
    + destruct r as [e|]; [|done].
      destruct Hr as (pre & kv' & σ1 & h & -> & Hr'). by exists (kv :: pre), kv', σ1, h.
    + intros kv' [->|Hin]%elem_of_cons.
      * apply renderPartial_None in Hkv as (σ1 & σ2 & h & Hinj & Hrd & Ha).
        exists σa, σ1. split_and!; [reflexivity|done|].
        etrans; [by eapply preserves_Render|].
        etrans; [by eapply preserves_addPartial|done].
      * destruct (Hvis _ Hin) as (σ1 & σ2 & H1 & Hinj & H2).
        exists σ1, σ2. split_and!; [by etrans|done..].
Qed.

(** C9, for the partials that the loop reached: the injection outlives
    the call.  When [Render] on [P] returns, with or without an error,
    the partials of [P] split into those the loop reached and the rest;
    the rest is empty unless the last partial reached failed to render
    (which ended the call); and the maps of every partial reached have,
    after the call, every key that the local and the global data of [P]
    had before it. *)
Theorem Render_injection_persists fuel ctx P σ self h err σ' :
  comps σ !! P = Some self →
  Value ctx P = false →
  Render fuel ctx P σ = Ok (h, err) σ' →
  ∃ visited rest,
    ord (seed σ) loc (partials self) = visited ++ rest ∧
    (rest = [] ∨
     ∃ pre kv e σ1 h', visited = pre ++ [kv] ∧ err = Some e ∧
       Render (pred fuel) (WithValue ctx P) kv.2 σ1 = Ok (h', Some e) σ') ∧
    ∀ s C, (s, C) ∈ visited →
      ∃ child, comps σ' !! C = Some child ∧
        keys_in (deref σ (templateData self)) (deref σ' (templateData child)) ∧
        keys_in (deref σ (globalData self)) (deref σ' (globalData child)).
Proof.
  intros Hc Hv. destruct fuel as [|fuel]; [done|]. simpl. rewrite Hv.
  intros (self0 & ? & [Hc0 ->]%getComp_Ok & (kids & σk & [= <- <-] &
    (r & σL & Hloop & Hk)%bind_Ok)%bind_Ok)%bind_Ok.
  rewrite Hc in Hc0. injection Hc0 as <-.
  assert (ext σL σ') as HextL.
  { destruct r as [e|]; [injection Hk as _ _ <-; reflexivity|].
    apply bind_Ok in Hk as (selfL & ? & [HcL ->]%getComp_Ok & Hk).
    destruct (templates selfL); [injection Hk as _ _ <-; reflexivity|].
    by eapply preserves_renderNamed. }
  assert (ext σ (set_seed (S (seed σ)) σ)) as Hext0.
  { by eapply (preserves_rangeMap (partials self)). }
  destruct (partials_loop_visits _ _ _ _ _ _ _ Hloop)
    as (visited & rest & Hkids & Hr & Hvis).
  exists visited, rest. split_and!; [done| |].
  - destruct r as [e|]; [|by left]. right.
    destruct Hr as (pre & kv & σ1 & h' & -> & Hr').
    injection Hk as _ <- <-. by exists pre, kv, e, σ1, h'.
  - intros s C Hin.
    destruct (Hvis _ Hin) as (σ1 & σ2 & H1 & Hinj & H2). simpl in Hinj.
    destruct (ext_dataRefs σ σ1 P self) as (self1 & Hc1 & Hl1 & Hg1); [by etrans|done|].
    destruct (injectInto_keys _ _ _ _ _ Hinj Hc1) as (child2 & Hd2 & Hl2 & Hg2).
    destruct (ext_dataRefs σ2 σ' C child2) as (child & Hd & Hl3 & Hg3); [by etrans|done|].
    exists child. split_and!; [done|..]; eauto using keys_in_trans.
Qed.

(** ** [Render] does not look at what [Wrap] sets *)

Lemma outcome_mapRes {A} f (r : Res A) : outcome (mapRes f r) = outcome r.
Proof. by destruct r. Qed.

Lemma blind_ret {A} (a : A) : blind (ret a).
Proof. done. Qed.

Lemma blind_panic {A} : blind (@panic _ A).
Proof. done. Qed.

Lemma blind_bind {A B} (m : M A) (k : A → M B) :
  blind m → (∀ a, blind (k a)) → blind (bind m k).
Proof.
  intros Hm Hk σ. unfold bind. rewrite Hm.
  destruct (m σ) as [a σ1| |]; simpl; [apply Hk|done..].
Qed.

Lemma blind_getComp {A} c (k : Component → M A) :
  (∀ self, k (unwrapped self) = k self) → (∀ self, blind (k self)) →
  blind (bind (getComp c) k).
Proof.
  intros Hk1 Hk2 σ. unfold bind, getComp. cbn [unwrap comps set_comps].
  rewrite lookup_fmap. destruct (comps σ !! c) as [self|]; simpl; [|done].
  rewrite Hk1. apply Hk2.
Qed.

Lemma blind_get {A} (k : State → M A) :
  (∀ σ, k (unwrap σ) = k σ) → (∀ σ, blind (k σ)) → blind (bind get k).
Proof.
  intros Hk1 Hk2 σ. unfold bind, get. rewrite Hk1. apply Hk2.
Qed.

Lemma blind_modComp c f :
  (∀ a, f (unwrapped a) = unwrapped (f a)) → blind (modComp c f).
Proof.
  intros Hf σ. unfold modComp. cbn [unwrap comps set_comps].
  rewrite lookup_fmap. destruct (comps σ !! c) as [self|]; simpl; [|done].
  unfold unwrap. cbn [comps set_comps]. by rewrite fmap_insert, Hf.
Qed.

Lemma blind_forEach {A} (l : list A) (body : A → M unit) :
  (∀ x, blind (body x)) → blind (forEach l body).
Proof.
  intros Hb. induction l; simpl; [apply blind_ret|by apply blind_bind].
Qed.

Lemma blind_forEachRet {A E} (l : list A) (body : A → M (option E)) :
  (∀ x, blind (body x)) → blind (forEachRet l body).
Proof.
  intros Hb. induction l; simpl; [apply blind_ret|].
  apply blind_bind; [done|]. intros [e|]; [apply blind_ret|done].
Qed.

Lemma blind_rangeMap {V} (m : gmap string V) : blind (rangeMap m).
Proof. done. Qed.

Lemma blind_readMap r : blind (readMap r).
Proof. done. Qed.

Lemma blind_makeMap : blind makeMap.
Proof. done. Qed.

Lemma blind_assignIfAbsent r kv : blind (assignIfAbsent r kv).
Proof.
  unfold assignIfAbsent. apply blind_bind; [apply blind_readMap|]. intros cur.
  destruct (cur !! kv.1); [apply blind_ret|]. by destruct r.
Qed.

Lemma blind_injectData c input : blind (injectData c input).
Proof.
  unfold injectData. apply blind_bind; [apply blind_readMap|]. intros m.
  apply blind_bind; [apply blind_rangeMap|]. intros kvs.
  apply blind_forEach. intros kv.
  apply blind_getComp; [done|]. intros self. apply blind_assignIfAbsent.
Qed.

Lemma blind_injectGlobalData c input : blind (injectGlobalData c input).
Proof.
  unfold injectGlobalData. apply blind_getComp; [done|]. intros self.
  apply blind_bind.
  { destruct (globalData self); [apply blind_ret|].
    apply blind_bind; [apply blind_makeMap|]. intros r. by apply blind_modComp. }
  intros _. apply blind_bind; [apply blind_readMap|]. intros m.
  apply blind_bind; [apply blind_rangeMap|]. intros kvs.
  apply blind_forEach. intros kv.
  apply blind_getComp; [done|]. intros self'. apply blind_assignIfAbsent.
Qed.

Lemma blind_addPartial c key value : blind (addPartial c key value).
Proof.
  unfold addPartial. apply blind_getComp; [done|]. intros self.
  destruct (partial self); [|apply blind_panic]. by apply blind_modComp.
Qed.

Lemma blind_renderPartial render c kv :
  (∀ d, blind (render d)) → blind (renderPartial render c kv).
Proof.
  intros Hr. unfold renderPartial, injectInto.
  apply blind_bind.
  { apply blind_getComp; [done|]. intros self.
    apply blind_bind; [apply blind_injectData|]. intros _.
    apply blind_getComp; [done|]. intros self'. apply blind_injectGlobalData. }
  intros _. apply blind_bind; [apply Hr|]. intros [h [e|]]; simpl; [apply blind_ret|].
  apply blind_bind; [apply blind_addPartial|]. intros _. apply blind_ret.
Qed.

Lemma blind_copyInto {V} (src dst : gmap string V) : blind (copyInto src dst).
Proof.
  unfold copyInto. apply blind_bind; [apply blind_rangeMap|]. intros kvs. apply blind_ret.
Qed.

Lemma blind_parseAndStore c name ts fm key : blind (parseAndStore c name ts fm key).
Proof.
  unfold parseAndStore. destruct (Funcs fm); [|apply blind_panic].
  apply blind_getComp; [done|]. intros self.
  destruct (ParseFS _ _ _ _); [|apply blind_ret].
  apply blind_bind; [done|]. intros _. apply blind_ret.
Qed.

Lemma blind_executeTemplate ctx c input tmpl : blind (executeTemplate ctx c input tmpl).
Proof.
  unfold executeTemplate. apply blind_get; [done|]. intros σ.
  apply blind_getComp; [done|]. intros self.
  destruct tmpl as [t|]; [|apply blind_ret].
  destruct (Execute t _) as [buf [e|]]; apply blind_ret.
Qed.

Lemma blind_renderNamed ctx c name ts input : blind (renderNamed ctx c name ts input).
Proof.
  unfold renderNamed. destruct ts as [|t0 ts]; [apply blind_ret|].
  apply blind_get; [done|]. intros σ0.
  apply blind_bind; [apply blind_copyInto|]. intros fm0.
  apply blind_getComp; [done|]. intros self.
  apply blind_bind.
  { destruct (functions self); [apply blind_copyInto|apply blind_ret]. }
  intros fm. apply blind_bind.
  { unfold generateCacheKey. apply blind_bind; [apply blind_rangeMap|].
    intros kvs. apply blind_ret. }
  intros key. apply blind_get; [done|]. intros σ1.
  apply blind_bind.
  { destruct (templateCache σ1 !! key); [|apply blind_parseAndStore].
    destruct (UseTemplateCache σ1); [apply blind_ret|apply blind_parseAndStore]. }
  intros [tmpl|e]; [apply blind_executeTemplate|apply blind_ret].
Qed.

Lemma blind_Render fuel ctx c : blind (Render fuel ctx c).
Proof.
  revert ctx c. induction fuel as [|fuel IH]; intros ctx c; simpl; [done|].
  destruct (Value ctx c); [apply blind_ret|].
  apply blind_getComp; [done|]. intros self.
  apply blind_bind; [apply blind_rangeMap|]. intros kids.
  apply blind_bind.
  { apply blind_forEachRet. intros kv. apply blind_renderPartial. intros d. apply IH. }
  intros [e|]; [apply blind_ret|].
  apply blind_getComp; [done|]. intros self'.
  destruct (templates self'); [apply blind_ret|apply blind_renderNamed].
Qed.

(** [Wrap] changes nothing else. *)
Lemma Wrap_unwrap c renderer target σ c' σ' :
  Wrap c renderer target σ = Ok c' σ' → unwrap σ' = unwrap σ.
Proof.
  unfold Wrap. intros ([] & σ1 & (self & Hc & ->)%modComp_Ok & [= _ <-])%bind_Ok.
  unfold unwrap. cbn [comps set_comps]. rewrite fmap_insert.
  rewrite insert_id; [done|]. by rewrite lookup_fmap, Hc.
Qed.

(** C10: [Wrap] sets the two fields [wrappedRenderer] and [wrappedTarget]
    and nothing else, and [Render] does not read them: after any sequence
    of calls of [Wrap], [Render] returns the same markup and error (or
    panics alike), and leaves the same state but for those two fields. *)
Theorem Render_ignores_Wrap fuel ctx c (ws : list (loc * option loc * string)) σ u σw :
  forEach ws (λ w, _ <~ Wrap w.1.1 w.1.2 w.2 ;; ret tt) σ = Ok u σw →
  unwrap σw = unwrap σ ∧
  outcome (Render fuel ctx c σw) = outcome (Render fuel ctx c σ) ∧
  mapRes unwrap (Render fuel ctx c σw) = mapRes unwrap (Render fuel ctx c σ).
Proof.
  intros Hws.
  assert (unwrap σw = unwrap σ) as Heq.
  { revert σ Hws. induction ws as [|w ws IH]; intros σ; simpl.
    - by intros [= _ <-].
    - intros ([] & σ1 & (c' & σ2 & Hw & [= <-])%bind_Ok & Hrest)%bind_Ok.
      rewrite (IH _ Hrest). by eapply Wrap_unwrap. }
  assert (mapRes unwrap (Render fuel ctx c σw) = mapRes unwrap (Render fuel ctx c σ)) as Hr.
  { by rewrite <-!blind_Render, Heq. }
  split_and!; [done| |done].
  by rewrite <-(outcome_mapRes unwrap (Render fuel ctx c σw)), Hr, outcome_mapRes.
Qed.

(** ** The cache key *)

Lemma names_fold {V} (kvs : list (string * V)) names :
  foldl (λ names kv, names ++ [kv.1]) names kvs = names ++ kvs.*1.
Proof.
  revert names. induction kvs as [|kv kvs IH]; intros names; simpl.
  - by rewrite (right_id_L [] (++)).
  - by rewrite IH, <-(assoc_L (++)).
Qed.

Lemma sort_Strings_perm l1 l2 : l1 ≡ₚ l2 → sort_Strings l1 = sort_Strings l2.
Proof.
  intros Hp. apply (Sorted_unique String.le).
  - apply Sorted_merge_sort, _.
  - apply Sorted_merge_sort, _.
  - unfold sort_Strings. by rewrite !merge_sort_Permutation.
Qed.

Lemma range_names {V} n (m : gmap string V) : (ord n V m).*1 ≡ₚ elements (dom m).
Proof.
  rewrite (ord_perm n V m). apply NoDup_Permutation.
  - apply NoDup_fst_map_to_list.
  - apply NoDup_elements.
  - intros k. rewrite elem_of_elements, elem_of_dom, list_elem_of_fmap. split.
    + intros ([k' v] & -> & Hin). exists v. by apply elem_of_map_to_list.
    + intros [v Hv]. exists (k, v). split; [done|]. by apply elem_of_map_to_list.
Qed.

Lemma generateCacheKey_spec t0 ts (funcs : gmap string Func) σ :
  generateCacheKey (t0 :: ts) funcs σ = Ok (keyOf t0 (dom funcs)) (set_seed (S (seed σ)) σ).
Proof.
  unfold generateCacheKey, keyOf, namesDigest.
  rewrite (bind_eq _ _ σ (ord (seed σ) Func funcs) (set_seed (S (seed σ)) σ)) by done.
  rewrite names_fold. cbn [app].
  by rewrite (sort_Strings_perm _ _ (range_names (seed σ) funcs)).
Qed.

Lemma string_app_nil s : "" +:+ s = s.
Proof. done. Qed.
Lemma string_app_cons a s1 s2 : String a s1 +:+ s2 = String a (s1 +:+ s2).
Proof. done. Qed.

Lemma string_length_app s1 s2 :
  String.length (s1 +:+ s2) = String.length s1 + String.length s2.
Proof.
  induction s1 as [|a s1 IH]; [done|].
  rewrite string_app_cons. simpl. by rewrite IH.
Qed.

(** Strings with suffixes of one length are equal when the wholes are. *)
Lemma string_app_inj_length t1 t2 s1 s2 :
  String.length s1 = String.length s2 → t1 +:+ s1 = t2 +:+ s2 → t1 = t2 ∧ s1 = s2.
Proof.
  intros Hlen. revert t2. induction t1 as [|a t1 IH]; intros [|b t2];
    rewrite ?string_app_nil, ?string_app_cons.
  - done.
  - intros ->. simpl in Hlen. rewrite string_length_app in Hlen. lia.
  - intros <-. simpl in Hlen. rewrite string_length_app in Hlen. lia.
  - intros [= -> Heq]. destruct (IH _ Heq) as [-> ->]. done.
Qed.

Lemma EncodeToString_length l : String.length (EncodeToString l) = 2 * length l.
Proof. induction l; simpl in *; lia. Qed.

Lemma hexDigits_inv b :
  Byte.of_N (hexValue (hexDigit (Byte.to_N b / 16)) * 16
             + hexValue (hexDigit (Byte.to_N b mod 16))) = Some b.
Proof. by destruct b. Qed.

Lemma EncodeToString_inj l1 l2 : EncodeToString l1 = EncodeToString l2 → l1 = l2.
Proof.
  revert l2. induction l1 as [|b1 l1 IH]; intros [|b2 l2]; simpl; try done.
  intros [= H1 H2 Hrest]. f_equal; [|by apply IH].
  pose proof (hexDigits_inv b1) as Hb1. rewrite H1, H2, hexDigits_inv in Hb1.
  congruence.
Qed.

(** C4, as the code has it: the cache key is made of the first template
    identifier and of the digest of the sorted function names.  Two
    renders get the same key exactly when their first template
    identifiers are equal and their sets of function names have the same
    digest; so equal first identifiers and equal sets of names give the
    same key, whatever the order in which the names were met, the
    functions registered under them, and the other template identifiers. *)
Theorem cache_key_first_template_and_names
    t1 ts1 (funcs1 : gmap string Func) σ1 t2 ts2 (funcs2 : gmap string Func) σ2 :
  ∃ k1 k2 σ1' σ2',
    generateCacheKey (t1 :: ts1) funcs1 σ1 = Ok k1 σ1' ∧
    generateCacheKey (t2 :: ts2) funcs2 σ2 = Ok k2 σ2' ∧
    (k1 = k2 ↔ t1 = t2 ∧ namesDigest (dom funcs1) = namesDigest (dom funcs2)) ∧
    (t1 = t2 → dom funcs1 = dom funcs2 → k1 = k2).
Proof.
  exists (keyOf t1 (dom funcs1)), (keyOf t2 (dom funcs2)),
    (set_seed (S (seed σ1)) σ1), (set_seed (S (seed σ2)) σ2).
  split_and!; [apply generateCacheKey_spec..| |by intros -> ->].
  unfold keyOf. split; [|intros [-> Hd]; by rewrite Hd].
  intros Heq.
  apply string_app_inj_length in Heq as [-> Heq].
  - split; [done|]. rewrite !string_app_cons, !string_app_nil in Heq.
    injection Heq as Heq.
    by apply EncodeToString_inj, vec_to_list_inj2 in Heq.
  - by rewrite !string_length_app, !EncodeToString_length, !length_vec_to_list.
Qed.

(** ** The source URL *)

Lemma ranked_child σ rank c d :
  ranked σ rank → child σ c d → is_Some (comps σ !! d) ∧ rank d < rank c.
Proof.
  intros Hr (self & k & Hc & Hk). exact (Hr _ _ Hc _ _ Hk).
Qed.

Global Instance ustep_preorder u : PreOrder (ustep u).
Proof.
  split.
  - intros σ d. destruct (comps σ !! d); auto.
  - intros σ1 σ2 σ3 H12 H23 d. specialize (H12 d). specialize (H23 d).
    destruct (comps σ1 !! d), (comps σ2 !! d), (comps σ3 !! d); try done.
    destruct H12 as [? [?|?]], H23 as [? [?|?]]; split; try congruence;
      (by left; congruence) || (by right; congruence).
Qed.

Lemma ustep_lookup u σ σ' c a :
  ustep u σ σ' → comps σ !! c = Some a →
  ∃ b, comps σ' !! c = Some b ∧ with_ b = with_ a ∧ (url b = url a ∨ url b = u).
Proof.
  intros Hs Ha. specialize (Hs c). rewrite Ha in Hs.
  destruct (comps σ' !! c) as [b|]; [|done]. by exists b.
Qed.

Lemma ustep_lookup_inv u σ σ' c b :
  ustep u σ σ' → comps σ' !! c = Some b →
  ∃ a, comps σ !! c = Some a ∧ partials b = partials a.
Proof.
  intros Hs Hb. specialize (Hs c). rewrite Hb in Hs.
  destruct (comps σ !! c) as [a|]; [|done]. exists a. destruct Hs as [Hw _].
  unfold partials. by rewrite Hw.
Qed.

Lemma ustep_child u σ σ' c d : ustep u σ σ' → child σ c d ↔ child σ' c d.
Proof.
  intros Hs. split.
  - intros (a & k & Ha & Hk). destruct (ustep_lookup _ _ _ _ _ Hs Ha) as (b & Hb & Hp & _).
    exists b, k. unfold partials in *. by rewrite Hp.
  - intros (b & k & Hb & Hk). destruct (ustep_lookup_inv _ _ _ _ _ Hs Hb) as (a & Ha & Hp).
    exists a, k. by rewrite <-Hp.
Qed.

Lemma ustep_ranked u σ σ' rank : ustep u σ σ' → ranked σ rank → ranked σ' rank.
Proof.
  intros Hs Hr c b Hb k d Hk.
  destruct (ustep_lookup_inv _ _ _ _ _ Hs Hb) as (a & Ha & Hp).
  rewrite Hp in Hk. destruct (Hr _ _ Ha _ _ Hk) as [[x Hx] Hlt].
  destruct (ustep_lookup _ _ _ _ _ Hs Hx) as (y & Hy & _). by split; [exists y|].
Qed.

Lemma ustep_urlOf u σ σ' d : ustep u σ σ' → urlOf σ d = Some u → urlOf σ' d = Some u.
Proof.
  unfold urlOf. intros Hs Hu. destruct (comps σ !! d) as [a|] eqn:Ha; [|done].
  destruct (ustep_lookup _ _ _ _ _ Hs Ha) as (b & -> & _ & Hb).
  simpl in *. destruct Hb; congruence.
Qed.

Lemma ustep_reach u σ σ' c d : ustep u σ σ' → rtc (child σ) c d → rtc (child σ') c d.
Proof.
  intros Hs. induction 1 as [|x y z Hxy _ IH]; [done|].
  eapply rtc_l; [|done]. by apply (ustep_child u σ σ').
Qed.

Lemma ustep_modComp u c f σ v σ' :
  (∀ a, comps σ !! c = Some a →
        with_ (f a) = with_ a ∧ (url (f a) = url a ∨ url (f a) = u)) →
  modComp c f σ = Ok v σ' → ustep u σ σ'.
Proof.
  intros Hf (self & Hc & ->)%modComp_Ok d. simpl.
  destruct (decide (c = d)) as [<-|Hne].
  - rewrite lookup_insert_eq, Hc. by apply Hf.
  - rewrite lookup_insert_ne by done. destruct (comps σ !! d); auto.
Qed.

Lemma ustep_seed u σ n : ustep u σ (set_seed n σ).
Proof. intros d. simpl. destruct (comps σ !! d); auto. Qed.

(** What [SetURL] does when it returns: it sets URLs to [u], and it does
    so at the component and at everything below it. *)
Lemma SetURL_step fuel c u σ v σ' :
  SetURL fuel c u σ = Ok v σ' →
  ustep u σ σ' ∧ ∀ d, rtc (child σ) c d → urlOf σ' d = Some u.
Proof.
  revert c σ v σ'. induction fuel as [|fuel IH]; intros c σ v σ'; simpl; [done|].
  intros ([] & σ1 & Hm & (self & ? & [Hc ->]%getComp_Ok & (kids & σ2 & [= <- <-] &
    Hloop)%bind_Ok)%bind_Ok)%bind_Ok.
  assert (ustep u σ σ1) as Hs1.
  { eapply ustep_modComp; [|exact Hm]. intros a _. split; [done|by right]. }
  assert (urlOf σ1 c = Some u) as Hu1.
  { apply modComp_Ok in Hm as (a & Ha & ->). unfold urlOf. simpl.
    by rewrite lookup_insert_eq. }
  set (σ2 := set_seed (S (seed σ1)) σ1) in *.
  assert (ustep u σ1 σ2) as Hs2 by apply ustep_seed.
  assert (∀ (kids : list (string * loc)) σa σb,
    forEach kids (λ kv, SetURL fuel kv.2 u) σa = Ok tt σb →
    ustep u σa σb ∧
    ∀ kv d, kv ∈ kids → rtc (child σa) kv.2 d → urlOf σb d = Some u) as Hkids.
  { clear -IH. induction kids as [|kv kids IHk]; intros σa σb; simpl.
    - intros [= <-]. split; [reflexivity|]. intros kv d Hin. by apply elem_of_nil in Hin.
    - intros ([] & σm & Hkv & Hrest)%bind_Ok.
      destruct (IH _ _ _ _ Hkv) as [Hsm Hum].
      destruct (IHk _ _ Hrest) as [Hsb Hub].
      split; [by etrans|]. intros kv' d [->|Hin]%elem_of_cons Hd.
      + eapply ustep_urlOf; [done|]. by apply Hum.
      + eapply Hub; [done|]. by eapply ustep_reach. }
  destruct v. destruct (Hkids _ _ _ Hloop) as [Hs3 Hu3].
  split; [by etrans; [|etrans]|].
  intros d [->|(d1 & Hcd & Hd)]%rtc_inv.
  - eapply ustep_urlOf; [by etrans|done].
  - assert (child σ1 c d1) as (a & k & Ha & Hk) by (by apply (ustep_child u σ σ1)).
    rewrite Hc in Ha. injection Ha as <-.
    apply (Hu3 (k, d1)).
    + rewrite (ord_perm (seed σ1) loc (partials self)). by apply elem_of_map_to_list.
    + eapply ustep_reach; [|done]. by etrans.
Qed.

(** [SetURL] returns when the partials form no cycle. *)
Lemma SetURL_total rank fuel c u σ self :
  ranked σ rank → comps σ !! c = Some self → rank c < fuel →
  ∃ σ', SetURL fuel c u σ = Ok tt σ'.
Proof.
  revert c σ self. induction fuel as [|fuel IH]; intros c σ self Hr Hc Hlt; [lia|].
  set (σ1 := set_comps (<[c := set_url u self]> (comps σ)) σ).
  assert (modComp c (set_url u) σ = Ok tt σ1) as Hm by (apply modComp_Ok; eauto).
  assert (ustep u σ σ1) as Hs1.
  { eapply ustep_modComp; [|exact Hm]. intros a _. split; [done|by right]. }
  set (σ2 := set_seed (S (seed σ1)) σ1).
  assert (ranked σ2 rank) as Hr2.
  { eapply ustep_ranked; [|done]. etrans; [done|apply ustep_seed]. }
  assert (∀ (kids : list (string * loc)) σa,
    ranked σa rank →
    (∀ kv, kv ∈ kids → is_Some (comps σa !! kv.2) ∧ rank kv.2 < fuel) →
    ∃ σb, forEach kids (λ kv, SetURL fuel kv.2 u) σa = Ok tt σb) as Hkids.
  { clear -IH. induction kids as [|kv kids IHk]; intros σa Hra Hall; simpl.
    - by exists σa.
    - destruct (Hall kv) as [[a Ha] Hlt]; [by left|].
      destruct (IH _ _ _ Hra Ha Hlt) as [σm Hkv].
      apply SetURL_step in Hkv as Hsm. destruct Hsm as [Hsm _].
      destruct (IHk σm) as [σb Hb].
      + by eapply ustep_ranked.
      + intros kv' Hin. destruct (Hall kv') as [[b Hb] ?]; [by right|].
        destruct (ustep_lookup _ _ _ _ _ Hsm Hb) as (b' & Hb' & _). by split; [exists b'|].
      + exists σb. by rewrite (bind_eq _ _ _ _ _ Hkv). }
  destruct (Hkids (ord (seed σ1) loc (partials (set_url u self))) σ2 Hr2) as [σ' Hloop].
  { intros [k d] Hin. simpl.
    rewrite (ord_perm (seed σ1) loc (partials (set_url u self))) in Hin.
    apply elem_of_map_to_list in Hin.
    destruct (ranked_child σ2 rank c d Hr2) as [Hd Hlt'].
    - exists (set_url u self), k. split; [apply lookup_insert_eq|done].
    - split; [done|lia]. }
  exists σ'. simpl. rewrite (bind_eq _ _ _ _ _ Hm).
  rewrite (bind_eq _ _ σ1 (set_url u self) σ1)
    by (apply getComp_Ok; split; [apply lookup_insert_eq|done]).
  by rewrite (bind_eq _ _ σ1 (ord (seed σ1) loc (partials (set_url u self))) σ2).
Qed.

(** The partials as a relation do not change when a nil [with] map is
    replaced by an empty one, or when a partial is added. *)
Lemma ranked_set_with σ rank P self wm :
  ranked σ rank → comps σ !! P = Some self →
  (∀ k d, wm !! k = Some d → is_Some (comps σ !! d) ∧ rank d < rank P) →
  ranked (set_comps (<[P := set_with (Some wm) self]> (comps σ)) σ) rank.
Proof.
  intros Hr Hc Hwm c b Hb k d Hk. simpl in *.
  assert (is_Some (comps σ !! d) ∧ rank d < rank c) as [[x Hx] Hlt].
  { destruct (decide (P = c)) as [<-|Hne].
    - rewrite lookup_insert_eq in Hb. injection Hb as <-. by eapply Hwm.
    - rewrite lookup_insert_ne in Hb by done. by eapply Hr. }
  split; [|done]. destruct (decide (P = d)) as [<-|Hne].
  - rewrite lookup_insert_eq. by eexists.
  - rewrite lookup_insert_ne by done. by eexists.
Qed.

(** [With] registers the partial and, when the component has a URL,
    hands it to the partial at once. *)
Lemma With_spec rank fuel P C s σ selfP selfC :
  ranked σ rank → comps σ !! P = Some selfP → comps σ !! C = Some selfC →
  rank C < fuel →
  ∃ σ', With fuel P C s σ = Ok P σ' ∧ child σ' P C ∧
    match url selfP with
    | Some v => urlOf σ' C = Some (Some v)
    | None => urlOf σ' C = urlOf σ C
    end.
Proof.
  intros Hr HP HC Hlt. unfold With.
  rewrite (bind_eq _ _ σ selfP σ) by (by apply getComp_Ok).
  (* the [with] map is created when it is nil *)
  set (wm := partials selfP).
  assert (∃ σa selfa,
    match with_ selfP with
    | None => modComp P (set_with (Some ∅))
    | Some _ => ret tt
    end σ = Ok tt σa ∧
    comps σa !! P = Some selfa ∧ with_ selfa = Some wm ∧ url selfa = url selfP ∧
    ranked σa rank ∧ urlOf σa C = urlOf σ C ∧ is_Some (comps σa !! C))
    as (σa & selfa & Ha & HPa & Hwa & Hua & Hra & HuC & [selfCa HCa]).
  { unfold wm, partials. destruct (with_ selfP) as [wm0|] eqn:Hw.
    - exists σ, selfP. split_and!; try done; by eexists.
    - exists (set_comps (<[P := set_with (Some ∅) selfP]> (comps σ)) σ),
        (set_with (Some ∅) selfP).
      split_and!; try done.
      + apply modComp_Ok. eauto.
      + apply lookup_insert_eq.
      + by apply ranked_set_with.
      + unfold urlOf. simpl. destruct (decide (P = C)) as [<-|Hne].
        * by rewrite lookup_insert_eq, HP.
        * by rewrite lookup_insert_ne.
      + simpl. destruct (decide (P = C)) as [<-|Hne].
        * rewrite lookup_insert_eq. by eexists.
        * rewrite lookup_insert_ne by done. by eexists. }
  rewrite (bind_eq _ _ _ _ _ Ha).
  rewrite (bind_eq _ _ σa selfa σa) by (by apply getComp_Ok).
  rewrite Hua.
  (* the URL is propagated *)
  assert (∃ σb selfb,
    match url selfP with
    | Some u => SetURL fuel C (Some u)
    | None => ret tt
    end σa = Ok tt σb ∧
    comps σb !! P = Some selfb ∧ with_ selfb = Some wm ∧
    match url selfP with
    | Some v => urlOf σb C = Some (Some v)
    | None => urlOf σb C = urlOf σ C
    end) as (σb & selfb & Hb & HPb & Hwb & HuCb).
  { destruct (url selfP) as [v|].
    - destruct (SetURL_total rank fuel C (Some v) σa selfCa Hra HCa Hlt) as [σb Hb].
      destruct (SetURL_step _ _ _ _ _ _ Hb) as [Hs HuCb].
      destruct (ustep_lookup _ _ _ _ _ Hs HPa) as (selfb & HPb & Hwb & _).
      exists σb, selfb. split_and!; [done|done|congruence|by apply HuCb].
    - exists σa, selfa. by split_and!. }
  rewrite (bind_eq _ _ _ _ _ Hb).
  rewrite (bind_eq _ _ σb selfb σb) by (by apply getComp_Ok).
  rewrite Hwb.
  set (σ' := set_comps (<[P := set_with (Some (<[s := C]> wm)) selfb]> (comps σb)) σb).
  exists σ'. split_and!.
  - rewrite (bind_eq _ _ σb tt σ'); [done|]. apply modComp_Ok. eauto.
  - exists (set_with (Some (<[s := C]> wm)) selfb), s.
    split; [apply lookup_insert_eq|apply lookup_insert_eq].
  - assert (urlOf σ' C = urlOf σb C) as ->; [|done].
    unfold urlOf, σ'. simpl. destruct (decide (P = C)) as [<-|Hne].
    + by rewrite lookup_insert_eq, HPb.
    + by rewrite lookup_insert_ne.
Qed.

(** C5, as the code has it: [SetURL] on a component sets its URL and that
    of every partial registered at that moment, and of the partials below
    them.  A partial registered after that with [With] is given the URL of
    the component in that very call when the URL is not nil, and is left
    with the URL it has when the URL is nil. *)
Theorem SetURL_then_With rank fuel P C s u σ selfP selfC :
  ranked σ rank →
  comps σ !! P = Some selfP →
  comps σ !! C = Some selfC →
  rank P < fuel → rank C < fuel →
  ∃ σ1, SetURL fuel P u σ = Ok tt σ1 ∧
    (∀ d, rtc (child σ) P d → urlOf σ1 d = Some u) ∧
    ∃ σ2, With fuel P C s σ1 = Ok P σ2 ∧
      child σ2 P C ∧
      match u with
      | Some _ => urlOf σ2 C = Some u
      | None => urlOf σ2 C = urlOf σ1 C
      end.
Proof.
  intros Hr HP HC HltP HltC.
  destruct (SetURL_total rank fuel P u σ selfP Hr HP HltP) as [σ1 H1].
  destruct (SetURL_step _ _ _ _ _ _ H1) as [Hs Hu].
  exists σ1. split_and!; [done..|].
  destruct (ustep_lookup _ _ _ _ _ Hs HP) as (selfP1 & HP1 & _ & _).
  destruct (ustep_lookup _ _ _ _ _ Hs HC) as (selfC1 & HC1 & _ & _).
  destruct (With_spec rank fuel P C s σ1 selfP1 selfC1) as (σ2 & H2 & Hch & HuC);
    [by eapply ustep_ranked|done..|].
  assert (url selfP1 = u) as HuP.
  { specialize (Hu P (rtc_refl _ _)). unfold urlOf in Hu. rewrite HP1 in Hu.
    by injection Hu. }
  rewrite HuP in HuC. exists σ2. split_and!; [done..|].
  by destruct u.
Qed.

(** ** [Render] returns or panics

    The recursion of [Render] goes through components that are not marked
    in the context, and marks one more at each level: with more fuel than
    there are unmarked components, the bound of the model is not hit. *)

Lemma bind_finishes {A B} (m : M A) (k : A → M B) σ :
  m σ ≠ OutOfFuel → (∀ a σ1, m σ = Ok a σ1 → k a σ1 ≠ OutOfFuel) →
  bind m k σ ≠ OutOfFuel.
Proof.
  unfold bind. intros Hm Hk. destruct (m σ) as [a σ1| |]; [by apply Hk|done..].
Qed.

Lemma safe_ret {A} (a : A) : safe (ret a).
Proof. done. Qed.

Lemma safe_bind {A B} (m : M A) (k : A → M B) :
  safe m → (∀ a, safe (k a)) → safe (bind m k).
Proof. intros Hm Hk σ. apply bind_finishes; [apply Hm|]. intros a σ1 _. apply Hk. Qed.

Lemma safe_forEach {A} (l : list A) (body : A → M unit) :
  (∀ x, safe (body x)) → safe (forEach l body).
Proof. intros Hb. induction l; simpl; [apply safe_ret|by apply safe_bind]. Qed.

Lemma safe_getComp c : safe (getComp c).
Proof. intros σ. unfold getComp. by destruct (comps σ !! c). Qed.

Lemma safe_modComp c f : safe (modComp c f).
Proof. intros σ. unfold modComp. by destruct (comps σ !! c). Qed.

Lemma safe_assignIfAbsent r kv : safe (assignIfAbsent r kv).
Proof.
  unfold assignIfAbsent. apply safe_bind; [done|]. intros cur.
  destruct (cur !! kv.1); [done|]. by destruct r.
Qed.

Lemma safe_injectInto c d : safe (injectInto c d).
Proof.
  unfold injectInto, injectData, injectGlobalData.
  apply safe_bind; [apply safe_getComp|]. intros self.
  apply safe_bind.
  { apply safe_bind; [done|]. intros m. apply safe_bind; [done|]. intros kvs.
    apply safe_forEach. intros kv. apply safe_bind; [apply safe_getComp|].
    intros ?. apply safe_assignIfAbsent. }
  intros _. apply safe_bind; [apply safe_getComp|]. intros self'.
  apply safe_bind; [apply safe_getComp|]. intros child.
  apply safe_bind.
  { destruct (globalData child); [done|].
    apply safe_bind; [done|]. intros r. apply safe_modComp. }
  intros _. apply safe_bind; [done|]. intros m. apply safe_bind; [done|]. intros kvs.
  apply safe_forEach. intros kv. apply safe_bind; [apply safe_getComp|].
  intros ?. apply safe_assignIfAbsent.
Qed.

Lemma safe_addPartial c k h : safe (addPartial c k h).
Proof.
  unfold addPartial. apply safe_bind; [apply safe_getComp|]. intros self.
  destruct (partial self); [apply safe_modComp|done].
Qed.

Lemma safe_parseAndStore c name ts fm key : safe (parseAndStore c name ts fm key).
Proof.
  unfold parseAndStore. destruct (Funcs fm); [|done].
  apply safe_bind; [apply safe_getComp|]. intros self.
  destruct (ParseFS _ _ _ _); [|done]. by apply safe_bind.
Qed.

Lemma safe_renderNamed ctx c name ts input : safe (renderNamed ctx c name ts input).
Proof.
  unfold renderNamed. destruct ts as [|t0 ts]; [done|].
  apply safe_bind; [done|]. intros σ0.
  apply safe_bind; [by apply safe_bind|]. intros fm0.
  apply safe_bind; [apply safe_getComp|]. intros self.
  apply safe_bind.
  { destruct (functions self); [by apply safe_bind|done]. }
  intros fm. apply safe_bind; [by apply safe_bind|]. intros key.
  apply safe_bind; [done|]. intros σ1.
  apply safe_bind.
  { destruct (templateCache σ1 !! key); [|apply safe_parseAndStore].
    destruct (UseTemplateCache σ1); [done|apply safe_parseAndStore]. }
  intros [tmpl|e]; [|done].
  unfold executeTemplate. apply safe_bind; [done|]. intros σ2.
  apply safe_bind; [apply safe_getComp|]. intros self'.
  destruct tmpl as [t|]; [|done]. by destruct (Execute t _) as [buf [e|]].
Qed.

Lemma ext_dom σ σ' : ext σ σ' → dom (comps σ') = dom (comps σ).
Proof.
  intros Hext. apply set_eq. intros c. rewrite !elem_of_dom. split.
  - intros [b Hb]. destruct (comps σ !! c) as [a|] eqn:Ha; [by eexists|].
    by rewrite (ext_nil _ _ Hext _ Ha) in Hb.
  - intros [a Ha]. destruct (ext_comps _ _ Hext _ _ Ha) as (b & Hb & _). by eexists.
Qed.

Lemma forEachRet_finishes {A E} (D : gset loc) (l : list A) (body : A → M (option E)) :
  (∀ x σ, dom (comps σ) = D → body x σ ≠ OutOfFuel) →
  (∀ x, preserves (body x)) →
  ∀ σ, dom (comps σ) = D → forEachRet l body σ ≠ OutOfFuel.
Proof.
  intros Hb Hp. induction l as [|x l IH]; intros σ HD; simpl; [done|].
  apply bind_finishes; [by apply Hb|]. intros [e|] σ1 Hx; [done|].
  apply IH. by rewrite (ext_dom _ _ (Hp _ _ _ _ Hx)).
Qed.

Theorem Render_total (fuel : nat) ctx c σ :
  size (dom (comps σ) ∖ list_to_set ctx) < fuel →
  Render fuel ctx c σ ≠ OutOfFuel.
Proof.
  revert ctx c σ. induction fuel as [|fuel IH]; intros ctx c σ Hlt; [lia|]. simpl.
  destruct (Value ctx c) eqn:Hv; [done|].
  apply bool_decide_eq_false in Hv.
  apply bind_finishes; [apply safe_getComp|]. intros self ? [Hc ->]%getComp_Ok.
  apply bind_finishes; [done|]. intros kids σ1 [= <- <-].
  assert (size (dom (comps σ) ∖ list_to_set (WithValue ctx c)) < fuel) as Hlt'.
  { assert (dom (comps σ) ∖ list_to_set (WithValue ctx c)
              ⊂ dom (comps σ) ∖ list_to_set ctx) as Hsub%subset_size; [|lia].
    unfold WithValue. rewrite list_to_set_cons. split.
    - intros x [Hx Hn]%elem_of_difference. apply elem_of_difference.
      split; [done|]. intros Hx'. apply Hn, elem_of_union. by right.
    - intros Hsub. assert (c ∈ dom (comps σ) ∖ list_to_set (C := gset loc) ctx) as Hin.
      { apply elem_of_difference. split; [by apply elem_of_dom|].
        by rewrite elem_of_list_to_set. }
      apply Hsub, elem_of_difference in Hin as [_ Hn].
      apply Hn, elem_of_union. left. by apply elem_of_singleton. }
  apply bind_finishes.
  - apply (forEachRet_finishes (dom (comps σ))); [| |done].
    + intros kv σa HD. unfold renderPartial.
      apply bind_finishes; [apply safe_injectInto|]. intros [] σb Hi.
      apply bind_finishes.
      * apply IH. by rewrite (ext_dom _ _ (preserves_injectInto _ _ _ _ _ Hi)), HD.
      * intros [h [e|]] σc _; simpl; [done|]. apply safe_bind; [apply safe_addPartial|done].
    + intros kv. apply preserves_renderPartial. intros d. apply preserves_Render.
  - intros [e|] σL _; [done|].
    apply safe_bind; [apply safe_getComp|]. intros self'.
    destruct (templates self'); [done|apply safe_renderNamed].
Qed.

(** ** Writes that create the map

    [AddData], [AddGlobalData] and [injectGlobalData] (see
    [injectGlobalData_spec]) create the map they write to when it is nil;
    [injectData] does not (see [injectData_nil_panics]). *)

Lemma AddData_total c self key value σ :
  comps σ !! c = Some self → ∃ σ', AddData c key value σ = Ok c σ'.
Proof.
  intros Hc. unfold AddData.
  rewrite (bind_eq _ _ σ self σ) by (by apply getComp_Ok).
  destruct (templateData self) as [r|] eqn:Hr.
  - rewrite (bind_eq _ _ σ tt σ) by done.
    rewrite (bind_eq _ _ σ self σ) by (by apply getComp_Ok).
    rewrite Hr. by eexists.
  - set (a := fresh (dom (maps σ))).
    set (σa := set_maps (<[a := ∅]> (maps σ)) σ).
    set (σb := set_comps (<[c := set_templateData (Some a) self]> (comps σa)) σa).
    rewrite (bind_eq _ _ σ tt σb).
    2:{ rewrite (bind_eq _ _ σ (Some a) σa) by done. apply modComp_Ok. eauto. }
    rewrite (bind_eq _ _ σb (set_templateData (Some a) self) σb).
    2:{ apply getComp_Ok. split; [apply lookup_insert_eq|done]. }
    by eexists.
Qed.

Lemma AddGlobalData_total c self key value σ :
  comps σ !! c = Some self → ∃ σ', AddGlobalData c key value σ = Ok c σ'.
Proof.
  intros Hc. unfold AddGlobalData.
  rewrite (bind_eq _ _ σ self σ) by (by apply getComp_Ok).
  destruct (globalData self) as [r|] eqn:Hr.
  - rewrite (bind_eq _ _ σ tt σ) by done.
    rewrite (bind_eq _ _ σ self σ) by (by apply getComp_Ok).
    rewrite Hr. by eexists.
  - set (a := fresh (dom (maps σ))).
    set (σa := set_maps (<[a := ∅]> (maps σ)) σ).
    set (σb := set_comps (<[c := set_globalData (Some a) self]> (comps σa)) σa).
    rewrite (bind_eq _ _ σ tt σb).
    2:{ rewrite (bind_eq _ _ σ (Some a) σa) by done. apply modComp_Ok. eauto. }
    rewrite (bind_eq _ _ σb (set_globalData (Some a) self) σb).
    2:{ apply getComp_Ok. split; [apply lookup_insert_eq|done]. }
    by eexists.
Qed.

(** ** The template cache *)

Lemma foldl_insert_union {V} (kvs : list (string * V)) (dst : gmap string V) :
  NoDup kvs.*1 →
  foldl (λ acc kv, <[kv.1 := kv.2]> acc) dst kvs = list_to_map kvs ∪ dst.
Proof.
  revert dst. induction kvs as [|[k v] kvs IH]; intros dst Hnd; simpl.
  - by rewrite (left_id_L ∅ (∪)).
  - apply NoDup_cons in Hnd as [Hk Hnd]. rewrite IH by done.
    rewrite <-insert_union_l, <-insert_union_r; [done|].
    by apply not_elem_of_list_to_map_1.
Qed.

(** Copying a map into another gives their union, the copied entries
    winning, in whatever order the loop runs. *)
Lemma copyInto_spec {V} (src dst : gmap string V) σ :
  copyInto src dst σ = Ok (src ∪ dst) (set_seed (S (seed σ)) σ).
Proof.
  unfold copyInto.
  rewrite (bind_eq _ _ σ (ord (seed σ) V src) (set_seed (S (seed σ)) σ)) by done.
  unfold ret. f_equal. rewrite foldl_insert_union.
  - by rewrite ord_to_map.
  - rewrite (ord_perm (seed σ) V src). apply NoDup_fst_map_to_list.
Qed.

Lemma executeTemplate_run ctx c self input tmpl σ :
  comps σ !! c = Some self →
  executeTemplate ctx c input tmpl σ = Ok (executed tmpl (envelopeOf ctx σ self input)) σ.
Proof.
  intros Hc. unfold executeTemplate.
  rewrite (bind_eq _ _ σ σ σ) by done.
  rewrite (bind_eq _ _ σ self σ) by (by apply getComp_Ok).
  unfold executed, envelopeOf. destruct tmpl as [t|]; [|done].
  by destruct (Execute t _) as [buf [e|]].
Qed.

(** [renderNamed] up to the cache lookup: the function map is that of
    [effectiveFuncs] and the key that of [cacheKeyOf]. *)
Lemma renderNamed_lookup ctx c self name t0 ts input σ :
  comps σ !! c = Some self →
  renderNamed ctx c name (t0 :: ts) input σ =
  (tmpl <~ match templateCache σ !! cacheKeyOf σ self t0 with
           | Some tmpl =>
               if UseTemplateCache σ then ret (inl tmpl)
               else parseAndStore c name (t0 :: ts) (effectiveFuncs σ self)
                      (cacheKeyOf σ self t0)
           | None => parseAndStore c name (t0 :: ts) (effectiveFuncs σ self)
                       (cacheKeyOf σ self t0)
           end ;;
   match tmpl with
   | inr err => ret ("", Some err)
   | inl tmpl => executeTemplate ctx c input tmpl
   end) (afterKey σ self).
Proof.
  intros Hc. unfold renderNamed, cacheKeyOf, effectiveFuncs, afterKey.
  rewrite (bind_eq _ _ σ σ σ) by done.
  rewrite (bind_eq _ _ _ _ _ (copyInto_spec (DefaultTemplateFuncs σ) ∅ σ)).
  rewrite (right_id_L ∅ (∪)).
  set (σ1 := set_seed (S (seed σ)) σ).
  rewrite (bind_eq _ _ σ1 self σ1) by (by apply getComp_Ok).
  destruct (functions self) as [fm|]; cbn [default from_option id].
  - rewrite (bind_eq _ _ _ _ _ (copyInto_spec fm (DefaultTemplateFuncs σ) σ1)).
    rewrite (bind_eq _ _ _ _ _ (generateCacheKey_spec t0 ts _ _)).
    by rewrite (bind_eq _ _ _ _ _ (eq_refl : get _ = Ok _ _)).
  - rewrite (bind_eq _ _ σ1 (DefaultTemplateFuncs σ) σ1) by done.
    rewrite (left_id_L ∅ (∪)).
    rewrite (bind_eq _ _ _ _ _ (generateCacheKey_spec t0 ts _ _)).
    by rewrite (bind_eq _ _ _ _ _ (eq_refl : get _ = Ok _ _)).
Qed.

(** A cache hit.  With the cache enabled and a value stored under the key
    of the component, [renderNamed] neither checks nor parses anything:
    it returns what the stored value gives on the data of the component,
    and only the iteration counter of the state has moved. *)
Theorem renderNamed_cache_hit ctx c self name t0 ts input σ tmpl :
  comps σ !! c = Some self →
  templateCache σ !! cacheKeyOf σ self t0 = Some tmpl →
  UseTemplateCache σ = true →
  renderNamed ctx c name (t0 :: ts) input σ
  = Ok (executed tmpl (envelopeOf ctx σ self input)) (afterKey σ self).
Proof.
  intros Hc Hhit Huse. rewrite (renderNamed_lookup ctx c self) by done.
  rewrite Hhit, Huse.
  rewrite (bind_eq _ _ (afterKey σ self) (inl tmpl) (afterKey σ self)) by done.
  by rewrite (executeTemplate_run ctx c self).
Qed.

Lemma parseAndStore_run c self name ts F K σ :
  comps σ !! c = Some self →
  parseAndStore c name ts F K σ =
  if Funcs F then
    match ParseFS name F (fs self) ts with
    | inl t => Ok (inl (CacheTemplate t))
                 (set_templateCache (<[K := CacheTemplate t]> (templateCache σ)) σ)
    | inr e => Ok (inr (ErrHost e)) σ
    end
  else Panic.
Proof.
  intros Hc. unfold parseAndStore. destruct (Funcs F); [|done].
  rewrite (bind_eq _ _ σ self σ) by (by apply getComp_Ok).
  by destruct (ParseFS name F (fs self) ts).
Qed.

(** A cache miss, or the cache disabled.  [renderNamed] parses the
    templates with the function map of [effectiveFuncs] (the functions of
    the component over the package defaults), stores the result under the
    key of the component, also when the cache is disabled, and executes
    it. *)
Theorem renderNamed_parses_and_stores ctx c self name t0 ts input σ t :
  comps σ !! c = Some self →
  templateCache σ !! cacheKeyOf σ self t0 = None ∨ UseTemplateCache σ = false →
  Funcs (effectiveFuncs σ self) = true →
  ParseFS name (effectiveFuncs σ self) (fs self) (t0 :: ts) = inl t →
  renderNamed ctx c name (t0 :: ts) input σ
  = Ok (executed (CacheTemplate t) (envelopeOf ctx σ self input))
      (set_templateCache (<[cacheKeyOf σ self t0 := CacheTemplate t]> (templateCache σ))
         (afterKey σ self)).
Proof.
  intros Hc Hmiss Hfuncs Hparse. rewrite (renderNamed_lookup ctx c self) by done.
  set (σk := afterKey σ self).
  set (σ' := set_templateCache
               (<[cacheKeyOf σ self t0 := CacheTemplate t]> (templateCache σ)) σk).
  assert (parseAndStore c name (t0 :: ts) (effectiveFuncs σ self) (cacheKeyOf σ self t0) σk
          = Ok (inl (CacheTemplate t)) σ') as Hps.
  { rewrite (parseAndStore_run c self) by done. by rewrite Hfuncs, Hparse. }
  rewrite (bind_eq _ _ σk (inl (CacheTemplate t)) σ').
  - by rewrite (executeTemplate_run ctx c self).
  - destruct (templateCache σ !! cacheKeyOf σ self t0) as [tmpl|]; [|done].
    destruct Hmiss as [?| ->]; done.
Qed.

(** A parse that fails leaves the cache as it is.  On a cache miss (or
    with the cache disabled), [renderNamed] panics when [template.Funcs]
    rejects the function map, and returns the error of the parse, with no
    markup and nothing stored, when the parse fails. *)
Theorem renderNamed_parse_failure ctx c self name t0 ts input σ :
  comps σ !! c = Some self →
  templateCache σ !! cacheKeyOf σ self t0 = None ∨ UseTemplateCache σ = false →
  (Funcs (effectiveFuncs σ self) = false →
   renderNamed ctx c name (t0 :: ts) input σ = Panic) ∧
  (∀ e, Funcs (effectiveFuncs σ self) = true →
        ParseFS name (effectiveFuncs σ self) (fs self) (t0 :: ts) = inr e →
        renderNamed ctx c name (t0 :: ts) input σ
        = Ok ("", Some (ErrHost e)) (afterKey σ self)).
Proof.
  intros Hc Hmiss.
  assert (renderNamed ctx c name (t0 :: ts) input σ =
          (tmpl <~ parseAndStore c name (t0 :: ts) (effectiveFuncs σ self)
                     (cacheKeyOf σ self t0) ;;
           match tmpl with
           | inr err => ret ("", Some err)
           | inl tmpl => executeTemplate ctx c input tmpl
           end) (afterKey σ self)) as ->.
  { rewrite (renderNamed_lookup ctx c self) by done.
    destruct (templateCache σ !! cacheKeyOf σ self t0) as [tmpl|]; [|done].
    destruct Hmiss as [?| ->]; done. }
  split.
  - intros Hf. unfold bind. rewrite (parseAndStore_run c self) by done. by rewrite Hf.
  - intros e Hf Hp. unfold bind. rewrite (parseAndStore_run c self) by done.
    by rewrite Hf, Hp.
Qed.

Lemma envelopeOf_maps ctx σ σ' self input :
  maps σ' = maps σ → envelopeOf ctx σ' self input = envelopeOf ctx σ self input.
Proof.
  intros Hm. unfold envelopeOf, snapshot, deref. by rewrite Hm.
Qed.

Lemma executed_Ok tmpl data h :
  executed tmpl data = (h, None) → ∃ t, tmpl = CacheTemplate t ∧ Execute t data = (h, None).
Proof.
  unfold executed. destruct tmpl as [t|]; [|done].
  destruct (Execute t data) as [buf [e|]] eqn:He; [done|].
  intros [= <-]. by exists t.
Qed.

(** A successful [renderNamed] leaves a template under the key of the
    component, and its markup is what that template gives. *)
Lemma renderNamed_success_cache ctx c self name t0 ts input σ h σ' :
  comps σ !! c = Some self →
  renderNamed ctx c name (t0 :: ts) input σ = Ok (h, None) σ' →
  ∃ t, templateCache σ' !! cacheKeyOf σ self t0 = Some (CacheTemplate t) ∧
       Execute t (envelopeOf ctx σ self input) = (h, None) ∧
       comps σ' = comps σ ∧ maps σ' = maps σ ∧
       DefaultTemplateFuncs σ' = DefaultTemplateFuncs σ.
Proof.
  intros Hc. rewrite (renderNamed_lookup ctx c self) by done.
  set (σk := afterKey σ self).
  assert (∀ σ1, comps σ1 !! c = Some self → maps σ1 = maps σ →
            ∀ tmpl, executeTemplate ctx c input tmpl σ1 = Ok (h, None) σ' →
            σ' = σ1 ∧ ∃ t, tmpl = CacheTemplate t ∧
              Execute t (envelopeOf ctx σ self input) = (h, None)) as Hex.
  { intros σ1 Hc1 Hm1 tmpl. rewrite (executeTemplate_run ctx c self) by done.
    intros [= Hx <-]. split; [done|].
    rewrite (envelopeOf_maps ctx σ σ1) in Hx by done. by apply executed_Ok. }
  assert (∀ r σ1, parseAndStore c name (t0 :: ts) (effectiveFuncs σ self)
                    (cacheKeyOf σ self t0) σk = Ok r σ1 →
            match r with
            | inr err => ret ("", Some err)
            | inl tmpl => executeTemplate ctx c input tmpl
            end σ1 = Ok (h, None) σ' →
            ∃ t, templateCache σ' !! cacheKeyOf σ self t0 = Some (CacheTemplate t) ∧
                 Execute t (envelopeOf ctx σ self input) = (h, None) ∧
                 comps σ' = comps σ ∧ maps σ' = maps σ ∧
                 DefaultTemplateFuncs σ' = DefaultTemplateFuncs σ) as Hps.
  { intros r σ1. rewrite (parseAndStore_run c self) by done.
    destruct (Funcs _); [|done].
    destruct (ParseFS _ _ _ _) as [t|e]; intros [= <- <-]; [|done].
    intros Hrun. apply Hex in Hrun as (-> & t' & [= <-] & Hx); [|done..].
    exists t. split_and!; [apply lookup_insert_eq|done..]. }
  intros (r & σ1 & Hr & Hk)%bind_Ok.
  destruct (templateCache σ !! cacheKeyOf σ self t0) as [tmpl|] eqn:Hhit; [|by eapply Hps].
  destruct (UseTemplateCache σ); [|by eapply Hps].
  injection Hr as <- <-.
  apply Hex in Hk as (-> & t & -> & Hx); [|done..].
  exists t. by split_and!.
Qed.

(** Every successful [Render] leaves a compiled template in the cache
    under the key of the component, whether the cache is enabled or not,
    and the markup returned is what that template gives on the data of
    the component. *)
Theorem Render_populates_cache fuel ctx c σ h σ' :
  Render fuel ctx c σ = Ok (h, None) σ' →
  ∃ self' t0 ts t,
    comps σ' !! c = Some self' ∧ templates self' = t0 :: ts ∧
    templateCache σ' !! cacheKeyOf σ' self' t0 = Some (CacheTemplate t) ∧
    Execute t (envelopeOf (WithValue ctx c) σ' self' (templateData self')) = (h, None).
Proof.
  destruct fuel as [|fuel]; [done|]. simpl.
  destruct (Value ctx c); [done|].
  intros (self & ? & [Hc ->]%getComp_Ok & (kids & σk & _ &
    (r & σL & _ & Hk)%bind_Ok)%bind_Ok)%bind_Ok.
  destruct r as [e|]; [done|].
  apply bind_Ok in Hk as (selfL & ? & [HcL ->]%getComp_Ok & Hk).
  destruct (templates selfL) as [|t0 ts] eqn:Hts; [done|].
  destruct (renderNamed_success_cache _ _ _ _ _ _ _ _ _ _ HcL Hk)
    as (t & Hcache & Hx & Hcs & Hms & Hfs).
  exists selfL, t0, ts, t. split_and!; [by rewrite Hcs|done| |].
  - unfold cacheKeyOf, effectiveFuncs in *. by rewrite Hfs.
  - by rewrite (envelopeOf_maps _ σL σ').
Qed.

(** ** The data API *)

(** [AddData] is last-writer-wins and creates the map when it is nil: on
    every allocated component it returns, the map of the component is the
    old one with the key set to the value (an entry under the key is
    overwritten), the record of a component whose map was not nil is
    unchanged, and no other component is touched. *)
Theorem AddData_overwrites c self key value σ :
  comps σ !! c = Some self →
  ∃ σ' self', AddData c key value σ = Ok c σ' ∧
    comps σ' !! c = Some self' ∧
    is_Some (templateData self') ∧
    deref σ' (templateData self') = <[key := value]> (deref σ (templateData self)) ∧
    (∀ r, templateData self = Some r → self' = self) ∧
    (∀ d, d ≠ c → comps σ' !! d = comps σ !! d).
Proof.
  intros Hc. unfold AddData.
  rewrite (bind_eq _ _ σ self σ) by (by apply getComp_Ok).
  destruct (templateData self) as [r|] eqn:Hr.
  - rewrite (bind_eq _ _ σ tt σ) by done.
    rewrite (bind_eq _ _ σ self σ) by (by apply getComp_Ok).
    rewrite Hr.
    exists (set_maps (<[r := <[key := value]> (deref σ (Some r))]> (maps σ)) σ), self.
    split_and!; [done|done|by rewrite Hr| |done|done].
    rewrite Hr. cbn [deref maps set_maps]. by rewrite lookup_insert_eq.
  - set (a := fresh (dom (maps σ))).
    set (σa := set_maps (<[a := ∅]> (maps σ)) σ).
    set (self' := set_templateData (Some a) self).
    set (σb := set_comps (<[c := self']> (comps σa)) σa).
    rewrite (bind_eq _ _ σ tt σb).
    2:{ rewrite (bind_eq _ _ σ (Some a) σa) by done. apply modComp_Ok. eauto. }
    rewrite (bind_eq _ _ σb self' σb).
    2:{ apply getComp_Ok. split; [apply lookup_insert_eq|done]. }
    exists (set_maps (<[a := <[key := value]> (deref σb (Some a))]> (maps σb)) σb), self'.
    split_and!.
    + done.
    + apply lookup_insert_eq.
    + by eexists.
    + cbn [self' set_templateData templateData deref maps set_maps σb σa set_comps].
      by rewrite !lookup_insert_eq.
    + done.
    + intros d Hd. cbn [comps set_maps σb σa set_comps]. by rewrite lookup_insert_ne.
Qed.

(** [AddGlobalData], likewise. *)
Theorem AddGlobalData_overwrites c self key value σ :
  comps σ !! c = Some self →
  ∃ σ' self', AddGlobalData c key value σ = Ok c σ' ∧
    comps σ' !! c = Some self' ∧
    is_Some (globalData self') ∧
    deref σ' (globalData self') = <[key := value]> (deref σ (globalData self)) ∧
    (∀ r, globalData self = Some r → self' = self) ∧
    (∀ d, d ≠ c → comps σ' !! d = comps σ !! d).
Proof.
  intros Hc. unfold AddGlobalData.
  rewrite (bind_eq _ _ σ self σ) by (by apply getComp_Ok).
  destruct (globalData self) as [r|] eqn:Hr.
  - rewrite (bind_eq _ _ σ tt σ) by done.
    rewrite (bind_eq _ _ σ self σ) by (by apply getComp_Ok).
    rewrite Hr.
    exists (set_maps (<[r := <[key := value]> (deref σ (Some r))]> (maps σ)) σ), self.
    split_and!; [done|done|by rewrite Hr| |done|done].
    rewrite Hr. cbn [deref maps set_maps]. by rewrite lookup_insert_eq.
  - set (a := fresh (dom (maps σ))).
    set (σa := set_maps (<[a := ∅]> (maps σ)) σ).
    set (self' := set_globalData (Some a) self).
    set (σb := set_comps (<[c := self']> (comps σa)) σa).
    rewrite (bind_eq _ _ σ tt σb).
    2:{ rewrite (bind_eq _ _ σ (Some a) σa) by done. apply modComp_Ok. eauto. }
    rewrite (bind_eq _ _ σb self' σb).
    2:{ apply getComp_Ok. split; [apply lookup_insert_eq|done]. }
    exists (set_maps (<[a := <[key := value]> (deref σb (Some a))]> (maps σb)) σb), self'.
    split_and!.
    + done.
    + apply lookup_insert_eq.
    + by eexists.
    + cbn [self' set_globalData globalData deref maps set_maps σb σa set_comps].
      by rewrite !lookup_insert_eq.
    + done.
    + intros d Hd. cbn [comps set_maps σb σa set_comps]. by rewrite lookup_insert_ne.
Qed.

(** [SetData] puts the given reference in the component, as it is: the
    contents of every map are what they were. *)
Lemma SetData_spec c self input σ :
  comps σ !! c = Some self →
  ∃ σ', SetData c input σ = Ok c σ' ∧
    comps σ' = <[c := set_templateData input self]> (comps σ) ∧
    ∀ r, deref σ' r = deref σ r.
Proof.
  intros Hc. unfold SetData.
  rewrite (bind_eq _ _ σ self σ) by (by apply getComp_Ok).
  destruct (templateData self) as [r0|] eqn:Hr.
  - rewrite (bind_eq _ _ σ tt σ) by done.
    set (σ' := set_comps (<[c := set_templateData input self]> (comps σ)) σ).
    exists σ'. split_and!; [|done..].
    rewrite (bind_eq _ _ σ tt σ'); [done|]. apply modComp_Ok. eauto.
  - set (a := fresh (dom (maps σ))).
    set (σa := set_maps (<[a := ∅]> (maps σ)) σ).
    set (σb := set_comps (<[c := set_templateData (Some a) self]> (comps σa)) σa).
    set (σ' := set_comps (<[c := set_templateData input (set_templateData (Some a) self)]>
                            (comps σb)) σb).
    exists σ'. split_and!.
    + rewrite (bind_eq _ _ σ tt σb).
      2:{ rewrite (bind_eq _ _ σ (Some a) σa) by done. apply modComp_Ok. eauto. }
      rewrite (bind_eq _ _ σb tt σ'); [done|].
      apply modComp_Ok. eexists. split; [apply lookup_insert_eq|done].
    + cbn [σ' σb σa comps set_comps set_maps]. by rewrite insert_insert_eq.
    + intros [r|]; [|done]. cbn [deref maps σ' σb σa set_comps set_maps].
      destruct (decide (a = r)) as [<-|Hne].
      * rewrite lookup_insert_eq. exact (eq_sym (deref_fresh σ)).
      * by rewrite lookup_insert_ne.
Qed.

(** [SetData] does not copy: two components given one map share it, and
    what [AddData] writes through one is in the data of the other. *)
Theorem SetData_shares_map c1 c2 self1 self2 r key value σ :
  comps σ !! c1 = Some self1 →
  comps σ !! c2 = Some self2 →
  ∃ σ' self2',
    (_ <~ SetData c1 (Some r) ;; _ <~ SetData c2 (Some r) ;; AddData c1 key value) σ
      = Ok c1 σ' ∧
    comps σ' !! c2 = Some self2' ∧
    templateData self2' = Some r ∧
    deref σ' (Some r) = <[key := value]> (deref σ (Some r)).
Proof.
  intros H1 H2.
  destruct (SetData_spec c1 self1 (Some r) σ H1) as (σ1 & Hrun1 & Hcs1 & Hd1).
  assert (∃ s2, comps σ1 !! c2 = Some s2) as [s2 Hs2].
  { rewrite Hcs1. destruct (decide (c1 = c2)) as [<-|Hne].
    - rewrite lookup_insert_eq. by eexists.
    - rewrite lookup_insert_ne by done. by eexists. }
  destruct (SetData_spec c2 s2 (Some r) σ1 Hs2) as (σ2 & Hrun2 & Hcs2 & Hd2).
  assert (∃ s1, comps σ2 !! c1 = Some s1 ∧ templateData s1 = Some r) as (s1 & Hs1 & Ht1).
  { rewrite Hcs2. destruct (decide (c2 = c1)) as [->|Hne].
    - rewrite lookup_insert_eq. by eexists.
    - rewrite lookup_insert_ne, Hcs1, lookup_insert_eq by done. by eexists. }
  destruct (AddData_total c1 s1 key value σ2 Hs1) as [σ' Hrun3].
  assert (comps σ' = comps σ2 ∧
          deref σ' (Some r) = <[key := value]> (deref σ2 (Some r))) as [Hcs3 Hd3].
  { revert Hrun3. unfold AddData.
    rewrite (bind_eq _ _ σ2 s1 σ2) by (by apply getComp_Ok). rewrite Ht1.
    rewrite (bind_eq _ _ σ2 tt σ2) by done.
    rewrite (bind_eq _ _ σ2 s1 σ2) by (by apply getComp_Ok). rewrite Ht1.
    intros [= <-]. split; [done|].
    cbn [deref maps set_maps]. by rewrite lookup_insert_eq. }
  exists σ', (set_templateData (Some r) s2). split_and!.
  - rewrite (bind_eq _ _ _ _ _ Hrun1), (bind_eq _ _ _ _ _ Hrun2). done.
  - rewrite Hcs3, Hcs2. apply lookup_insert_eq.
  - done.
  - by rewrite Hd3, Hd2, Hd1.
Qed.

(** ** Configuration: [Reset], [Attach], the functions, [Wrap] *)

(** [Reset] gives the component two new, empty data maps, empty partial
    results, no partial and no URL, and keeps its templates, functions,
    file system and the two fields of [Wrap].  The maps it had are
    dropped, not cleared: every map of the store is as it was.  Nothing
    else changes, so the cache key of the component is the same and the
    cache still holds what it held. *)
Theorem Reset_keeps_configuration c self σ :
  comps σ !! c = Some self →
  ∃ σ' self' r1 r2, Reset c σ = Ok c σ' ∧
    comps σ' !! c = Some self' ∧
    templates self' = templates self ∧ functions self' = functions self ∧
    fs self' = fs self ∧ wrappedRenderer self' = wrappedRenderer self ∧
    wrappedTarget self' = wrappedTarget self ∧
    url self' = None ∧ with_ self' = Some ∅ ∧ partial self' = Some ∅ ∧
    templateData self' = Some r1 ∧ globalData self' = Some r2 ∧ r1 ≠ r2 ∧
    (r1 ∉ dom (maps σ)) ∧ (r2 ∉ dom (maps σ)) ∧
    deref σ' (Some r1) = ∅ ∧ deref σ' (Some r2) = ∅ ∧
    (∀ r, r ∈ dom (maps σ) → maps σ' !! r = maps σ !! r) ∧
    (∀ d, d ≠ c → comps σ' !! d = comps σ !! d) ∧
    templateCache σ' = templateCache σ ∧
    (∀ t0, cacheKeyOf σ' self' t0 = cacheKeyOf σ self t0).
Proof.
  intros Hc. unfold Reset.
  set (a1 := fresh (dom (maps σ))).
  set (σ1 := set_maps (<[a1 := ∅]> (maps σ)) σ).
  set (s1 := set_templateData (Some a1) self).
  set (σ2 := set_comps (<[c := s1]> (comps σ1)) σ1).
  set (a2 := fresh (dom (maps σ2))).
  set (σ3 := set_maps (<[a2 := ∅]> (maps σ2)) σ2).
  set (s2 := set_globalData (Some a2) s1).
  set (σ4 := set_comps (<[c := s2]> (comps σ3)) σ3).
  set (s3 := set_partial (Some ∅) s2).
  set (σ5 := set_comps (<[c := s3]> (comps σ4)) σ4).
  set (s4 := set_with (Some ∅) s3).
  set (σ6 := set_comps (<[c := s4]> (comps σ5)) σ5).
  set (s5 := set_url None s4).
  set (σ7 := set_comps (<[c := s5]> (comps σ6)) σ6).
  assert (a1 ∉ dom (maps σ)) as Ha1 by apply is_fresh.
  assert (a2 ∉ dom (maps σ2)) as Ha2 by apply is_fresh.
  assert (a2 ≠ a1 ∧ a2 ∉ dom (maps σ)) as [Hne Ha2'].
  { cbn [maps σ2 σ1 set_comps set_maps] in Ha2. rewrite dom_insert in Ha2.
    apply not_elem_of_union in Ha2 as [Ha2 ?]. split; [|done].
    by apply not_elem_of_singleton in Ha2. }
  exists σ7, s5, a1, a2. split_and!; try done.
  - rewrite (bind_eq _ _ σ (Some a1) σ1) by done.
    rewrite (bind_eq _ _ σ1 tt σ2) by (apply modComp_Ok; eauto).
    rewrite (bind_eq _ _ σ2 (Some a2) σ3) by done.
    rewrite (bind_eq _ _ σ3 tt σ4)
      by (apply modComp_Ok; eexists; split; [apply lookup_insert_eq|done]).
    rewrite (bind_eq _ _ σ4 tt σ5)
      by (apply modComp_Ok; eexists; split; [apply lookup_insert_eq|done]).
    rewrite (bind_eq _ _ σ5 tt σ6)
      by (apply modComp_Ok; eexists; split; [apply lookup_insert_eq|done]).
    rewrite (bind_eq _ _ σ6 tt σ7)
      by (apply modComp_Ok; eexists; split; [apply lookup_insert_eq|done]).
    done.
  - apply lookup_insert_eq.
  - cbn [deref maps σ7 σ6 σ5 σ4 σ3 σ2 σ1 set_comps set_maps].
    by rewrite lookup_insert_ne, lookup_insert_eq.
  - cbn [deref maps σ7 σ6 σ5 σ4 σ3 σ2 σ1 set_comps set_maps].
    by rewrite lookup_insert_eq.
  - intros r Hr. cbn [maps σ7 σ6 σ5 σ4 σ3 σ2 σ1 set_comps set_maps].
    rewrite !lookup_insert_ne; [done|..]; intros <-; done.
  - intros d Hd. cbn [comps σ7 σ6 σ5 σ4 σ3 σ2 σ1 set_comps set_maps].
    by rewrite !lookup_insert_ne.
Qed.

(** [Attach] adds the template at the end of the list, so on a component
    that has a template the entry template and the cache key are what
    they were: with the cache enabled and a value stored under that key,
    the next [renderNamed] executes the stored value and does not parse
    the attached template. *)
Theorem Attach_keeps_cache_key c self t0 ts t σ :
  comps σ !! c = Some self →
  templates self = t0 :: ts →
  ∃ σ' self', Attach c t σ = Ok c σ' ∧
    comps σ' !! c = Some self' ∧
    templates self' = t0 :: ts ++ [t] ∧
    cacheKeyOf σ' self' t0 = cacheKeyOf σ self t0 ∧
    templateCache σ' = templateCache σ ∧
    ∀ ctx name input tmpl,
      templateCache σ !! cacheKeyOf σ self t0 = Some tmpl →
      UseTemplateCache σ = true →
      renderNamed ctx c name (templates self') input σ'
      = Ok (executed tmpl (envelopeOf ctx σ' self' input)) (afterKey σ' self').
Proof.
  intros Hc Hts.
  set (self' := set_templates (templates self ++ [t]) self).
  set (σ' := set_comps (<[c := self']> (comps σ)) σ).
  assert (comps σ' !! c = Some self') as Hc' by apply lookup_insert_eq.
  exists σ', self'. split_and!; [|done| |done|done|].
  - unfold Attach. rewrite (bind_eq _ _ σ tt σ'); [done|]. apply modComp_Ok. eauto.
  - cbn [self' templates set_templates]. by rewrite Hts.
  - intros ctx name input tmpl Hhit Huse.
    cbn [self' templates set_templates]. rewrite Hts. cbn [app].
    rewrite (renderNamed_lookup ctx c self') by done.
    change (templateCache σ' !! cacheKeyOf σ' self' t0)
      with (templateCache σ !! cacheKeyOf σ self t0).
    change (UseTemplateCache σ') with (UseTemplateCache σ).
    rewrite Hhit, Huse.
    rewrite (bind_eq _ _ (afterKey σ' self') (inl tmpl) (afterKey σ' self')) by done.
    by rewrite (executeTemplate_run ctx c self').
Qed.

(** [AddTemplateFunction] registers the function under the name, over an
    earlier registration and over a package default of that name, and
    leaves the other names alone.  When the name was among the effective
    function names already, the cache key does not change: a template
    compiled with the function that was there is still what the cache
    gives for the component. *)
Theorem AddTemplateFunction_overrides c self name function σ :
  comps σ !! c = Some self →
  ∃ σ' self', AddTemplateFunction c name function σ = Ok c σ' ∧
    comps σ' !! c = Some self' ∧
    effectiveFuncs σ' self' = <[name := function]> (effectiveFuncs σ self) ∧
    templateCache σ' = templateCache σ ∧
    (is_Some (effectiveFuncs σ self !! name) →
     ∀ t0, cacheKeyOf σ' self' t0 = cacheKeyOf σ self t0).
Proof.
  intros Hc.
  set (self' := set_functions (Some (<[name := function]> (default ∅ (functions self)))) self).
  set (σ' := set_comps (<[c := self']> (comps σ)) σ).
  assert (effectiveFuncs σ' self' = <[name := function]> (effectiveFuncs σ self)) as Heff.
  { unfold effectiveFuncs. cbn [self' σ' functions set_functions default from_option id
      DefaultTemplateFuncs set_comps]. by rewrite insert_union_l. }
  exists σ', self'. split_and!; [|apply lookup_insert_eq|done|done|].
  - unfold AddTemplateFunction. rewrite (bind_eq _ _ σ tt σ'); [done|].
    apply modComp_Ok. eauto.
  - intros [f Hf] t0. unfold cacheKeyOf. rewrite Heff. f_equal.
    rewrite dom_insert_L. apply set_eq. intros x.
    rewrite elem_of_union, elem_of_singleton. split; [|by right].
    intros [->|?]; [|done]. apply elem_of_dom. by exists f.
Qed.

(** [AddTemplateFunctions] merges the given functions over those of the
    component, whatever the order of the loop. *)
Theorem AddTemplateFunctions_merges c self funcs σ :
  comps σ !! c = Some self →
  ∃ σ' self', AddTemplateFunctions c funcs σ = Ok c σ' ∧
    comps σ' !! c = Some self' ∧
    functions self' = Some (funcs ∪ default ∅ (functions self)) ∧
    effectiveFuncs σ' self' = funcs ∪ effectiveFuncs σ self.
Proof.
  intros Hc.
  set (fm := funcs ∪ default ∅ (functions self)).
  set (σ1 := set_seed (S (seed σ)) σ).
  set (self' := set_functions (Some fm) self).
  set (σ' := set_comps (<[c := self']> (comps σ1)) σ1).
  exists σ', self'. split_and!; [|apply lookup_insert_eq|done|].
  - unfold AddTemplateFunctions.
    rewrite (bind_eq _ _ σ self σ) by (by apply getComp_Ok).
    rewrite (bind_eq _ _ _ _ _ (copyInto_spec funcs (default ∅ (functions self)) σ)).
    rewrite (bind_eq _ _ σ1 tt σ'); [done|]. apply modComp_Ok. eauto.
  - unfold effectiveFuncs. cbn [self' σ' σ1 functions set_functions default from_option id
      DefaultTemplateFuncs set_comps set_seed]. unfold fm. by rewrite (assoc_L (∪)).
Qed.

(** [Wrap] and its accessors: after [Wrap], [wrapper] and [target] give
    what was set and [isWrapped] tells whether the renderer is not nil.
    Nothing else is set: the component is the same but for the two
    fields, and it is not registered as a partial of the renderer. *)
Theorem Wrap_sets_wrapper_only c self renderer tgt σ :
  comps σ !! c = Some self →
  ∃ σ' self', Wrap c renderer tgt σ = Ok c σ' ∧
    comps σ' !! c = Some self' ∧
    wrapper self' = renderer ∧ target self' = tgt ∧
    isWrapped self' = bool_decide (is_Some renderer) ∧
    unwrapped self' = unwrapped self ∧
    (∀ d, d ≠ c → comps σ' !! d = comps σ !! d) ∧
    (∀ a b, child σ' a b ↔ child σ a b).
Proof.
  intros Hc.
  set (self' := set_wrapped renderer tgt self).
  set (σ' := set_comps (<[c := self']> (comps σ)) σ).
  assert (comps σ' !! c = Some self') as Hc' by apply lookup_insert_eq.
  exists σ', self'. split_and!; [|done|done|done| |done| |].
  - unfold Wrap. rewrite (bind_eq _ _ σ tt σ'); [done|]. apply modComp_Ok. eauto.
  - unfold isWrapped. cbn [self' wrappedRenderer set_wrapped]. by destruct renderer.
  - intros d Hd. cbn [σ' comps set_comps]. by rewrite lookup_insert_ne.
  - intros a b. unfold child. cbn [σ' comps set_comps].
    destruct (decide (c = a)) as [<-|Hne].
    + rewrite lookup_insert_eq. split.
      * intros (x & k & [= <-] & Hk). by exists self, k.
      * intros (x & k & Hx & Hk). rewrite Hc in Hx. injection Hx as <-. by exists self', k.
    + by rewrite lookup_insert_ne.
Qed.

(** ** [SetURL] and [With] on graphs of partials *)

Lemma nsteps_mono {A} (R1 R2 : relation A) n x y :
  (∀ a b, R1 a b → R2 a b) → nsteps R1 n x y → nsteps R2 n x y.
Proof.
  intros Hsub. induction 1 as [|n x y z Hxy _ IH]; [constructor|].
  eapply nsteps_l; [by apply Hsub|done].
Qed.

(** Around a cycle there are paths of every length. *)
Lemma cycle_long_paths {A} (R : relation A) c d :
  rtc R c d → tc R d d → ∀ k : nat, ∃ n : nat, (k ≤ n)%nat ∧ nsteps R n c d.
Proof.
  intros [n0 Hn0]%rtc_nsteps (m & Hm & Hcyc)%tc_nsteps k.
  induction k as [|k (n & Hle & Hn)].
  - exists n0. split; [lia|done].
  - exists (n + m)%nat. split; [lia|]. by eapply nsteps_trans.
Qed.

(** A call of [SetURL] that returns went down every path of partials
    from its component, one level of recursion for each step. *)
Lemma SetURL_depth fuel c u σ v σ' :
  SetURL fuel c u σ = Ok v σ' →
  ∀ (n : nat) d, nsteps (child σ) n c d → (n < fuel)%nat.
Proof.
  revert c σ v σ'. induction fuel as [|fuel IH]; intros c σ v σ'; simpl; [done|].
  intros ([] & σ1 & Hm & (self & ? & [Hc ->]%getComp_Ok & (kids & σ2 & [= <- <-] &
    Hloop)%bind_Ok)%bind_Ok)%bind_Ok.
  assert (ustep u σ σ1) as Hs1.
  { eapply ustep_modComp; [|exact Hm]. intros a _. split; [done|by right]. }
  set (σ2 := set_seed (S (seed σ1)) σ1) in *.
  assert (ustep u σ1 σ2) as Hs2 by apply ustep_seed.
  assert (∀ (kids : list (string * loc)) σa σb,
    forEach kids (λ kv, SetURL fuel kv.2 u) σa = Ok tt σb →
    ∀ kv (n : nat) d, kv ∈ kids → nsteps (child σa) n kv.2 d → (n < fuel)%nat) as Hkids.
  { clear -IH. induction kids as [|kv kids IHk]; intros σa σb; simpl.
    - intros _ kv n d Hin. by apply elem_of_nil in Hin.
    - intros ([] & σm & Hkv & Hrest)%bind_Ok kv' n d [->|Hin]%elem_of_cons Hd.
      + by eapply IH.
      + eapply IHk; [done..|]. apply SetURL_step in Hkv as [Hsm _].
        eapply nsteps_mono; [|done]. intros a b. by apply (ustep_child u σa σm). }
  destruct v. intros n d Hn. inversion Hn as [|m ? e ? Hce Hed]; subst; [lia|].
  assert (child σ1 c e) as (a & k & Ha & Hk) by (by apply (ustep_child u σ σ1)).
  rewrite Hc in Ha. injection Ha as <-.
  assert (m < fuel)%nat; [|lia].
  apply (Hkids _ _ _ Hloop (k, e) m d).
  - rewrite (ord_perm (seed σ1) loc (partials self)). by apply elem_of_map_to_list.
  - eapply nsteps_mono; [|done]. intros x y. apply (ustep_child u σ σ2). by etrans.
Qed.

(** [SetURL] has no guard against circular partials, unlike [Render]:
    on a component from which a cycle of partials can be reached it does
    not return, whatever the bound on the depth of the recursion. *)
Theorem SetURL_cycle_never_returns fuel c d u σ :
  rtc (child σ) c d → tc (child σ) d d →
  ∀ v σ', SetURL fuel c u σ ≠ Ok v σ'.
Proof.
  intros Hcd Hdd v σ' Hrun.
  destruct (cycle_long_paths _ _ _ Hcd Hdd fuel) as (n & Hle & Hn).
  pose proof (SetURL_depth _ _ _ _ _ _ Hrun _ _ Hn). lia.
Qed.

Lemma set_with_set_with a b x : set_with a (set_with b x) = set_with a x.
Proof. by destruct x. Qed.

(** Creating the map of partials where it is nil adds no partial. *)
Lemma child_make_with P selfP σ a b :
  comps σ !! P = Some selfP → with_ selfP = None →
  child σ a b →
  child (set_comps (<[P := set_with (Some ∅) selfP]> (comps σ)) σ) a b.
Proof.
  intros HP Hw (x & k & Hx & Hk). unfold child. cbn [comps set_comps].
  destruct (decide (P = a)) as [<-|Hne].
  - rewrite HP in Hx. injection Hx as <-. unfold partials in Hk. by rewrite Hw in Hk.
  - exists x, k. by rewrite lookup_insert_ne.
Qed.

(** [With] on a parent without URL: the partial is put under the
    target, over what the target held, and that is all.  The map of
    partials is created when it is nil; [SetURL] is not called, so the
    call returns on any graph of partials; and the partial is not
    looked at: it may be the parent itself, or nil. *)
Theorem With_without_url fuel P C s σ selfP :
  comps σ !! P = Some selfP → url selfP = None →
  With fuel P C s σ
  = Ok P (set_comps (<[P := set_with (Some (<[s := C]> (partials selfP))) selfP]> (comps σ)) σ).
Proof.
  intros HP Hu. unfold With.
  rewrite (bind_eq _ _ σ selfP σ) by (by apply getComp_Ok).
  destruct (with_ selfP) as [wm|] eqn:Hw.
  - rewrite (bind_eq _ _ σ tt σ) by done.
    rewrite (bind_eq _ _ σ selfP σ) by (by apply getComp_Ok).
    rewrite Hu. rewrite (bind_eq _ _ σ tt σ) by done.
    rewrite (bind_eq _ _ σ selfP σ) by (by apply getComp_Ok).
    rewrite Hw. unfold partials. rewrite Hw. cbn [default from_option id].
    by rewrite (bind_eq _ _ σ tt
      (set_comps (<[P := set_with (Some (<[s := C]> wm)) selfP]> (comps σ)) σ))
      by (apply modComp_Ok; eauto).
  - set (self1 := set_with (Some ∅) selfP).
    set (σ1 := set_comps (<[P := self1]> (comps σ)) σ).
    assert (comps σ1 !! P = Some self1) as HP1 by apply lookup_insert_eq.
    rewrite (bind_eq _ _ σ tt σ1) by (apply modComp_Ok; eauto).
    rewrite (bind_eq _ _ σ1 self1 σ1) by (by apply getComp_Ok).
    replace (url self1) with (@None URL) by (by rewrite <-Hu; destruct selfP).
    rewrite (bind_eq _ _ σ1 tt σ1) by done.
    rewrite (bind_eq _ _ σ1 self1 σ1) by (by apply getComp_Ok).
    replace (with_ self1) with (Some (∅ : gmap string loc)) by (by destruct selfP).
    rewrite (bind_eq _ _ σ1 tt
      (set_comps (<[P := set_with (Some (<[s := C]> ∅)) self1]> (comps σ1)) σ1))
      by (apply modComp_Ok; eauto).
    unfold ret. f_equal.
    unfold σ1, self1, partials. rewrite Hw. cbn [default from_option id comps set_comps].
    rewrite set_with_set_with, insert_insert_eq. by destruct σ.
Qed.

(** [With] on a parent that has a URL calls [SetURL] on the partial: it
    does not return when a cycle of partials can be reached from the
    partial. *)
Theorem With_cyclic_partial_never_returns fuel P C s σ selfP v d :
  comps σ !! P = Some selfP → url selfP = Some v →
  rtc (child σ) C d → tc (child σ) d d →
  ∀ r σ', With fuel P C s σ ≠ Ok r σ'.
Proof.
  intros HP Hu HCd Hdd r σ'. unfold With.
  intros (? & ? & [Hc ->]%getComp_Ok & ([] & σ1 & Hmk &
    (self1 & ? & [Hc1 ->]%getComp_Ok & ([] & σ2 & Hset & _)%bind_Ok)%bind_Ok)%bind_Ok)%bind_Ok.
  rewrite HP in Hc. injection Hc as <-.
  assert (url self1 = Some v ∧ ∀ a b, child σ a b → child σ1 a b) as [Hu1 Hsub].
  { destruct (with_ selfP) as [wm|] eqn:Hw.
    - injection Hmk as <-. rewrite HP in Hc1. injection Hc1 as <-. done.
    - apply modComp_Ok in Hmk as (x & Hx & ->). rewrite HP in Hx. injection Hx as <-.
      cbn [comps set_comps] in Hc1. rewrite lookup_insert_eq in Hc1. injection Hc1 as <-.
      split; [by destruct selfP|]. intros a b. by apply child_make_with. }
  rewrite Hu1 in Hset.
  destruct (cycle_long_paths _ _ _ HCd Hdd fuel) as (n & Hle & Hn).
  apply (nsteps_mono _ (child σ1)) in Hn; [|done].
  pose proof (SetURL_depth _ _ _ _ _ _ Hset _ _ Hn). lia.
Qed.

(** ** What a render that succeeds tells about the graph of partials *)

Lemma ext_child σ σ' a b : ext σ σ' → child σ a b → child σ' a b.
Proof.
  intros Hext (x & k & Hx & Hk). destruct (ext_comps _ _ Hext _ _ Hx) as (y & Hy & Hxy).
  exists y, k. split; [done|]. unfold partials. by rewrite (ce_with _ _ Hxy).
Qed.

(** A render that succeeds went down every path of partials from its
    component, one level of recursion for each step, and met on it
    components only, none of them marked in the context. *)
Lemma Render_success_depth fuel ctx c σ h σ' :
  Render fuel ctx c σ = Ok (h, None) σ' →
  ∀ (n : nat) d, nsteps (child σ) n c d →
    (n < fuel)%nat ∧ (d ∉ ctx) ∧ is_Some (comps σ !! d).
Proof.
  revert ctx c σ h σ'. induction fuel as [|fuel IH]; intros ctx c σ h σ'; simpl; [done|].
  destruct (Value ctx c) eqn:Hv; [done|].
  intros (self & ? & [Hc ->]%getComp_Ok & (kids & σk & [= <- <-] &
    (r & σ1 & Hloop & Hk)%bind_Ok)%bind_Ok)%bind_Ok n d Hn.
  destruct r as [e|]; [done|].
  inversion Hn as [|m ? e ? Hce Hed]; subst.
  - split_and!; [lia|by apply bool_decide_eq_false in Hv|by eexists].
  - destruct Hce as (a & k & Ha & Hke). rewrite Hc in Ha. injection Ha as <-.
    destruct (partials_loop _ _ _ _ _ _ Hloop) with (s := k) (C := e)
      as (σa & σb & hC & Hext & Hr & _).
    { rewrite (ord_perm (seed σ) loc (partials self)). apply NoDup_fst_map_to_list. }
    { rewrite (ord_perm (seed σ) loc (partials self)). by apply elem_of_map_to_list. }
    assert (ext σ σa) as Hext'.
    { etrans; [|exact Hext]. by apply (preserves_rangeMap (partials self) σ (ord (seed σ) loc (partials self))). }
    destruct (IH _ _ _ _ _ Hr m d) as (Hlt & Hnin & Hal).
    { eapply nsteps_mono; [|done]. intros x y. by apply ext_child. }
    split_and!; [lia| |].
    + intros Hin. apply Hnin. by right.
    + destruct (comps σ !! d) eqn:Hd; [by eexists|].
      rewrite (ext_nil _ _ Hext' _ Hd) in Hal. by destruct Hal.
Qed.

(** A render that succeeds shows that the partials below the component
    are sound: every component that can be reached through registered
    partials is allocated (no nil partial), is not marked in the
    context of the call, and lies on no cycle of partials. *)
Theorem Render_success_no_cycle fuel ctx c σ h σ' :
  Render fuel ctx c σ = Ok (h, None) σ' →
  ∀ d, rtc (child σ) c d →
    is_Some (comps σ !! d) ∧ (d ∉ ctx) ∧ ¬ tc (child σ) d d.
Proof.
  intros Hrun d Hcd. pose proof Hcd as [n Hn]%rtc_nsteps.
  destruct (Render_success_depth _ _ _ _ _ _ Hrun _ _ Hn) as (_ & Hnin & Hal).
  split_and!; [done..|]. intros Hdd.
  destruct (cycle_long_paths _ _ _ Hcd Hdd fuel) as (k & Hle & Hk).
  destruct (Render_success_depth _ _ _ _ _ _ Hrun _ _ Hk) as (Hlt & _). lia.
Qed.

(** Whatever [Render] returns, it has left the configuration alone: the
    same components are allocated, each with the templates, partials
    registered, URL, functions, file system, wrapper and data map it
    had, and the data maps have lost and changed no entry. *)
Theorem Render_extends_state fuel ctx c σ r σ' :
  Render fuel ctx c σ = Ok r σ' →
  ext σ σ' ∧ dom (comps σ') = dom (comps σ).
Proof.
  intros Hrun. assert (ext σ σ') as Hext by (by eapply preserves_Render).
  split; [done|]. by apply ext_dom.
Qed.

(** ** [Render] and the template cache *)

Global Instance cache_grows_preorder : PreOrder cache_grows.
Proof.
  split.
  - intros σ. by split_and!.
  - intros σ1 σ2 σ3 (Hu1 & Hd1 & Hs1) (Hu2 & Hd2 & Hs2). split_and!.
    + congruence.
    + by etrans.
    + intros Hu. etrans; [by apply Hs1|]. apply Hs2. congruence.
Qed.

Lemma cache_same σ σ' :
  templateCache σ' = templateCache σ → UseTemplateCache σ' = UseTemplateCache σ →
  cache_grows σ σ'.
Proof. intros Ht Hu. unfold cache_grows. rewrite Ht. by split_and!. Qed.

Lemma keeps_forEachRet {A E} (R : relation State) `{!PreOrder R}
    (l : list A) (body : A → M (option E)) :
  (∀ x, keeps R (body x)) → keeps R (forEachRet l body).
Proof.
  intros Hb. induction l as [|x l IH]; simpl; [by apply keeps_ret|].
  apply keeps_bind; [done..|]. intros [e|]; [by apply keeps_ret|done].
Qed.

Lemma keeps_modComp_cache c f : keeps cache_grows (modComp c f).
Proof. intros σ u σ' (self & _ & ->)%modComp_Ok. by apply cache_same. Qed.

Lemma keeps_rangeMap_cache {V} (m : gmap string V) : keeps cache_grows (rangeMap m).
Proof. intros σ a σ' [= _ <-]. by apply cache_same. Qed.

Lemma keeps_assignIfAbsent_cache r kv : keeps cache_grows (assignIfAbsent r kv).
Proof.
  unfold assignIfAbsent. apply keeps_bind; [apply _| |].
  - intros σ a σ' [= _ <-]. reflexivity.
  - intros cur. destruct (cur !! kv.1); [apply keeps_ret, _|].
    destruct r as [a|]; [|done]. intros σ u σ' [= _ <-]. by apply cache_same.
Qed.

Lemma keeps_injectLoop_cache c (field : Component → option mref) kvs :
  keeps cache_grows (forEach kvs (λ kv, self <~ getComp c ;; assignIfAbsent (field self) kv)).
Proof.
  apply keeps_forEach; [apply _|]. intros kv.
  apply keeps_bind; [apply _|apply keeps_getComp, _|]. intros self.
  apply keeps_assignIfAbsent_cache.
Qed.

Lemma keeps_injectInto_cache c d : keeps cache_grows (injectInto c d).
Proof.
  unfold injectInto.
  apply keeps_bind; [apply _|apply keeps_getComp, _|]. intros self.
  apply keeps_bind; [apply _| |].
  { unfold injectData. apply keeps_bind; [apply _| |].
    - intros σ a σ' [= _ <-]. reflexivity.
    - intros m. apply keeps_bind; [apply _|apply keeps_rangeMap_cache|]. intros kvs.
      apply (keeps_injectLoop_cache d templateData). }
  intros _. apply keeps_bind; [apply _|apply keeps_getComp, _|]. intros self'.
  unfold injectGlobalData.
  apply keeps_bind; [apply _|apply keeps_getComp, _|]. intros selfd.
  apply keeps_bind; [apply _| |].
  { destruct (globalData selfd); [apply keeps_ret, _|].
    apply keeps_bind; [apply _| |intros r; apply keeps_modComp_cache].
    intros σ a σ' [= _ <-]. by apply cache_same. }
  intros _. apply keeps_bind; [apply _| |].
  - intros σ a σ' [= _ <-]. reflexivity.
  - intros m. apply keeps_bind; [apply _|apply keeps_rangeMap_cache|]. intros kvs.
    apply (keeps_injectLoop_cache d globalData).
Qed.

Lemma keeps_addPartial_cache c k h : keeps cache_grows (addPartial c k h).
Proof.
  unfold addPartial. apply keeps_bind; [apply _|apply keeps_getComp, _|]. intros self.
  destruct (partial self); [apply keeps_modComp_cache|done].
Qed.

Lemma keeps_copyInto_cache {V} (src dst : gmap string V) : keeps cache_grows (copyInto src dst).
Proof.
  unfold copyInto. apply keeps_bind; [apply _|apply keeps_rangeMap_cache|].
  intros kvs. apply keeps_ret, _.
Qed.

Lemma keeps_executeTemplate_cache ctx c input tmpl :
  keeps cache_grows (executeTemplate ctx c input tmpl).
Proof.
  unfold executeTemplate.
  apply keeps_bind; [apply _|apply keeps_get, _|]. intros σ2.
  apply keeps_bind; [apply _|apply keeps_getComp, _|]. intros self.
  destruct tmpl as [t|]; [|apply keeps_ret, _].
  destruct (Execute t _) as [buf [err|]]; apply keeps_ret, _.
Qed.

(** [parseAndStore] runs on a miss, or with the cache switched off. *)
Lemma parseAndStore_cache c name ts fm key σ r σ' :
  templateCache σ !! key = None ∨ UseTemplateCache σ = false →
  parseAndStore c name ts fm key σ = Ok r σ' → cache_grows σ σ'.
Proof.
  intros Hmiss. unfold parseAndStore. destruct (Funcs fm); [|done].
  intros (self & ? & [_ ->]%getComp_Ok & Hk)%bind_Ok. revert Hk.
  destruct (ParseFS _ _ _ _) as [t|err]; [|intros [= _ <-]; reflexivity].
  intros ([] & ? & [= <-] & [= _ <-])%bind_Ok.
  split_and!; [done| |]; cbn [templateCache set_templateCache].
  - rewrite dom_insert. apply union_subseteq_r.
  - intros Hu. destruct Hmiss as [Hnone|Hoff]; [|congruence].
    by apply insert_subseteq.
Qed.

Lemma keeps_renderNamed_cache ctx c name ts input :
  keeps cache_grows (renderNamed ctx c name ts input).
Proof.
  unfold renderNamed. destruct ts as [|t0 ts]; [apply keeps_ret, _|].
  apply keeps_bind; [apply _|apply keeps_get, _|]. intros σ0.
  apply keeps_bind; [apply _|apply keeps_copyInto_cache|]. intros fm0.
  apply keeps_bind; [apply _|apply keeps_getComp, _|]. intros self.
  apply keeps_bind; [apply _| |].
  { destruct (functions self); [apply keeps_copyInto_cache|apply keeps_ret, _]. }
  intros fm.
  apply keeps_bind; [apply _| |].
  { unfold generateCacheKey. apply keeps_bind; [apply _|apply keeps_rangeMap_cache|].
    intros kvs. apply keeps_ret, _. }
  intros key σ r σ' (σ1 & ? & [= <- <-] & (tmpl & σ2 & Hlook & Hk)%bind_Ok)%bind_Ok.
  etrans; [|destruct tmpl as [tmpl|err];
             [by eapply keeps_executeTemplate_cache|by eapply (keeps_ret cache_grows)]].
  destruct (templateCache σ !! key) as [hit|] eqn:Hhit.
  - destruct (UseTemplateCache σ) eqn:Huse.
    + injection Hlook as _ <-. reflexivity.
    + eapply parseAndStore_cache; [|done]. by right.
  - eapply parseAndStore_cache; [|done]. by left.
Qed.

Lemma keeps_Render_cache fuel ctx c : keeps cache_grows (Render fuel ctx c).
Proof.
  revert ctx c. induction fuel as [|fuel IH]; intros ctx c; simpl; [done|].
  destruct (Value ctx c); [apply keeps_ret, _|].
  apply keeps_bind; [apply _|apply keeps_getComp, _|]. intros self.
  apply keeps_bind; [apply _|apply keeps_rangeMap_cache|]. intros kids.
  apply keeps_bind; [apply _| |].
  { apply keeps_forEachRet; [apply _|]. intros kv. unfold renderPartial.
    apply keeps_bind; [apply _|apply keeps_injectInto_cache|]. intros _.
    apply keeps_bind; [apply _|apply IH|]. intros [h [err|]]; simpl.
    - apply keeps_ret, _.
    - apply keeps_bind; [apply _|apply keeps_addPartial_cache|]. intros _.
      apply keeps_ret, _. }
  intros [err|]; [apply keeps_ret, _|].
  apply keeps_bind; [apply _|apply keeps_getComp, _|]. intros self'.
  destruct (templates self'); [apply keeps_ret, _|apply keeps_renderNamed_cache].
Qed.

(** [Render] drops no key of the template cache and does not touch the
    switch; with the cache in use it changes no value either: what is
    stored under a key stays there, also when the templates behind the
    key are not the ones it was compiled from. *)
Theorem Render_keeps_cache fuel ctx c σ r σ' :
  Render fuel ctx c σ = Ok r σ' →
  UseTemplateCache σ' = UseTemplateCache σ ∧
  dom (templateCache σ) ⊆ dom (templateCache σ') ∧
  (UseTemplateCache σ = true → templateCache σ ⊆ templateCache σ').
Proof. apply keeps_Render_cache. Qed.

(** ** [NewComponent] and [FS] *)

(** [NewComponent] allocates a component that was not there, with a
    data map of its own that was not there either: no component and no
    map is shared with what exists, and nothing that exists changes.
    The component has the templates given, an empty data map, no global
    data, no URL, no partial and no wrapper. *)
Theorem NewComponent_fresh ts σ :
  ∃ c r σ' self, NewComponent ts σ = Ok c σ' ∧
    (c ∉ dom (comps σ)) ∧ (r ∉ dom (maps σ)) ∧
    comps σ' !! c = Some self ∧
    templates self = ts ∧ templateData self = Some r ∧ deref σ' (Some r) = ∅ ∧
    globalData self = None ∧ url self = None ∧ partials self = ∅ ∧
    wrapper self = None ∧ functions self = Some ∅ ∧
    (∀ d, d ≠ c → comps σ' !! d = comps σ !! d) ∧
    (∀ r', r' ≠ r → maps σ' !! r' = maps σ !! r').
Proof.
  set (r := fresh (dom (maps σ))).
  set (σ1 := set_maps (<[r := ∅]> (maps σ)) σ).
  set (c := fresh (dom (comps σ1))).
  set (self := mkComponent (Some r) (Some ∅) (Some ∅) None None "" ts None (Some ∅)
                 (DirFS "./")).
  exists c, r, (set_comps (<[c := self]> (comps σ1)) σ1), self.
  split_and!; try done.
  - apply (is_fresh (dom (comps σ))).
  - apply is_fresh.
  - apply lookup_insert_eq.
  - cbn [deref maps σ1 set_comps set_maps]. by rewrite lookup_insert_eq.
  - intros d Hd. cbn [comps σ1 set_comps set_maps]. by rewrite lookup_insert_ne.
  - intros r' Hr'. cbn [maps σ1 set_comps set_maps]. by rewrite lookup_insert_ne.
Qed.

(** [FS] changes the file system and not the cache key: with the cache
    in use and a value stored under the key, the next [renderNamed]
    executes the stored value, which was parsed from the file system
    the component had before. *)
Theorem FS_keeps_cache_key c self fsys σ :
  comps σ !! c = Some self →
  ∃ σ' self', SetFS c fsys σ = Ok c σ' ∧
    comps σ' !! c = Some self' ∧ fs self' = fsys ∧
    templateCache σ' = templateCache σ ∧
    (∀ t0, cacheKeyOf σ' self' t0 = cacheKeyOf σ self t0) ∧
    ∀ ctx name t0 ts input tmpl,
      templateCache σ !! cacheKeyOf σ self t0 = Some tmpl →
      UseTemplateCache σ = true →
      renderNamed ctx c name (t0 :: ts) input σ'
      = Ok (executed tmpl (envelopeOf ctx σ' self' input)) (afterKey σ' self').
Proof.
  intros Hc.
  set (self' := set_fs fsys self).
  set (σ' := set_comps (<[c := self']> (comps σ)) σ).
  assert (comps σ' !! c = Some self') as Hc' by apply lookup_insert_eq.
  exists σ', self'. split_and!; [|done|done|done|done|].
  - unfold SetFS. rewrite (bind_eq _ _ σ tt σ'); [done|]. apply modComp_Ok. eauto.
  - intros ctx name t0 ts input tmpl Hhit Huse.
    rewrite (renderNamed_lookup ctx c self') by done.
    change (templateCache σ' !! cacheKeyOf σ' self' t0)
      with (templateCache σ !! cacheKeyOf σ self t0).
    change (UseTemplateCache σ') with (UseTemplateCache σ).
    rewrite Hhit, Huse.
    rewrite (bind_eq _ _ (afterKey σ' self') (inl tmpl) (afterKey σ' self')) by done.
    by rewrite (executeTemplate_run ctx c self').
Qed.

Corollary Render_terminates ctx c σ :
  Render (S (size (dom (comps σ)))) ctx c σ ≠ OutOfFuel.
Proof.
  apply Render_total.
  assert (size (dom (comps σ) ∖ list_to_set (C := gset loc) ctx)
          ≤ size (dom (comps σ)))%nat; [|lia].
  apply subseteq_size. intros x [Hx _]%elem_of_difference. done.
Qed.

(** The depth of the recursion of [Render] is at most the number of
    components: with a bound above that number the model does not hit
    the bound, on any graph of partials, and gives what it gives with
    any other such bound. *)
Theorem Render_depth_bound (fuel : nat) ctx c σ :
  (size (dom (comps σ)) < fuel)%nat →
  Render fuel ctx c σ ≠ OutOfFuel ∧
  Render fuel ctx c σ = Render (S (size (dom (comps σ)))) ctx c σ.
Proof.
  intros Hlt. pose proof (Render_terminates ctx c σ) as Hfin.
  destruct (Render_fuel_le (S (size (dom (comps σ)))) fuel ctx c Hlt σ) as [?|Heq]; [done|].
  split; [|done]. by rewrite Heq.
Qed.

End Facts.

(** ** The model at work: concrete component trees *)

Import Toy.

Example Render_page :
  outcome (Render 2 [] 1%positive Scenes.page) = Returns ("page.html[nav.html[]]", None).
Proof. vm_compute. reflexivity. Qed.

Example Render_selfRef :
  outcome (Render 2 [] 1%positive Scenes.selfRef) = Returns ("", Some ErrCircular).
Proof. vm_compute. reflexivity. Qed.

Example Render_mutual :
  outcome (Render 3 [] 1%positive Scenes.mutual) = Returns ("", Some ErrCircular).
Proof. vm_compute. reflexivity. Qed.

(** A component that is a partial twice, under two slots, is not a
    circular reference: the marking does not outlive the call. *)
Example Render_shared_partial :
  outcome (Render 2 [] 1%positive Scenes.shared)
  = Returns ("page.html[nav.html[]nav.html[]]", None).
Proof. vm_compute. reflexivity. Qed.

Lemma Render_circular_witness :
  Value [2%positive; 1%positive] 1%positive = true ∧
  (∀ fuel, Render (S fuel) [2%positive; 1%positive] 1%positive Scenes.mutualIn1
           = Ok ("", Some ErrCircular) Scenes.mutualIn1) ∧
  ∃ fuel0 : nat, ∀ fuel, (fuel0 ≤ fuel)%nat →
    Render fuel [] 1%positive Scenes.mutual = Ok ("", Some ErrCircular) Scenes.mutualIn1.
Proof.
  apply (Render_circular [] 1%positive Scenes.mutual [2%positive; 1%positive]).
  apply (tc_l _ _ ([1%positive], 2%positive, Scenes.mutualIn2)); [|apply tc_once].
  - apply (enters_partial 0 [] 1%positive Scenes.mutual (Scenes.at_ Scenes.mutual 1%positive)
             [] ("b", 2%positive) [] (set_seed (S (seed Scenes.mutual)) Scenes.mutual)).
    + vm_compute. reflexivity.
    + vm_compute. reflexivity.
    + vm_compute. reflexivity.
    + vm_compute. reflexivity.
    + vm_compute. reflexivity.
  - apply (enters_partial 0 [1%positive] 2%positive Scenes.mutualIn2
             (Scenes.at_ Scenes.mutualIn2 2%positive)
             [] ("a", 1%positive) []
             (set_seed (S (seed Scenes.mutualIn2)) Scenes.mutualIn2)).
    + vm_compute. reflexivity.
    + vm_compute. reflexivity.
    + vm_compute. reflexivity.
    + vm_compute. reflexivity.
    + vm_compute. reflexivity.
Defined.

Lemma injection_first_writer_wins_witness :
  ∃ σ', injectData 1%positive (Some 2%positive) Scenes.xy = Ok tt σ' ∧
        deref σ' (Some 1%positive) = {["x" := 1%Z; "y" := 3%Z]}.
Proof.
  destruct (injection_first_writer_wins 1%positive (Scenes.at_ Scenes.xy 1%positive)
              (Some 2%positive) Scenes.xy)
    as [[(Hnil & _)|(σ' & Hrun & _ & _ & _ & Hxy)] _].
  - vm_compute. reflexivity.
  - vm_compute in Hnil. discriminate Hnil.
  - exists σ'. split; [exact Hrun|].
    apply (Hxy 1%Z 2%Z 3%Z); vm_compute; reflexivity.
Defined.

Lemma Render_partial_in_envelope_witness :
  ∃ hC self' pm t,
    comps (stateAfter (Render 2 [] 1%positive) Scenes.page) !! 1%positive = Some self' ∧
    partial self' = Some pm ∧ pm !! "nav" = Some hC ∧
    Execute t (mkEnvelope [1%positive]
                 (snapshot (stateAfter (Render 2 [] 1%positive) Scenes.page)
                    (templateData self'))
                 (snapshot (stateAfter (Render 2 [] 1%positive) Scenes.page)
                    (globalData self'))
                 (Some pm) (url self'))
    = ("page.html[nav.html[]]", None).
Proof.
  destruct (Render_partial_in_envelope 2 [] 1%positive Scenes.page
              (Scenes.at_ Scenes.page 1%positive) "nav" 2%positive
              "page.html[nav.html[]]"
              (stateAfter (Render 2 [] 1%positive) Scenes.page))
    as (fuel' & σ1 & σ2 & hC & self' & pm & t & _ & _ & _ & _ & Hc & Hp & Hs & Hex).
  - vm_compute. reflexivity.
  - vm_compute. reflexivity.
  - vm_compute. reflexivity.
  - exists hC, self', pm, t. split_and!; [exact Hc|exact Hp|exact Hs|exact Hex].
Defined.

(** C4 as stated fails: two template lists that differ after the first
    identifier get one key. *)
Lemma cache_key_other_templates_collide :
  ∃ k σ',
    generateCacheKey ["a.html"; "b.html"] (∅ : gmap string Func) Toy.σ0 = Ok k σ' ∧
    generateCacheKey ["a.html"; "c.html"] (∅ : gmap string Func) Toy.σ0 = Ok k σ' ∧
    (list_to_set ["a.html"; "b.html"] : gset string) ≠ list_to_set ["a.html"; "c.html"].
Proof.
  eexists _, _. split_and!.
  - vm_compute. reflexivity.
  - vm_compute. reflexivity.
  - intros Heq.
    assert ("b.html" ∈ (list_to_set ["a.html"; "c.html"] : gset string)) as Hin.
    { rewrite <-Heq. apply elem_of_list_to_set. right. left. }
    apply elem_of_list_to_set in Hin.
    apply elem_of_cons in Hin as [?|Hin]; [done|].
    apply elem_of_cons in Hin as [?|Hin]; [done|].
    by apply elem_of_nil in Hin.
Qed.

(** C5 as stated fails: a partial registered after [SetURL] has the URL
    of its parent without a second [SetURL]. *)
Lemma With_after_SetURL_propagates :
  SetURL 2 1%positive (Some Scenes.home) Scenes.family = Ok tt Scenes.familyURL ∧
  ¬ child Scenes.familyURL 1%positive 3%positive ∧
  urlOf Scenes.familyURL 3%positive = Some None ∧
  With 2 1%positive 3%positive "c" Scenes.familyURL = Ok 1%positive Scenes.familyWith ∧
  child Scenes.familyWith 1%positive 3%positive ∧
  urlOf Scenes.familyWith 3%positive = Some (Some Scenes.home).
Proof.
  split_and!.
  - vm_compute. reflexivity.
  - intros (self & k & Hc & Hk).
    assert (comps Scenes.familyURL !! 1%positive
            = Some (Scenes.at_ Scenes.familyURL 1%positive)) as Hc'
      by (vm_compute; reflexivity).
    assert (self = Scenes.at_ Scenes.familyURL 1%positive) as ->.
    { apply (inj Some). etrans; [symmetry; exact Hc|exact Hc']. }
    assert (map_Forall (λ _ d, d ≠ 3%positive)
              (partials (Scenes.at_ Scenes.familyURL 1%positive))) as Hall
      by (apply (bool_decide_unpack _); vm_compute; exact I).
    by apply (Hall k 3%positive Hk).
  - vm_compute. reflexivity.
  - vm_compute. reflexivity.
  - exists (Scenes.at_ Scenes.familyWith 1%positive), "c". split; vm_compute; reflexivity.
  - vm_compute. reflexivity.
Qed.

Lemma SetURL_then_With_witness :
  ∃ σ1, SetURL 2 1%positive (Some Scenes.home) Scenes.family = Ok tt σ1 ∧
    (∀ d, rtc (child Scenes.family) 1%positive d → urlOf σ1 d = Some (Some Scenes.home)) ∧
    ∃ σ2, With 2 1%positive 3%positive "c" σ1 = Ok 1%positive σ2 ∧
      child σ2 1%positive 3%positive ∧
      urlOf σ2 3%positive = Some (Some Scenes.home).
Proof.
  apply (SetURL_then_With (λ c, if decide (c = 1%positive) then 1 else 0) 2
           1%positive 3%positive "c" (Some Scenes.home) Scenes.family
           (Scenes.at_ Scenes.family 1%positive) (Scenes.at_ Scenes.family 3%positive)).
  - unfold ranked. apply (bool_decide_unpack _). vm_compute. exact I.
  - vm_compute. reflexivity.
  - vm_compute. reflexivity.
  - vm_compute. lia.
  - vm_compute. lia.
Defined.

Lemma Render_no_templates_witness :
  Render 2 [] 1%positive Scenes.bare
  = Ok ("", Some ErrNoTemplates)
      (stateAfter (forEachRet [("s", 2%positive)]
                     (renderPartial (Render 1 [1%positive]) 1%positive))
         (set_seed 1 Scenes.bare)).
Proof.
  apply (Render_no_templates 1 [] 1%positive Scenes.bare
           (Scenes.at_ Scenes.bare 1%positive)).
  - vm_compute. reflexivity.
  - vm_compute. reflexivity.
  - vm_compute. reflexivity.
  - vm_compute. reflexivity.
Defined.

Lemma Render_error_no_markup_witness :
  ("" : HTML) = "" ∧
  error_source 1 [] 1%positive Scenes.failing (ErrHost "execute error")
    (stateAfter (Render 1 [] 1%positive) Scenes.failing).
Proof.
  apply (Render_error_no_markup 1 [] 1%positive Scenes.failing).
  vm_compute. reflexivity.
Defined.

(** C8 fails on the code: [injectData] has no nil check.  A partial whose
    local data was set to nil makes the render of a parent that has
    local data panic, where the same with the global data goes through. *)
Theorem Render_nil_data_partial_panics :
  (p <~ NewComponent ["page.html"] ;;
   c <~ NewComponent ["c.html"] ;;
   _ <~ SetData c None ;;
   _ <~ AddData p "x" 1%Z ;;
   _ <~ With 1 p c "s" ;;
   Render 2 [] p) Toy.σ0 = Panic ∧
  outcome ((p <~ NewComponent ["page.html"] ;;
            c <~ NewComponent ["c.html"] ;;
            _ <~ SetGlobalData c None ;;
            _ <~ AddGlobalData p "x" 1%Z ;;
            _ <~ With 1 p c "s" ;;
            Render 2 [] p) Toy.σ0) = Returns ("page.html[c.html[]]", None).
Proof. split; vm_compute; reflexivity. Qed.

(** C9 as stated fails.  With the partials visited in the order ["a"],
    ["b"] (the order [Toy.forward]), the render of [1] in [twoPartials]
    returns an error after its loop ran: the parent has the key ["k"],
    the partial [2] has got it, and the partial [3], which the loop did
    not reach, does not have it. *)
Lemma Render_unreached_partial_not_injected :
  Value [] 1%positive = false ∧
  partials (Scenes.at_ Scenes.twoPartials 1%positive) !! "b" = Some 3%positive ∧
  deref Scenes.twoPartials (templateData (Scenes.at_ Scenes.twoPartials 1%positive)) !! "k"
    = Some 1%Z ∧
  Render 2 [] 1%positive Scenes.twoPartials
    = Ok ("", Some ErrNoTemplates) (stateAfter (Render 2 [] 1%positive) Scenes.twoPartials) ∧
  deref (stateAfter (Render 2 [] 1%positive) Scenes.twoPartials)
    (templateData (Scenes.at_ (stateAfter (Render 2 [] 1%positive) Scenes.twoPartials)
                     2%positive)) !! "k" = Some 1%Z ∧
  deref (stateAfter (Render 2 [] 1%positive) Scenes.twoPartials)
    (templateData (Scenes.at_ (stateAfter (Render 2 [] 1%positive) Scenes.twoPartials)
                     3%positive)) !! "k" = None.
Proof. split_and!; vm_compute; reflexivity. Qed.

Lemma Render_injection_persists_witness :
  ∃ visited rest,
    ord (seed Scenes.page) loc (partials (Scenes.at_ Scenes.page 1%positive))
      = visited ++ rest ∧
    (rest = [] ∨
     ∃ pre kv e σ1 h', visited = pre ++ [kv] ∧ None = Some e ∧
       Render (pred 2) (WithValue [] 1%positive) kv.2 σ1
       = Ok (h', Some e) (stateAfter (Render 2 [] 1%positive) Scenes.page)) ∧
    ∀ s C, (s, C) ∈ visited →
      ∃ child, comps (stateAfter (Render 2 [] 1%positive) Scenes.page) !! C = Some child ∧
        keys_in (deref Scenes.page (templateData (Scenes.at_ Scenes.page 1%positive)))
          (deref (stateAfter (Render 2 [] 1%positive) Scenes.page) (templateData child)) ∧
        keys_in (deref Scenes.page (globalData (Scenes.at_ Scenes.page 1%positive)))
          (deref (stateAfter (Render 2 [] 1%positive) Scenes.page) (globalData child)).
Proof.
  apply (Render_injection_persists 2 [] 1%positive Scenes.page
           (Scenes.at_ Scenes.page 1%positive) "page.html[nav.html[]]").
  - vm_compute. reflexivity.
  - vm_compute. reflexivity.
  - vm_compute. reflexivity.
Defined.

Lemma Render_ignores_Wrap_witness :
  outcome (Render 2 [] 1%positive
             (stateAfter (Wrap 2%positive (Some 1%positive) "nav") Scenes.page))
  = outcome (Render 2 [] 1%positive Scenes.page).
Proof.
  destruct (Render_ignores_Wrap 2 [] 1%positive [(2%positive, Some 1%positive, "nav")]
              Scenes.page tt
              (stateAfter (Wrap 2%positive (Some 1%positive) "nav") Scenes.page))
    as (_ & Hout & _).
  - vm_compute. reflexivity.
  - exact Hout.
Defined.


(** ** The further properties at work *)

Lemma renderNamed_cache_hit_witness :
  renderNamed [] 1%positive "page.html" ["page.html"] None Scenes.pageRendered
  = Ok (executed (CacheTemplate (Scenes.compiled ["page.html"]))
          (envelopeOf [] Scenes.pageRendered (Scenes.at_ Scenes.pageRendered 1%positive) None))
       (afterKey Scenes.pageRendered (Scenes.at_ Scenes.pageRendered 1%positive)).
Proof.
  apply (renderNamed_cache_hit [] 1%positive (Scenes.at_ Scenes.pageRendered 1%positive)
           "page.html" "page.html" [] None Scenes.pageRendered (CacheTemplate (Scenes.compiled ["page.html"]))).
  - vm_compute. reflexivity.
  - vm_compute. reflexivity.
  - vm_compute. reflexivity.
Defined.

Lemma renderNamed_parses_and_stores_witness :
  renderNamed [] 1%positive "page.html" ["page.html"] None Scenes.page
  = Ok (executed (CacheTemplate (Scenes.compiled ["page.html"]))
          (envelopeOf [] Scenes.page (Scenes.at_ Scenes.page 1%positive) None))
       (set_templateCache
          (<[cacheKeyOf Scenes.page (Scenes.at_ Scenes.page 1%positive) "page.html"
             := CacheTemplate (Scenes.compiled ["page.html"])]> (templateCache Scenes.page))
          (afterKey Scenes.page (Scenes.at_ Scenes.page 1%positive))).
Proof.
  apply (renderNamed_parses_and_stores [] 1%positive (Scenes.at_ Scenes.page 1%positive)
           "page.html" "page.html" [] None Scenes.page (Scenes.compiled ["page.html"])).
  - vm_compute. reflexivity.
  - left. vm_compute. reflexivity.
  - vm_compute. reflexivity.
  - vm_compute. reflexivity.
Defined.

Lemma renderNamed_parse_failure_witness :
  renderNamed [] 1%positive "bad.html" ["bad.html"] None Scenes.bad
  = Ok ("", Some (ErrHost Scenes.parseError))
       (afterKey Scenes.bad (Scenes.at_ Scenes.bad 1%positive)).
Proof.
  destruct (renderNamed_parse_failure [] 1%positive (Scenes.at_ Scenes.bad 1%positive)
              "bad.html" "bad.html" [] None Scenes.bad) as [_ Herr].
  - vm_compute. reflexivity.
  - left. vm_compute. reflexivity.
  - apply Herr.
    + vm_compute. reflexivity.
    + vm_compute. reflexivity.
Defined.

Lemma Render_populates_cache_witness :
  ∃ self' t0 ts t,
    comps Scenes.pageRendered !! 1%positive = Some self' ∧ templates self' = t0 :: ts ∧
    templateCache Scenes.pageRendered !! cacheKeyOf Scenes.pageRendered self' t0
      = Some (CacheTemplate t) ∧
    Execute t (envelopeOf [1%positive] Scenes.pageRendered self' (templateData self'))
      = ("page.html[nav.html[]]", None).
Proof.
  apply (Render_populates_cache 2 [] 1%positive Scenes.page "page.html[nav.html[]]"
           Scenes.pageRendered).
  vm_compute. reflexivity.
Defined.

Lemma AddData_overwrites_witness :
  ∃ σ' self', AddData 1%positive "x" (Scenes.num 5) Scenes.xy = Ok 1%positive σ' ∧
    comps σ' !! 1%positive = Some self' ∧
    is_Some (templateData self') ∧
    deref σ' (templateData self')
      = <["x" := (Scenes.num 5)]> (deref Scenes.xy (templateData (Scenes.at_ Scenes.xy 1%positive))) ∧
    (∀ r, templateData (Scenes.at_ Scenes.xy 1%positive) = Some r →
          self' = Scenes.at_ Scenes.xy 1%positive) ∧
    (∀ d, d ≠ 1%positive → comps σ' !! d = comps Scenes.xy !! d).
Proof.
  apply (AddData_overwrites 1%positive (Scenes.at_ Scenes.xy 1%positive) "x" (Scenes.num 5) Scenes.xy).
  vm_compute. reflexivity.
Defined.

Lemma AddGlobalData_overwrites_witness :
  ∃ σ' self', AddGlobalData 1%positive "x" (Scenes.num 5) Scenes.xy = Ok 1%positive σ' ∧
    comps σ' !! 1%positive = Some self' ∧
    is_Some (globalData self') ∧
    deref σ' (globalData self')
      = <["x" := (Scenes.num 5)]> (deref Scenes.xy (globalData (Scenes.at_ Scenes.xy 1%positive))) ∧
    (∀ r, globalData (Scenes.at_ Scenes.xy 1%positive) = Some r →
          self' = Scenes.at_ Scenes.xy 1%positive) ∧
    (∀ d, d ≠ 1%positive → comps σ' !! d = comps Scenes.xy !! d).
Proof.
  apply (AddGlobalData_overwrites 1%positive (Scenes.at_ Scenes.xy 1%positive) "x" (Scenes.num 5)
           Scenes.xy).
  vm_compute. reflexivity.
Defined.

Lemma SetData_shares_map_witness :
  ∃ σ' self2',
    (_ <~ SetData 1%positive (Some 2%positive) ;;
     _ <~ SetData 2%positive (Some 2%positive) ;;
     AddData 1%positive "z" (Scenes.num 9)) Scenes.xy = Ok 1%positive σ' ∧
    comps σ' !! 2%positive = Some self2' ∧
    templateData self2' = Some 2%positive ∧
    deref σ' (Some 2%positive) = <["z" := (Scenes.num 9)]> (deref Scenes.xy (Some 2%positive)).
Proof.
  apply (SetData_shares_map 1%positive 2%positive (Scenes.at_ Scenes.xy 1%positive)
           (Scenes.at_ Scenes.xy 2%positive) 2%positive "z" (Scenes.num 9) Scenes.xy).
  - vm_compute. reflexivity.
  - vm_compute. reflexivity.
Defined.

Lemma Reset_keeps_configuration_witness :
  ∃ σ' self', Reset 1%positive Scenes.pageRendered = Ok 1%positive σ' ∧
    comps σ' !! 1%positive = Some self' ∧
    templates self' = ["page.html"] ∧ partials self' = ∅ ∧ partial self' = Some ∅ ∧
    templateCache σ' = templateCache Scenes.pageRendered.
Proof.
  destruct (Reset_keeps_configuration 1%positive (Scenes.at_ Scenes.pageRendered 1%positive)
              Scenes.pageRendered)
    as (σ' & self' & r1 & r2 & Hrun & Hc & Hts & _ & _ & _ & _ & _ & Hw & Hp & _ & _ & _ &
        _ & _ & _ & _ & _ & _ & Hcache & _).
  - vm_compute. reflexivity.
  - exists σ', self'. split_and!; [exact Hrun|exact Hc| | |exact Hp|exact Hcache].
    + etrans; [exact Hts|]. vm_compute. reflexivity.
    + unfold partials. rewrite Hw. reflexivity.
Defined.

Lemma Attach_keeps_cache_key_witness :
  ∃ σ' self', Attach 1%positive "extra.html" Scenes.pageRendered = Ok 1%positive σ' ∧
    templates self' = ["page.html"; "extra.html"] ∧
    renderNamed [] 1%positive "page.html" (templates self') None σ'
    = Ok (executed (CacheTemplate (Scenes.compiled ["page.html"])) (envelopeOf [] σ' self' None))
         (afterKey σ' self').
Proof.
  destruct (Attach_keeps_cache_key 1%positive (Scenes.at_ Scenes.pageRendered 1%positive)
              "page.html" [] "extra.html" Scenes.pageRendered)
    as (σ' & self' & Hrun & _ & Hts & _ & _ & Hhit).
  - vm_compute. reflexivity.
  - vm_compute. reflexivity.
  - exists σ', self'. split_and!; [exact Hrun|exact Hts|].
    apply Hhit.
    + vm_compute. reflexivity.
    + vm_compute. reflexivity.
Defined.

Lemma AddTemplateFunction_overrides_witness :
  ∃ σ' self', AddTemplateFunction 1%positive "upper" (Scenes.fn 7) Scenes.page = Ok 1%positive σ' ∧
    comps σ' !! 1%positive = Some self' ∧
    effectiveFuncs σ' self'
      = <["upper" := Scenes.fn 7]> (effectiveFuncs Scenes.page (Scenes.at_ Scenes.page 1%positive)) ∧
    templateCache σ' = templateCache Scenes.page ∧
    (is_Some (effectiveFuncs Scenes.page (Scenes.at_ Scenes.page 1%positive) !! "upper") →
     ∀ t0, cacheKeyOf σ' self' t0
           = cacheKeyOf Scenes.page (Scenes.at_ Scenes.page 1%positive) t0).
Proof.
  apply (AddTemplateFunction_overrides 1%positive (Scenes.at_ Scenes.page 1%positive)
           "upper" (Scenes.fn 7) Scenes.page).
  vm_compute. reflexivity.
Defined.

Lemma AddTemplateFunctions_merges_witness :
  ∃ σ' self',
    AddTemplateFunctions 1%positive {["upper" := Scenes.fn 7; "lower" := Scenes.fn 8]} Scenes.page
      = Ok 1%positive σ' ∧
    comps σ' !! 1%positive = Some self' ∧
    functions self'
      = Some ({["upper" := Scenes.fn 7; "lower" := Scenes.fn 8]}
              ∪ default ∅ (functions (Scenes.at_ Scenes.page 1%positive))) ∧
    effectiveFuncs σ' self'
      = {["upper" := Scenes.fn 7; "lower" := Scenes.fn 8]}
        ∪ effectiveFuncs Scenes.page (Scenes.at_ Scenes.page 1%positive).
Proof.
  apply (AddTemplateFunctions_merges 1%positive (Scenes.at_ Scenes.page 1%positive)
           {["upper" := Scenes.fn 7; "lower" := Scenes.fn 8]} Scenes.page).
  vm_compute. reflexivity.
Defined.

Lemma Wrap_sets_wrapper_only_witness :
  ∃ σ' self', Wrap 2%positive (Some 1%positive) "content" Scenes.page = Ok 2%positive σ' ∧
    comps σ' !! 2%positive = Some self' ∧
    wrapper self' = Some 1%positive ∧ target self' = "content" ∧
    isWrapped self' = bool_decide (is_Some (Some 1%positive)) ∧
    unwrapped self' = unwrapped (Scenes.at_ Scenes.page 2%positive) ∧
    (∀ d, d ≠ 2%positive → comps σ' !! d = comps Scenes.page !! d) ∧
    (∀ a b, child σ' a b ↔ child Scenes.page a b).
Proof.
  apply (Wrap_sets_wrapper_only 2%positive (Scenes.at_ Scenes.page 2%positive)
           (Some 1%positive) "content" Scenes.page).
  vm_compute. reflexivity.
Defined.

Lemma SetURL_cycle_never_returns_witness :
  ¬ ∃ v σ', SetURL 7 1%positive (Some Scenes.home) Scenes.selfRef = Ok v σ'.
Proof.
  intros (v & σ' & Hrun). revert Hrun.
  apply (SetURL_cycle_never_returns 7 1%positive 1%positive (Some Scenes.home)
           Scenes.selfRef).
  - apply rtc_refl.
  - apply tc_once. exists (Scenes.at_ Scenes.selfRef 1%positive), "self".
    split; vm_compute; reflexivity.
Defined.

Lemma With_without_url_witness :
  With 0 1%positive 1%positive "nav" Scenes.page
  = Ok 1%positive
      (set_comps (<[1%positive :=
         set_with (Some (<["nav" := 1%positive]>
                           (partials (Scenes.at_ Scenes.page 1%positive))))
           (Scenes.at_ Scenes.page 1%positive)]> (comps Scenes.page)) Scenes.page).
Proof.
  apply (With_without_url 0 1%positive 1%positive "nav" Scenes.page
           (Scenes.at_ Scenes.page 1%positive)).
  - vm_compute. reflexivity.
  - vm_compute. reflexivity.
Defined.

Lemma With_cyclic_partial_never_returns_witness :
  ¬ ∃ r σ', With 7 2%positive 1%positive "loop" Scenes.loopAndRoot = Ok r σ'.
Proof.
  intros (r & σ' & Hrun). revert Hrun.
  apply (With_cyclic_partial_never_returns 7 2%positive 1%positive "loop" Scenes.loopAndRoot
           (Scenes.at_ Scenes.loopAndRoot 2%positive) Scenes.home 1%positive).
  - vm_compute. reflexivity.
  - vm_compute. reflexivity.
  - apply rtc_refl.
  - apply tc_once. exists (Scenes.at_ Scenes.loopAndRoot 1%positive), "self".
    split; vm_compute; reflexivity.
Defined.

Lemma Render_success_no_cycle_witness :
  is_Some (comps Scenes.page !! 2%positive) ∧ (2%positive ∉ ([] : Context)) ∧
  ¬ tc (child Scenes.page) 2%positive 2%positive.
Proof.
  apply (Render_success_no_cycle 2 [] 1%positive Scenes.page "page.html[nav.html[]]"
           Scenes.pageRendered).
  - vm_compute. reflexivity.
  - apply rtc_once. exists (Scenes.at_ Scenes.page 1%positive), "nav".
    split; vm_compute; reflexivity.
Defined.

Lemma Render_extends_state_witness :
  ext Scenes.page Scenes.pageRendered ∧
  dom (comps Scenes.pageRendered) = dom (comps Scenes.page).
Proof.
  apply (Render_extends_state 2 [] 1%positive Scenes.page ("page.html[nav.html[]]", None)
           Scenes.pageRendered).
  vm_compute. reflexivity.
Defined.

Lemma Render_keeps_cache_witness :
  UseTemplateCache (stateAfter (Render 2 [] 1%positive) Scenes.pageRendered)
    = UseTemplateCache Scenes.pageRendered ∧
  dom (templateCache Scenes.pageRendered)
    ⊆ dom (templateCache (stateAfter (Render 2 [] 1%positive) Scenes.pageRendered)) ∧
  (UseTemplateCache Scenes.pageRendered = true →
   templateCache Scenes.pageRendered
     ⊆ templateCache (stateAfter (Render 2 [] 1%positive) Scenes.pageRendered)).
Proof.
  apply (Render_keeps_cache 2 [] 1%positive Scenes.pageRendered
           ("page.html[nav.html[]]", None)
           (stateAfter (Render 2 [] 1%positive) Scenes.pageRendered)).
  vm_compute. reflexivity.
Defined.

Lemma Render_depth_bound_witness :
  Render 5 [] 1%positive Scenes.mutual ≠ OutOfFuel ∧
  Render 5 [] 1%positive Scenes.mutual
  = Render (S (size (dom (comps Scenes.mutual)))) [] 1%positive Scenes.mutual.
Proof.
  apply (Render_depth_bound 5 [] 1%positive Scenes.mutual).
  vm_compute. lia.
Defined.

Lemma FS_keeps_cache_key_witness :
  ∃ σ' self', SetFS 1%positive tt Scenes.pageRendered = Ok 1%positive σ' ∧
    renderNamed [] 1%positive "page.html" ["page.html"] None σ'
    = Ok (executed (CacheTemplate (Scenes.compiled ["page.html"])) (envelopeOf [] σ' self' None))
         (afterKey σ' self').
Proof.
  destruct (FS_keeps_cache_key 1%positive (Scenes.at_ Scenes.pageRendered 1%positive) tt
              Scenes.pageRendered)
    as (σ' & self' & Hrun & _ & _ & _ & _ & Hhit).
  - vm_compute. reflexivity.
  - exists σ', self'. split; [exact Hrun|].
    apply Hhit.
    + vm_compute. reflexivity.
    + vm_compute. reflexivity.
Defined.
